(** * MidiProcessor: percussion timelines, co-occurrence statistics and TUBS

    A shallow embedding of [midi_processor.py].  Python integers are [Z],
    Python floats are IEEE-754 binary64 values modelled as the rationals
    they denote (module [Binary64]), dictionaries are insertion-ordered
    association lists (module [PyDict]), exceptions are the [Raise] branch
    of [result], and [print] appends to an event log.

    The first part of the file holds the definitions, the second part the
    lemmas and the theorems about them. *)

From Stdlib Require Import ZArith QArith Qround Qabs Qpower Qcanon Lia Lqa.
From Stdlib Require Import List String Ascii Bool Sorted Permutation.
From Stdlib Require Import Decimal DecimalString DecimalZ DecimalPos.
From Stdlib Require Import SpecFloat.
Import ListNotations.

Open Scope string_scope.
Open Scope Z_scope.

(* ================================================================== *)
(** * Part I: definitions *)
(* ================================================================== *)

(** ** Exceptions *)

Inductive exn : Type :=
| ZeroDivisionError
| OverflowError
| ValueError
| TypeError
| AttributeError
| OSError.

Inductive result (A : Type) : Type :=
| Ok (a : A)
| Raise (e : exn).

Arguments Ok {A} a.
Arguments Raise {A} e.

Definition bind {A B : Type} (r : result A) (k : A -> result B) : result B :=
  match r with
  | Ok a => k a
  | Raise e => Raise e
  end.

Declare Scope result_scope.
Delimit Scope result_scope with result.
Notation "x <- r ;; k" := (bind r (fun x => k))
  (at level 61, r at next level, right associativity) : result_scope.
Notation "' p <- r ;; k" := (bind r (fun p => k))
  (at level 61, p pattern, r at next level, right associativity) : result_scope.
Open Scope result_scope.

(** A [for] loop whose body may raise. *)
Fixpoint foldM {A S : Type} (f : S -> A -> result S) (l : list A) (s : S)
  : result S :=
  match l with
  | [] => Ok s
  | x :: l' => s' <- f s x ;; foldM f l' s'
  end.

(** ** IEEE-754 binary64, as the rationals it denotes

    A finite float is the rational it stands for; an operation computes
    the exact rational result and rounds it to the nearest binary64 value,
    ties to even, which is how IEEE-754 defines [+], [*] and [/].  Zeros
    carry no sign: the program never observes one (Python raises on a zero
    divisor before the sign could matter). *)

Module Binary64.

Definition prec : Z := 53.
Definition emax : Z := 1024.
Definition emin : Z := 3 - emax - prec.

Definition pow2 (e : Z) : Q := (2 ^ e)%Q.

(** For [0 < q], the [e] with [2^e <= q < 2^(e+1)]. *)
Definition ilog2 (q : Q) : Z :=
  let e0 := Z.log2 (Qnum q) - Z.log2 (Zpos (Qden q)) in
  if Qle_bool (pow2 e0) q then e0 else e0 - 1.

(** Exponent of the unit in the last place of a value in [2^e, 2^(e+1)). *)
Definition fexp (e : Z) : Z := Z.max (e + 1 - prec) emin.

Definition round_half_even (q : Q) : Z :=
  let f := Qfloor q in
  match (q - inject_Z f ?= 1 # 2)%Q with
  | Lt => f
  | Gt => f + 1
  | Eq => if Z.even f then f else f + 1
  end.

Definition rne_pos (q : Q) : Q :=
  let u := pow2 (fexp (ilog2 q)) in
  (inject_Z (round_half_even (q / u)) * u)%Q.

(** Round to nearest, ties to even, with unbounded exponent above. *)
Definition rne (q : Q) : Q :=
  match (q ?= 0)%Q with
  | Eq => 0%Q
  | Gt => rne_pos q
  | Lt => (- rne_pos (- q))%Q
  end.

Inductive float : Type :=
| Fin (q : Q)
| Inf (neg : bool)
| NaN.

Definition is_neg (q : Q) : bool := negb (Qle_bool 0 q).

(** The binary64 value of an exact rational result: overflow gives an
    infinity. *)
Definition of_Q (q : Q) : float :=
  let r := Qred (rne q) in
  if Qle_bool (pow2 emax) (Qabs r) then Inf (is_neg r) else Fin r.

Definition is_zero (x : float) : bool :=
  match x with
  | Fin q => Qeq_bool q 0
  | _ => false
  end.

Definition div (x y : float) : float :=
  match x, y with
  | NaN, _ | _, NaN => NaN
  | Inf _, Inf _ => NaN
  | Inf s, Fin b => Inf (xorb s (is_neg b))
  | Fin _, Inf _ => Fin 0
  | Fin a, Fin b =>
      if Qeq_bool b 0
      then (if Qeq_bool a 0 then NaN else Inf (is_neg a))
      else of_Q (a / b)
  end.

Definition mul (x y : float) : float :=
  match x, y with
  | NaN, _ | _, NaN => NaN
  | Inf s, Inf t => Inf (xorb s t)
  | Inf s, Fin b => if Qeq_bool b 0 then NaN else Inf (xorb s (is_neg b))
  | Fin a, Inf t => if Qeq_bool a 0 then NaN else Inf (xorb (is_neg a) t)
  | Fin a, Fin b => of_Q (a * b)
  end.

Definition add (x y : float) : float :=
  match x, y with
  | NaN, _ | _, NaN => NaN
  | Inf s, Inf t => if Bool.eqb s t then Inf s else NaN
  | Inf s, Fin _ => Inf s
  | Fin _, Inf t => Inf t
  | Fin a, Fin b => of_Q (a + b)
  end.

(** The same division computed by the Standard Library's reference
    implementation of binary64, read back as a rational; used to test
    the model above. *)
Definition SF2Q (x : spec_float) : option Q :=
  match x with
  | S754_zero _ => Some 0%Q
  | S754_finite s m e =>
      Some (Qred ((if s then -1 else 1) * inject_Z (Zpos m) * pow2 e))%Q
  | _ => None
  end.

Definition SF_of_Z (n : Z) : spec_float := binary_normalize prec emax n 0 false.

Definition SF_div_Z (a b : Z) : option Q :=
  SF2Q (SFdiv prec emax (SF_of_Z a) (SF_of_Z b)).

Definition div_Z (a b : Z) : option Q :=
  match div (of_Q (inject_Z a)) (of_Q (inject_Z b)) with
  | Fin q => Some (Qred q)
  | _ => None
  end.

(** Likewise [m + a / b] and [(a / b) * c], the shapes of the binary mean
    and of the beats per minute. *)
Definition SF_add_div_Z (m a b : Z) : option Q :=
  SF2Q (SFadd prec emax (SF_of_Z m) (SFdiv prec emax (SF_of_Z a) (SF_of_Z b))).

Definition add_div_Z (m a b : Z) : option Q :=
  match add (of_Q (inject_Z m)) (div (of_Q (inject_Z a)) (of_Q (inject_Z b))) with
  | Fin q => Some (Qred q)
  | _ => None
  end.

Definition SF_div_mul_Z (a b c : Z) : option Q :=
  SF2Q (SFmul prec emax (SFdiv prec emax (SF_of_Z a) (SF_of_Z b)) (SF_of_Z c)).

Definition div_mul_Z (a b c : Z) : option Q :=
  match mul (div (of_Q (inject_Z a)) (of_Q (inject_Z b))) (of_Q (inject_Z c)) with
  | Fin q => Some (Qred q)
  | _ => None
  end.

Definition same_value (x y : option Q) : bool :=
  match x, y with
  | Some p, Some q => Qeq_bool p q
  | None, None => true
  | _, _ => false
  end.

End Binary64.

Import Binary64.

(** ** Python built-ins used by the program *)

(** [float(n)] for an [int]. *)
Definition py_float (n : Z) : result float :=
  match of_Q (inject_Z n) with
  | Inf _ => Raise OverflowError
  | x => Ok x
  end.

(** [x / y] on floats. *)
Definition py_truediv (x y : float) : result float :=
  if is_zero y then Raise ZeroDivisionError else Ok (div x y).

(** [a / b] on ints: the correctly rounded quotient. *)
Definition py_int_truediv (a b : Z) : result float :=
  if b =? 0 then Raise ZeroDivisionError
  else match of_Q (inject_Z a / inject_Z b) with
       | Inf _ => Raise OverflowError
       | x => Ok x
       end.

(** [math.ceil(x)] *)
Definition py_ceil (x : float) : result Z :=
  match x with
  | Fin q => Ok (Qceiling q)
  | Inf _ => Raise OverflowError
  | NaN => Raise ValueError
  end.

(** [str(n)] for an [int]. *)
Definition py_str (n : Z) : string := NilZero.string_of_int (Z.to_int n).

(** Whitespace as [int] skips it at both ends of its argument: of the
    code points below 256, those from 9 to 13 and 32, 133 and 160. *)
Definition is_space (c : ascii) : bool :=
  let n := Z.of_N (N_of_ascii c) in
  ((9 <=? n) && (n <=? 13)) || (n =? 32) || (n =? 133) || (n =? 160).

Fixpoint lstrip (s : string) : string :=
  match s with
  | EmptyString => EmptyString
  | String c s' => if is_space c then lstrip s' else s
  end.

Fixpoint rstrip (s : string) : string :=
  match s with
  | EmptyString => EmptyString
  | String c s' =>
      match rstrip s' with
      | EmptyString => if is_space c then EmptyString else String c EmptyString
      | r => String c r
      end
  end.

(** A numeral without its underscores: a single underscore may stand
    between two digits, nowhere else. *)
Fixpoint ungroup (after_digit : bool) (s : string) : option string :=
  match s with
  | EmptyString => if after_digit then Some EmptyString else None
  | String c s' =>
      if Ascii.eqb c "_" then
        if after_digit then ungroup false s' else None
      else option_map (String c) (ungroup true s')
  end.

(** An unsigned numeral: one digit at least; leading zeros are fine. *)
Definition py_uint (s : string) : option Z :=
  match ungroup false s with
  | Some digits => option_map Z.of_uint (NilEmpty.uint_of_string digits)
  | None => None
  end.

(** [int(s)] for a [str] of code points below 256: whitespace around,
    an optional sign, then the numeral.  (The interpreter's configurable
    limit on the number of digits is not part of it.) *)
Definition py_int (s : string) : result Z :=
  let s := rstrip (lstrip s) in
  let n := match s with
           | EmptyString => None
           | String c r =>
               if Ascii.eqb c "+" then py_uint r
               else if Ascii.eqb c "-" then option_map Z.opp (py_uint r)
               else py_uint s
           end in
  match n with
  | Some n => Ok n
  | None => Raise ValueError
  end.

(** [range(a, b)] *)
Definition py_range (a b : Z) : list Z :=
  map (fun i => a + Z.of_nat i) (seq 0 (Z.to_nat (b - a))).

(** [len] *)
Definition len {A : Type} (l : list A) : Z := Z.of_nat (List.length l).

Definition tab : string := String (ascii_of_nat 9) EmptyString.
Definition newline : string := String (ascii_of_nat 10) EmptyString.
(** The literal ["\t\t"]. *)
Definition two_tabs : string := tab ++ tab.

(** [s.split(sep)] for a one-character separator. *)
Fixpoint py_split (sep : ascii) (s : string) : list string :=
  match s with
  | EmptyString => [EmptyString]
  | String c s' =>
      if Ascii.eqb c sep then EmptyString :: py_split sep s'
      else match py_split sep s' with
           | h :: t => String c h :: t
           | [] => [String c EmptyString]
           end
  end.

(** ** Dictionaries: insertion-ordered, one entry per key *)

Module PyDict.
Section Dict.
Context {K V : Type}.
Variable eqb : K -> K -> bool.

Definition dict : Type := list (K * V).

Definition empty : dict := [].

Fixpoint get (k : K) (d : dict) : option V :=
  match d with
  | [] => None
  | (k', v) :: d' => if eqb k' k then Some v else get k d'
  end.

(** [k in d] *)
Definition contains (k : K) (d : dict) : bool :=
  match get k d with
  | Some _ => true
  | None => false
  end.

(** [d[k] = v]: an existing key keeps its place, a new one goes last. *)
Fixpoint set (k : K) (v : V) (d : dict) : dict :=
  match d with
  | [] => [(k, v)]
  | (k', v') :: d' =>
      if eqb k' k then (k', v) :: d' else (k', v') :: set k v d'
  end.

Definition items (d : dict) : list (K * V) := d.
Definition keys (d : dict) : list K := map fst d.
End Dict.
End PyDict.

(** [sorted(d.items())] for integer keys.  Keys of a dictionary are
    distinct, so the comparison of two items is decided by their keys. *)
Section Sorted.
Context {V : Type}.

Fixpoint insert_item (x : Z * V) (l : list (Z * V)) : list (Z * V) :=
  match l with
  | [] => [x]
  | y :: l' => if fst x <=? fst y then x :: l else y :: insert_item x l'
  end.

Definition py_sorted (l : list (Z * V)) : list (Z * V) :=
  fold_right insert_item [] l.
End Sorted.

(** ** The event stream (the parser's output) *)

(** A ['note_on'] message. *)
Record note_on : Type := NoteOn {
  channel : Z;
  note : Z;
  velocity : Z;
  note_time : Z
}.

Inductive message : Type :=
| MNoteOn (m : note_on)
| MSetTempo (tempo : Z) (time : Z)
| MTimeSignature (numerator denominator : Z) (time : Z)
| MOther (time : Z).

(** [message.time] *)
Definition time (m : message) : Z :=
  match m with
  | MNoteOn n => note_time n
  | MSetTempo _ t => t
  | MTimeSignature _ _ t => t
  | MOther t => t
  end.

Definition track : Type := list message.

Record MidiFile : Type := {
  mid_filename : string;
  mid_ticks_per_beat : Z;
  mid_tracks : list track
}.

(** ** The processor object *)

Record MidiProcessor : Type := {
  mid : MidiFile;
  filename : string;
  runtime : string;
  ticks_per_beat : Z;
  beats : list (Z * list note_on);
  instruments : list (string * list Z);
  ordered_beats : list (Z * list note_on);
  numerator : Z;
  denominator : Z;
  tempo : Z;
  abs_time_counter : Z;
  max_track_len : Z;
  bar_size : Z;
  bar_counter : Z;
  bpm : float
}.

Definition with_beats (b : list (Z * list note_on)) (p : MidiProcessor) :=
  {| mid := mid p; filename := filename p; runtime := runtime p;
     ticks_per_beat := ticks_per_beat p; beats := b;
     instruments := instruments p; ordered_beats := ordered_beats p;
     numerator := numerator p; denominator := denominator p;
     tempo := tempo p; abs_time_counter := abs_time_counter p;
     max_track_len := max_track_len p; bar_size := bar_size p;
     bar_counter := bar_counter p; bpm := bpm p |}.

Definition with_instruments (i : list (string * list Z)) (p : MidiProcessor) :=
  {| mid := mid p; filename := filename p; runtime := runtime p;
     ticks_per_beat := ticks_per_beat p; beats := beats p;
     instruments := i; ordered_beats := ordered_beats p;
     numerator := numerator p; denominator := denominator p;
     tempo := tempo p; abs_time_counter := abs_time_counter p;
     max_track_len := max_track_len p; bar_size := bar_size p;
     bar_counter := bar_counter p; bpm := bpm p |}.

Definition with_ordered_beats (o : list (Z * list note_on)) (p : MidiProcessor) :=
  {| mid := mid p; filename := filename p; runtime := runtime p;
     ticks_per_beat := ticks_per_beat p; beats := beats p;
     instruments := instruments p; ordered_beats := o;
     numerator := numerator p; denominator := denominator p;
     tempo := tempo p; abs_time_counter := abs_time_counter p;
     max_track_len := max_track_len p; bar_size := bar_size p;
     bar_counter := bar_counter p; bpm := bpm p |}.

Definition with_signature (n d : Z) (p : MidiProcessor) :=
  {| mid := mid p; filename := filename p; runtime := runtime p;
     ticks_per_beat := ticks_per_beat p; beats := beats p;
     instruments := instruments p; ordered_beats := ordered_beats p;
     numerator := n; denominator := d;
     tempo := tempo p; abs_time_counter := abs_time_counter p;
     max_track_len := max_track_len p; bar_size := bar_size p;
     bar_counter := bar_counter p; bpm := bpm p |}.

Definition with_tempo (t : Z) (b : float) (p : MidiProcessor) :=
  {| mid := mid p; filename := filename p; runtime := runtime p;
     ticks_per_beat := ticks_per_beat p; beats := beats p;
     instruments := instruments p; ordered_beats := ordered_beats p;
     numerator := numerator p; denominator := denominator p;
     tempo := t; abs_time_counter := abs_time_counter p;
     max_track_len := max_track_len p; bar_size := bar_size p;
     bar_counter := bar_counter p; bpm := b |}.

Definition with_abs_time_counter (c : Z) (p : MidiProcessor) :=
  {| mid := mid p; filename := filename p; runtime := runtime p;
     ticks_per_beat := ticks_per_beat p; beats := beats p;
     instruments := instruments p; ordered_beats := ordered_beats p;
     numerator := numerator p; denominator := denominator p;
     tempo := tempo p; abs_time_counter := c;
     max_track_len := max_track_len p; bar_size := bar_size p;
     bar_counter := bar_counter p; bpm := bpm p |}.

Definition with_max_track_len (m : Z) (p : MidiProcessor) :=
  {| mid := mid p; filename := filename p; runtime := runtime p;
     ticks_per_beat := ticks_per_beat p; beats := beats p;
     instruments := instruments p; ordered_beats := ordered_beats p;
     numerator := numerator p; denominator := denominator p;
     tempo := tempo p; abs_time_counter := abs_time_counter p;
     max_track_len := m; bar_size := bar_size p;
     bar_counter := bar_counter p; bpm := bpm p |}.

(** [MidiProcessor.__init__]; [m] is what [mido.midifiles.MidiFile] read
    from [midi_file_path]. *)
Definition init (m : MidiFile) (midi_file_path : string) (rt : string)
  : MidiProcessor :=
  {| mid := m;
     filename := last (py_split "/"%char midi_file_path) EmptyString;
     runtime := rt;
     ticks_per_beat := mid_ticks_per_beat m;
     beats := PyDict.empty;
     instruments := PyDict.empty;
     ordered_beats := PyDict.empty;
     numerator := 4; denominator := 4;
     tempo := 0; abs_time_counter := 0; max_track_len := 0;
     bar_size := 0; bar_counter := 0; bpm := Fin 0 |}.

(** ** [process_tracks] *)

(** The body of the inner loop: one message of one track. *)
Definition process_message (self : MidiProcessor) (message : message)
  : result MidiProcessor :=
  let self := with_abs_time_counter (abs_time_counter self + time message) self in
  match message with
  | MNoteOn m =>
      if (velocity m >? 0) && (channel m =? 9) then
        match PyDict.get Z.eqb (abs_time_counter self) (beats self) with
        | None =>
            Ok (with_beats
                  (PyDict.set Z.eqb (abs_time_counter self) [m] (beats self)) self)
        | Some at_this_tick =>
            let notes := filter (fun b => note b =? note m) at_this_tick in
            if len notes =? 0 then
              Ok (with_beats
                    (PyDict.set Z.eqb (abs_time_counter self)
                       (at_this_tick ++ [m])%list (beats self)) self)
            else Ok self
        end
      else Ok self
  | MSetTempo t _ =>
      x <- py_int_truediv 1000000 t ;;
      sixty <- py_float 60 ;;
      Ok (with_tempo t (mul x sixty) self)
  | MTimeSignature n d _ => Ok (with_signature n d self)
  | MOther _ => Ok self
  end.

(** The body of the outer loop: one track. *)
Definition process_track (self : MidiProcessor) (t : track)
  : result MidiProcessor :=
  let self := with_abs_time_counter 0 self in
  self <- foldM process_message t self ;;
  if abs_time_counter self >? max_track_len self
  then Ok (with_max_track_len (abs_time_counter self) self)
  else Ok self.

Definition process_tracks (self : MidiProcessor) : result MidiProcessor :=
  foldM process_track (mid_tracks (mid self)) self.

(** ** [setup_variables] *)

Definition setup_variables (self : MidiProcessor) : MidiProcessor :=
  with_ordered_beats (py_sorted (PyDict.items (beats self))) self.

(** ** [beats_by_instrument] *)

Definition beats_by_instrument_event (abs_beat_time : Z)
  (insts : list (string * list Z)) (single_instrument : note_on)
  : list (string * list Z) :=
  let instrument_name := py_str (note single_instrument) in
  let insts :=
    if negb (PyDict.contains String.eqb instrument_name insts)
    then PyDict.set String.eqb instrument_name [] insts
    else insts in
  match PyDict.get String.eqb instrument_name insts with
  | Some ticks =>
      PyDict.set String.eqb instrument_name (ticks ++ [abs_beat_time])%list insts
  | None => insts
  end.

Definition beats_by_instrument_beat (insts : list (string * list Z))
  (item : Z * list note_on) : list (string * list Z) :=
  fold_left (beats_by_instrument_event (fst item)) (snd item) insts.

Definition beats_by_instrument (self : MidiProcessor) : MidiProcessor :=
  with_instruments
    (fold_left beats_by_instrument_beat (PyDict.items (ordered_beats self))
       (instruments self))
    self.

(** ** Output *)

Inductive event : Type :=
| Invoked (method : string)
| Printed (text : string).

Definition IO (A : Type) : Type := list event -> result (A * list event).

Definition ret {A : Type} (a : A) : IO A := fun log => Ok (a, log).

Definition iobind {A B : Type} (m : IO A) (k : A -> IO B) : IO B :=
  fun log =>
    match m log with
    | Ok (a, log') => k a log'
    | Raise e => Raise e
    end.

Definition lift {A : Type} (r : result A) : IO A :=
  fun log =>
    match r with
    | Ok a => Ok (a, log)
    | Raise e => Raise e
    end.

Definition print (text : string) : IO unit :=
  fun log => Ok (tt, (log ++ [Printed text])%list).

(** A method call, recorded in the log before its body runs. *)
Definition invoke {A : Type} (method : string) (body : IO A) : IO A :=
  fun log => body (log ++ [Invoked method])%list.

Declare Scope io_scope.
Delimit Scope io_scope with io.
Notation "x <- m ;; k" := (iobind m (fun x => k))
  (at level 61, m at next level, right associativity) : io_scope.
Notation "' p <- m ;; k" := (iobind m (fun p => k))
  (at level 61, p pattern, m at next level, right associativity) : io_scope.

Fixpoint for_each {A : Type} (f : A -> IO unit) (l : list A) : IO unit :=
  match l with
  | [] => ret tt
  | x :: l' => (_ <- f x ;; for_each f l')%io
  end.

(** ** [count_instruments_by_beat] *)

Record ReturnData : Type := {
  mean_type : string;
  num_insts : Z;
  mean_value : float
}.

Record counters : Type := {
  inst_sum : Z;
  binary_sum : Z;
  max_instruments_at_once : Z;
  min_instruments_at_once : Z
}.

(** The body of the loop over [ordered_beats]. *)
Definition count_beat (c : counters) (item : Z * list note_on) : counters :=
  let inst_count := len (snd item) in
  {| max_instruments_at_once :=
       if inst_count >? max_instruments_at_once c
       then inst_count else max_instruments_at_once c;
     min_instruments_at_once :=
       if inst_count <? min_instruments_at_once c
       then inst_count else min_instruments_at_once c;
     binary_sum :=
       if inst_count >=? 2 then binary_sum c + 1 else binary_sum c;
     inst_sum := inst_sum c + inst_count |}.

Definition count_loop (self : MidiProcessor) : counters :=
  fold_left count_beat (PyDict.items (ordered_beats self))
    {| inst_sum := 0; binary_sum := 0;
       max_instruments_at_once := 1;
       min_instruments_at_once := len (instruments self) |}.

Definition count_instruments_by_beat (self : MidiProcessor)
  : IO (list ReturnData) :=
  (_ <- (if len (instruments self) <? 2
         then print ("LESS THAN 2 INSTRUMENTS: " ++ mid_filename (mid self))
         else ret tt) ;;
   let c := count_loop self in
   lift (a <- py_float (inst_sum c) ;;
         n <- py_float (len (ordered_beats self)) ;;
         arith_mean <- py_truediv a n ;;
         b <- py_float (binary_sum c) ;;
         n' <- py_float (len (ordered_beats self)) ;;
         ratio <- py_truediv b n' ;;
         m <- py_float (min_instruments_at_once c) ;;
         let bin_mean := add m ratio in
         Ok [ {| mean_type := "am"; num_insts := len (instruments self);
                 mean_value := arith_mean |};
              {| mean_type := "bm"; num_insts := len (instruments self);
                 mean_value := bin_mean |} ])%result)%io.

(** ** [get_tubs_placement] *)

Definition get_tubs_placement (self : MidiProcessor) (attack_time : Z)
  : result Z :=
  a <- py_float attack_time ;;
  t <- py_float (ticks_per_beat self) ;;
  slot_width <- py_truediv t (Fin 12) ;;
  q <- py_truediv a slot_width ;;
  py_ceil q.

(** ** [create_timelines] *)

(** The body of the loop over one instrument's ticks; the state is
    [(prev_tick, tubs)]. *)
Definition timeline_tick (self : MidiProcessor) (st : Z * string) (tick : Z)
  : result (Z * string) :=
  let '(prev_tick, tubs) := st in
  tubs_tick <- get_tubs_placement self tick ;;
  tubs_prev_tick <- get_tubs_placement self prev_tick ;;
  let tubs :=
    fold_left (fun s _ => s ++ ".") (py_range (tubs_prev_tick + 1) tubs_tick)
      tubs in
  let tubs :=
    if (tubs_prev_tick =? tubs_tick) && (tick >? 0) then tubs else tubs ++ "X" in
  let prev_tick := if tick =? 0 then tick + 1 else tick in
  Ok (prev_tick, tubs).

(** One instrument's line: the symbols and the two slots printed after
    them. *)
Definition timeline (self : MidiProcessor) (beats_ticks : list Z)
  : result (string * Z * Z) :=
  '(prev_tick, tubs) <- foldM (timeline_tick self) beats_ticks (0, "") ;;
  last_slot <- get_tubs_placement self prev_tick ;;
  end_slot <- get_tubs_placement self (max_track_len self) ;;
  let tubs :=
    if last_slot <? end_slot
    then fold_left (fun s _ => s ++ ".") (py_range (last_slot + 1) (end_slot + 1))
           tubs
    else tubs in
  Ok (tubs, last_slot, end_slot).

Section Instruments.

(** [PercussionDevicesEnum] lives in [percussion_devices.py]; what
    printing a member shows, or the [ValueError] for a value that is no
    member, is a parameter. *)
Variable PercussionDevicesEnum : Z -> result string.

Definition print_instrument_name (inst_id : string) : IO unit :=
  (inst_id <- lift (py_int inst_id) ;;
   if (33 <? inst_id) && (inst_id <=? 81)
   then (name <- lift (PercussionDevicesEnum inst_id) ;; print name)
   else print (py_str inst_id))%io.

Definition create_timelines_instrument (self : MidiProcessor)
  (item : string * list Z) : IO unit :=
  (_ <- print_instrument_name (fst item) ;;
   ' (tubs, last_slot, end_slot) <- lift (timeline self (snd item)) ;;
   _ <- print (tubs ++ tab ++ py_str last_slot ++ "-" ++ py_str end_slot) ;;
   print ("[Length: " ++ py_str (Z.of_nat (String.length tubs)) ++ "]"))%io.

Definition create_timelines (self : MidiProcessor) : IO unit :=
  (_ <- print (newline ++ "INSTRUMENTOS:") ;;
   for_each (create_timelines_instrument self)
     (PyDict.items (instruments self)))%io.

(** ** [format_results_for_file_writing] *)

Definition format_results_for_file_writing (self : MidiProcessor) : string :=
  ((((((((((filename self ++ two_tabs) ++ py_str (max_track_len self))
            ++ two_tabs) ++ py_str (len (instruments self)))
          ++ two_tabs) ++ py_str (numerator self))
        ++ "/") ++ py_str (denominator self))
      ++ two_tabs) ++ py_str (ticks_per_beat self))
    ++ newline.

(** ** The script

    [mido.midifiles.MidiFile] reads the file; what it returns, or raises,
    for a path is the parameter [MidiFile_read]. *)

Variable MidiFile_read : string -> result MidiFile.

(** The call [MidiProcessor(...)]: Python binds the arguments to the
    parameters of [__init__] that follow [self], here [midi_file_path]
    and [runtime], and raises [TypeError] before the body runs when their
    number is another. *)
Definition MidiProcessor_call (args : list string) : result MidiProcessor :=
  match args with
  | [midi_file_path; runtime] =>
      mid <- MidiFile_read midi_file_path ;;
      Ok (init mid midi_file_path runtime)
  | _ => Raise TypeError
  end.

(** Lines 183 to 190: the methods called on [processor]. *)
Definition run_methods (args_file : string) (processor : MidiProcessor)
  : IO MidiProcessor :=
  (processor <- invoke "process_tracks" (lift (process_tracks processor)) ;;
   if len (PyDict.keys (beats processor)) >? 0 then
     processor <- invoke "setup_variables" (ret (setup_variables processor)) ;;
     processor <- invoke "beats_by_instrument"
                    (ret (beats_by_instrument processor)) ;;
     _ <- invoke "create_timelines" (create_timelines processor) ;;
     _ <- invoke "format_results_for_file_writing"
            (ret (format_results_for_file_writing processor)) ;;
     ret processor
   else
     _ <- print ("Found no beats on file " ++ args_file ++ ".") ;;
     ret processor)%io.

(** Lines 180 to 192.  [args_file] is [args.file], [None] when the
    command line has no [-file]; [clock] holds the three readings of
    [strftime], in the order they are taken.  The arguments of the call
    on line 181 are evaluated from left to right before the call. *)
Definition main (args_file : option string) (clock : string * string * string)
  : IO unit :=
  let '(began, runtime, ended) := clock in
  (_ <- print ("Begin: " ++ began) ;;
   match args_file with
   | None => lift (Raise AttributeError)
   | Some file =>
       processor <- lift (MidiProcessor_call
                            [file; last (py_split "/"%char file) ""; runtime]) ;;
       _ <- run_methods file processor ;;
       print ("End: " ++ ended)
   end)%io.

End Instruments.

(** ** Notions the specification is phrased in *)

(** CPython's bound on the length of any list (64-bit build). *)
Definition sys_maxsize : Z := 2 ^ 63 - 1.

(** Integers up to [2^53] are binary64 values. *)
Definition max_exact_int : Z := 2 ^ 53.

(** The number of distinct instruments attacking in one beat. *)
Definition distinct_instruments (events : list note_on) : Z :=
  len (nodup Z.eq_dec (map note events)).

Definition spec_concurrency (beat_index : list (Z * list note_on)) : list Z :=
  map (fun item => distinct_instruments (snd item)) beat_index.

Definition spec_inst_sum (beat_index : list (Z * list note_on)) : Z :=
  fold_right Z.add 0 (spec_concurrency beat_index).

Definition spec_binary_sum (beat_index : list (Z * list note_on)) : Z :=
  len (filter (fun k => 2 <=? k) (spec_concurrency beat_index)).

(** The maximum of the beats' concurrency and of the seed 1. *)
Definition spec_max_concurrent (beat_index : list (Z * list note_on)) : Z :=
  fold_right Z.max 1 (spec_concurrency beat_index).

(** The minimum of the beats' concurrency and of the seed. *)
Definition spec_min_concurrent (seed : Z) (beat_index : list (Z * list note_on))
  : Z :=
  fold_right Z.min seed (spec_concurrency beat_index).

Definition spec_arithmetic_mean (beat_index : list (Z * list note_on)) : float :=
  div (of_Q (inject_Z (spec_inst_sum beat_index)))
      (of_Q (inject_Z (len beat_index))).

Definition spec_binary_mean (seed : Z) (beat_index : list (Z * list note_on))
  : float :=
  add (of_Q (inject_Z (spec_min_concurrent seed beat_index)))
      (div (of_Q (inject_Z (spec_binary_sum beat_index)))
           (of_Q (inject_Z (len beat_index)))).

(** What one beat may hold and how many beats there may be, for the
    statistics to be computed without overflow. *)
Definition sized (beat_index : list (Z * list note_on)) : Prop :=
  len beat_index <= sys_maxsize /\
  Forall (fun item => len (snd item) <= max_exact_int) beat_index.

(** No two events of one tick share a note. *)
Definition deduplicated (beat_index : list (Z * list note_on)) : Prop :=
  Forall (fun item => NoDup (map note (snd item))) beat_index.

(** [ceil(tick / (ticksPerBeat / 12))], each operation rounded to
    binary64. *)
Definition spec_quantize (ticksPerBeat tick : Z) : Z :=
  Qceiling (rne (rne (inject_Z tick)
                 / rne (rne (inject_Z ticksPerBeat) / 12))).


(** Largest tick and resolution the quantization is stated for. *)
Definition tick_bound : Z := 2 ^ 1000.

(** A track's final running tick counter: the sum of all its deltas. *)
Definition track_length (t : track) : Z := fold_right Z.add 0 (map time t).

Definition max_of (l : list Z) : Z := fold_right Z.max 0 l.

(** [s] is [l] with some elements left out, the others in the same order. *)
Inductive subseq {A : Type} : list A -> list A -> Prop :=
| subseq_nil : subseq [] []
| subseq_skip : forall x s l, subseq s l -> subseq s (x :: l)
| subseq_keep : forall x s l, subseq s l -> subseq (x :: s) (x :: l).

(** The ticks at which the instrument called [name] attacks. *)
Definition attacks_of (name : string) (item : Z * list note_on) : list Z :=
  flat_map (fun e => if String.eqb (py_str (note e)) name then [fst item] else [])
           (snd item).

Definition ticks_of (name : string) (beat_index : list (Z * list note_on))
  : list Z :=
  flat_map (attacks_of name) beat_index.

(** The timeline recorded for [name], empty when there is none. *)
Definition timeline_of (name : string) (insts : list (string * list Z))
  : list Z :=
  match PyDict.get String.eqb name insts with
  | Some ticks => ticks
  | None => []
  end.

(** The report record as the specification lays it out. *)
Definition spec_report_record (name : string)
  (maxTrackLength distinctInstrumentCount num den ticksPerBeat : Z) : string :=
  String.concat two_tabs
    [name; py_str maxTrackLength; py_str distinctInstrumentCount;
     py_str num ++ "/" ++ py_str den; py_str ticksPerBeat]
  ++ newline.

Fixpoint count_char (c : ascii) (s : string) : nat :=
  match s with
  | EmptyString => 0%nat
  | String c' s' => ((if Ascii.eqb c' c then 1 else 0) + count_char c s')%nat
  end.

(** A qualifying attack: a ['note_on'] on the percussion channel with a
    positive velocity. *)
Definition qualifying (e : note_on) : Prop := velocity e > 0 /\ channel e = 9.

Definition is_time_signature (m : message) : bool :=
  match m with
  | MTimeSignature _ _ _ => true
  | _ => false
  end.

Definition is_set_tempo (m : message) : bool :=
  match m with
  | MSetTempo _ _ => true
  | _ => false
  end.

(** A message that is no qualifying attack. *)
Definition not_an_attack (m : message) : Prop :=
  match m with
  | MNoteOn e => ~ qualifying e
  | _ => True
  end.

(** Every tempo event carries a tempo other than zero. *)
Definition tempo_ok (m : message) : Prop :=
  match m with
  | MSetTempo t _ => t <> 0
  | _ => True
  end.

(** What [process_tracks] maintains about [beats]: one entry per tick,
    each a non-empty list of qualifying attacks with distinct notes. *)
Definition beats_invariant (b : list (Z * list note_on)) : Prop :=
  NoDup (PyDict.keys b) /\
  Forall (fun item => snd item <> [] /\ Forall qualifying (snd item) /\
                      NoDup (map note (snd item))) b.

(** The fields [process_tracks] leaves alone. *)
Definition same_file (p p' : MidiProcessor) : Prop :=
  mid p' = mid p /\ filename p' = filename p /\
  ticks_per_beat p' = ticks_per_beat p /\
  instruments p' = instruments p /\ ordered_beats p' = ordered_beats p.

(** ** Scenarios *)

Definition hit (delta n : Z) : message :=
  MNoteOn {| channel := 9; note := n; velocity := 100; note_time := delta |}.

Definition file_of (ticksPerBeat : Z) (tracks : list track) : MidiFile :=
  {| mid_filename := "song.mid";
     mid_ticks_per_beat := ticksPerBeat;
     mid_tracks := tracks |}.

(** Scenario A: one instrument attacking at ticks 0, 480 and 960 of a
    track 1440 ticks long, 480 ticks to the beat. *)
Definition scenario_A_ticks : list Z := [0; 480; 960].

Definition scenario_A : MidiProcessor :=
  with_max_track_len 1440
    (with_instruments [("36", scenario_A_ticks)]
       (init (file_of 480 []) "song.mid" "")).

Definition dots (n : nat) : string :=
  String.concat "" (repeat "." n).

(** The string Scenario A expects. *)
Definition scenario_A_expected : string :=
  ("X" ++ dots 11) ++ ("X" ++ dots 11) ++ ("X" ++ dots 11).

(** The string the encoder produces. *)
Definition scenario_A_produced : string :=
  ("X" ++ dots 10) ++ ("X" ++ dots 11) ++ ("X" ++ dots 12).

(** Scenario C: beats [{0: [A], 500: [A, B]}], two distinct instruments. *)
Definition scenario_C : MidiProcessor :=
  with_instruments [("36", [0; 500]); ("38", [500])]
    (with_ordered_beats
       [(0, [NoteOn 9 36 100 0]); (500, [NoteOn 9 36 100 500; NoteOn 9 38 100 0])]
       (init (file_of 480 []) "song.mid" "")).

(** A file with two tracks, the first one the longer, no tempo and no
    time-signature event. *)
Definition two_tracks : MidiFile :=
  file_of 480 [[hit 0 36; hit 0 38; hit 0 36; MOther 700];
               [hit 100 36; MOther 20]].

(** A file without a single qualifying attack. *)
Definition silent_file : MidiFile :=
  file_of 480 [[MSetTempo 500000 0; MOther 10];
               [MNoteOn (NoteOn 0 60 100 5); MNoteOn (NoteOn 9 36 0 5)]].

(** ** Further notions *)

(** A tempo event with tempo zero. *)
Definition zero_tempo (m : message) : Prop :=
  match m with
  | MSetTempo t _ => t = 0
  | _ => False
  end.

(** The qualifying attacks of a track with the absolute ticks they fall
    on; [c] is the tick counter before the track's first message. *)
Fixpoint track_attacks (c : Z) (t : track) : list (Z * note_on) :=
  match t with
  | [] => []
  | m :: t' =>
      let c' := c + time m in
      match m with
      | MNoteOn e =>
          if (velocity e >? 0) && (channel e =? 9)
          then (c', e) :: track_attacks c' t'
          else track_attacks c' t'
      | _ => track_attacks c' t'
      end
  end.

Definition file_attacks (ts : list track) : list (Z * note_on) :=
  flat_map (track_attacks 0) ts.

(** All notes struck in a beat index, beat after beat. *)
Definition notes_of (beat_index : list (Z * list note_on)) : list Z :=
  flat_map (fun item => map note (snd item)) beat_index.

(** The slot a tick is drawn in: the encoder moves tick 0 to tick 1. *)
Definition drawn_slot (ticksPerBeat tick : Z) : Z :=
  spec_quantize ticksPerBeat (if tick =? 0 then 1 else tick).

(** The last tick the encoder has seen: the last element, tick 0 counted
    as tick 1, and 0 for no tick at all. *)
Definition last_seen (ticks : list Z) : Z :=
  fold_left (fun _ t => if t =? 0 then 1 else t) ticks 0.

(** The grid of [n] slots starting at slot [first]: a mark in the slots
    listed in [marked], a dot elsewhere. *)
Fixpoint grid_from (marked : list Z) (first : Z) (n : nat) : string :=
  match n with
  | O => EmptyString
  | S n' =>
      String (if existsb (Z.eqb first) marked then "X"%char else "."%char)
             (grid_from marked (first + 1) n')
  end.

(** Slots are numbered from 1. *)
Definition grid (marked : list Z) (n : Z) : string :=
  grid_from marked 1 (Z.to_nat n).

(** [b] holds the attacks [seen], one event for each tick and note. *)
Definition represents (seen : list (Z * note_on)) (b : list (Z * list note_on))
  : Prop :=
  (forall t e, In (t, e) seen ->
     exists events e', PyDict.get Z.eqb t b = Some events /\
                       In e' events /\ note e' = note e) /\
  (forall t events e, PyDict.get Z.eqb t b = Some events -> In e events ->
     In (t, e) seen).

(** Scenario C before the timelines are built. *)
Definition scenario_C_beats : MidiProcessor :=
  with_ordered_beats
    [(0, [NoteOn 9 36 100 0]); (500, [NoteOn 9 36 100 500; NoteOn 9 38 100 0])]
    (init (file_of 480 []) "song.mid" "").

(** The state of the encoder's loop after the ticks whose slots are
    [marked]: the grid up to the slot of [prev_tick], which is the last
    slot marked. *)
Definition drawn (ticksPerBeat : Z) (marked : list Z) (prev_tick : Z)
  (tubs : string) : Prop :=
  tubs = grid marked (spec_quantize ticksPerBeat prev_tick) /\
  Forall (fun s => 1 <= s <= spec_quantize ticksPerBeat prev_tick) marked /\
  (0 < prev_tick -> In (spec_quantize ticksPerBeat prev_tick) marked).

(** The tempo, and the time signature, of the last event that sets one,
    over the tracks in file order. *)
Definition last_tempo (ts : list track) (default : Z) : Z :=
  fold_left (fun acc m => match m with MSetTempo t _ => t | _ => acc end)
            (List.concat ts) default.

Definition last_signature (ts : list track) (default : Z * Z) : Z * Z :=
  fold_left (fun acc m => match m with MTimeSignature n d _ => (n, d) | _ => acc end)
            (List.concat ts) default.

(** [(1000000 / tempo) * 60] *)
Definition bpm_of (t : Z) : result float :=
  x <- py_int_truediv 1000000 t ;;
  sixty <- py_float 60 ;;
  Ok (mul x sixty).

(** The tempo and the beats per minute go together. *)
Definition tempo_and_bpm (p : MidiProcessor) : Prop :=
  (tempo p = 0 /\ bpm p = Fin 0) \/ bpm_of (tempo p) = Ok (bpm p).

(** A file that sets the tempo and the time signature twice, on
    different tracks. *)
Definition tempo_file : MidiFile :=
  file_of 480 [[MSetTempo 500000 0; MTimeSignature 3 4 0; hit 10 36];
               [MTimeSignature 6 8 0; MSetTempo 400000 5; MOther 20]].

(* ================================================================== *)
(** * Part II: lemmas and theorems *)
(* ================================================================== *)

(** ** Rounding to binary64 *)

Module Binary64Facts.
Local Open Scope Q_scope.

Lemma pow2_pos e : 0 < pow2 e.
Proof. unfold pow2. apply Qpower_0_lt. reflexivity. Qed.

Lemma pow2_add a b : pow2 (a + b) == pow2 a * pow2 b.
Proof. unfold pow2. apply Qpower_plus. discriminate. Qed.

Lemma pow2_le a b : (a <= b)%Z -> pow2 a <= pow2 b.
Proof. intros H. unfold pow2. apply Qpower_le_compat_l; [exact H | discriminate]. Qed.

Lemma pow2_lt a b : (a < b)%Z -> pow2 a < pow2 b.
Proof. intros H. unfold pow2. apply Qpower_lt_compat_l; [exact H | reflexivity]. Qed.

Lemma pow2_lt_inv a b : pow2 a < pow2 b -> (a < b)%Z.
Proof. intros H. apply (Qpower_lt_compat_l_inv 2); [exact H | reflexivity]. Qed.

Lemma pow2_Z n : (0 <= n)%Z -> pow2 n == inject_Z (2 ^ n).
Proof. intros H. unfold pow2. symmetry. apply (Zpower_Qpower 2 n H). Qed.

Lemma pow2_sub a b : pow2 (a - b) == pow2 a / pow2 b.
Proof.
  assert (Hb := pow2_pos b).
  assert (E : pow2 a == pow2 (a - b) * pow2 b).
  { rewrite <- pow2_add. replace (a - b + b)%Z with a by ring. reflexivity. }
  rewrite E. field. intro Hz. rewrite Hz in Hb. discriminate.
Qed.

Lemma Q_as_fraction q : q == inject_Z (Qnum q) / inject_Z (Zpos (Qden q)).
Proof.
  destruct q as [n d]. simpl. unfold Qeq, Qdiv, Qmult, Qinv, inject_Z. simpl. ring.
Qed.

Lemma ilog2_spec q : 0 < q -> pow2 (ilog2 q) <= q /\ q < pow2 (ilog2 q + 1).
Proof.
  intros Hq.
  assert (Hn : (0 < Qnum q)%Z).
  { destruct q as [n d]. unfold Qlt in Hq. simpl in *. lia. }
  assert (Hd : (0 < Zpos (Qden q))%Z) by reflexivity.
  destruct (Z.log2_spec _ Hn) as [Ha1 Ha2].
  destruct (Z.log2_spec _ Hd) as [Hb1 Hb2].
  assert (Ha0 := Z.log2_nonneg (Qnum q)).
  assert (Hb0 := Z.log2_nonneg (Zpos (Qden q))).
  set (a := Z.log2 (Qnum q)) in *. set (b := Z.log2 (Zpos (Qden q))) in *.
  assert (Ea : pow2 a <= inject_Z (Qnum q)).
  { rewrite pow2_Z by exact Ha0. rewrite <- Zle_Qle. exact Ha1. }
  assert (Ea' : inject_Z (Qnum q) < pow2 (a + 1)).
  { rewrite pow2_Z by lia. rewrite <- Zlt_Qlt. replace (a + 1)%Z with (Z.succ a) by lia. exact Ha2. }
  assert (Eb : pow2 b <= inject_Z (Zpos (Qden q))).
  { rewrite pow2_Z by exact Hb0. rewrite <- Zle_Qle. exact Hb1. }
  assert (Eb' : inject_Z (Zpos (Qden q)) < pow2 (b + 1)).
  { rewrite pow2_Z by lia. rewrite <- Zlt_Qlt. replace (b + 1)%Z with (Z.succ b) by lia. exact Hb2. }
  assert (Hfrac := Q_as_fraction q).
  assert (Dpos : 0 < inject_Z (Zpos (Qden q))) by reflexivity.
  assert (Eq1 : q * inject_Z (Zpos (Qden q)) == inject_Z (Qnum q)).
  { rewrite Hfrac at 1. field. intro Hz. rewrite Hz in Dpos. discriminate. }
  set (D := inject_Z (Zpos (Qden q))) in *. set (N := inject_Z (Qnum q)) in *.
  assert (Pb := pow2_pos b). assert (Pab := pow2_pos (a - b)).
  assert (S1 : pow2 a == pow2 (a - b) * pow2 b).
  { rewrite <- pow2_add. replace (a - b + b)%Z with a by ring. reflexivity. }
  assert (S2 : pow2 (a + 1) == pow2 (a - b + 1) * pow2 b).
  { rewrite <- pow2_add. replace (a - b + 1 + b)%Z with (a + 1)%Z by ring. reflexivity. }
  assert (S3 : pow2 a == pow2 (a - b - 1) * pow2 (b + 1)).
  { rewrite <- pow2_add. replace (a - b - 1 + (b + 1))%Z with a by ring. reflexivity. }
  assert (Pab1 := pow2_pos (a - b - 1)). assert (Pab2 := pow2_pos (a - b + 1)).
  unfold ilog2. fold a b.
  destruct (Qle_bool (pow2 (a - b)) q) eqn:E.
  - apply Qle_bool_iff in E. split; [exact E|].
    (* q * D = N < pow2 (a+1) = pow2(a-b+1) * pow2 b <= pow2 (a-b+1) * D *)
    apply (Qmult_lt_r _ _ D Dpos). rewrite Eq1.
    apply Qlt_le_trans with (pow2 (a + 1)); [exact Ea'|].
    rewrite S2. apply Qmult_le_l; assumption.
  - assert (E' : q < pow2 (a - b)).
    { apply Qnot_le_lt. intro H. apply Qle_bool_iff in H. congruence. }
    replace (a - b - 1 + 1)%Z with (a - b)%Z by ring. split; [|exact E'].
    apply (Qmult_le_r _ _ D Dpos). rewrite Eq1.
    apply Qle_trans with (pow2 a); [|exact Ea].
    rewrite S3. apply Qmult_le_l; [assumption|]. apply Qlt_le_weak. exact Eb'.
Qed.

Lemma ilog2_unique q e : pow2 e <= q -> q < pow2 (e + 1) -> ilog2 q = e.
Proof.
  intros H1 H2.
  assert (Hq : 0 < q) by (apply Qlt_le_trans with (pow2 e); [apply pow2_pos | exact H1]).
  destruct (ilog2_spec q Hq) as [L1 L2].
  assert ((ilog2 q < e + 1)%Z).
  { apply pow2_lt_inv. apply Qle_lt_trans with q; assumption. }
  assert ((e < ilog2 q + 1)%Z).
  { apply pow2_lt_inv. apply Qle_lt_trans with q; assumption. }
  lia.
Qed.

Lemma ilog2_le q1 q2 : 0 < q1 -> q1 <= q2 -> (ilog2 q1 <= ilog2 q2)%Z.
Proof.
  intros H0 H.
  destruct (ilog2_spec q1 H0) as [L1 _].
  destruct (ilog2_spec q2 (Qlt_le_trans _ _ _ H0 H)) as [_ L2].
  assert ((ilog2 q1 < ilog2 q2 + 1)%Z).
  { apply pow2_lt_inv. apply Qle_lt_trans with q1; [exact L1|].
    apply Qle_lt_trans with q2; assumption. }
  lia.
Qed.

Lemma round_half_even_Z z : round_half_even (inject_Z z) = z.
Proof.
  unfold round_half_even. rewrite Qfloor_Z.
  assert (E : (inject_Z z - inject_Z z ?= 1 # 2) = Lt).
  { apply Qlt_alt. assert (H : inject_Z z - inject_Z z == 0) by ring. rewrite H. reflexivity. }
  rewrite E. reflexivity.
Qed.

Lemma round_half_even_bounds q :
  (Qfloor q <= round_half_even q <= Qfloor q + 1)%Z.
Proof.
  unfold round_half_even.
  destruct (q - inject_Z (Qfloor q) ?= 1 # 2); [destruct (Z.even (Qfloor q))| |]; lia.
Qed.

Lemma round_half_even_le q1 q2 :
  q1 <= q2 -> (round_half_even q1 <= round_half_even q2)%Z.
Proof.
  intros H.
  assert (Hf := Qfloor_resp_le _ _ H).
  destruct (Z.eq_dec (Qfloor q1) (Qfloor q2)) as [E|NE].
  - unfold round_half_even. rewrite E.
    destruct (Qcompare_spec (q1 - inject_Z (Qfloor q2)) (1 # 2)) as [A|A|A];
      destruct (Qcompare_spec (q2 - inject_Z (Qfloor q2)) (1 # 2)) as [B|B|B];
      try destruct (Z.even (Qfloor q2)); try lia; exfalso; lra.
  - assert (B1 := round_half_even_bounds q1). assert (B2 := round_half_even_bounds q2). lia.
Qed.

Lemma round_half_even_nearest q :
  Qabs (inject_Z (round_half_even q) - q) <= 1 # 2.
Proof.
  assert (L := Qfloor_le q). assert (U := Qlt_floor q).
  rewrite inject_Z_plus in U. change (inject_Z 1) with 1 in U.
  apply Qabs_Qle_condition. unfold round_half_even.
  destruct (Qcompare_spec (q - inject_Z (Qfloor q)) (1 # 2)) as [E|E|E].
  - destruct (Z.even (Qfloor q)).
    + lra.
    + rewrite inject_Z_plus. change (inject_Z 1) with 1. lra.
  - lra.
  - rewrite inject_Z_plus. change (inject_Z 1) with 1. lra.
Qed.

Lemma round_half_even_ge_Z z q : inject_Z z <= q -> (z <= round_half_even q)%Z.
Proof. intros H. rewrite <- (round_half_even_Z z). apply round_half_even_le, H. Qed.

Lemma round_half_even_le_Z z q : q <= inject_Z z -> (round_half_even q <= z)%Z.
Proof. intros H. rewrite <- (round_half_even_Z z). apply round_half_even_le, H. Qed.

Lemma Qdiv_pow2_le q1 q2 e : q1 <= q2 -> q1 / pow2 e <= q2 / pow2 e.
Proof.
  intros H. unfold Qdiv. apply Qmult_le_compat_r; [exact H|].
  apply Qlt_le_weak, Qinv_lt_0_compat, pow2_pos.
Qed.

Lemma pow2_ratio_Z k e : (e <= k)%Z -> pow2 k / pow2 e == inject_Z (2 ^ (k - e)).
Proof. intros H. rewrite <- pow2_sub. apply pow2_Z. lia. Qed.

Lemma pow2_neq0 e : ~ pow2 e == 0.
Proof. intro H. assert (P := pow2_pos e). rewrite H in P. discriminate. Qed.

(** A power of two on the grid of [q] that bounds [q] also bounds its
    rounding. *)
Lemma rne_pos_le_pow2 q k :
  (fexp (ilog2 q) <= k)%Z -> q <= pow2 k -> rne_pos q <= pow2 k.
Proof.
  intros Hk Hq. unfold rne_pos. set (e := fexp (ilog2 q)) in *.
  assert (P := pow2_pos e).
  assert (E : pow2 k == inject_Z (2 ^ (k - e)) * pow2 e).
  { rewrite <- (pow2_ratio_Z k e Hk). field. apply pow2_neq0. }
  rewrite E. apply Qmult_le_compat_r; [|apply Qlt_le_weak, P].
  rewrite <- Zle_Qle. apply round_half_even_le_Z.
  rewrite <- (pow2_ratio_Z k e Hk). apply Qdiv_pow2_le, Hq.
Qed.

Lemma rne_pos_ge_pow2 q k :
  (fexp (ilog2 q) <= k)%Z -> pow2 k <= q -> pow2 k <= rne_pos q.
Proof.
  intros Hk Hq. unfold rne_pos. set (e := fexp (ilog2 q)) in *.
  assert (P := pow2_pos e).
  assert (E : pow2 k == inject_Z (2 ^ (k - e)) * pow2 e).
  { rewrite <- (pow2_ratio_Z k e Hk). field. apply pow2_neq0. }
  rewrite E. apply Qmult_le_compat_r; [|apply Qlt_le_weak, P].
  rewrite <- Zle_Qle. apply round_half_even_ge_Z.
  rewrite <- (pow2_ratio_Z k e Hk). apply Qdiv_pow2_le, Hq.
Qed.

Lemma rne_pos_nonneg q : 0 < q -> 0 <= rne_pos q.
Proof.
  intros Hq. unfold rne_pos.
  assert (P := pow2_pos (fexp (ilog2 q))).
  apply Qmult_le_0_compat; [|apply Qlt_le_weak, P].
  change 0 with (inject_Z 0). rewrite <- Zle_Qle. apply round_half_even_ge_Z.
  change (inject_Z 0) with 0. apply Qlt_le_weak.
  apply Qlt_shift_div_l; [exact P|]. lra.
Qed.

Lemma rne_pos_le q1 q2 : 0 < q1 -> q1 <= q2 -> rne_pos q1 <= rne_pos q2.
Proof.
  intros H0 H.
  assert (H0' : 0 < q2) by (apply Qlt_le_trans with q1; assumption).
  assert (Hl := ilog2_le q1 q2 H0 H).
  destruct (ilog2_spec q1 H0) as [A1 A2]. destruct (ilog2_spec q2 H0') as [B1 B2].
  destruct (Z.eq_dec (fexp (ilog2 q1)) (fexp (ilog2 q2))) as [E|NE].
  - unfold rne_pos. rewrite E.
    apply Qmult_le_compat_r; [|apply Qlt_le_weak, pow2_pos].
    rewrite <- Zle_Qle. apply round_half_even_le, Qdiv_pow2_le, H.
  - assert (Hlt : (ilog2 q1 < ilog2 q2)%Z).
    { destruct (Z.eq_dec (ilog2 q1) (ilog2 q2)) as [E'|]; [rewrite E' in NE; congruence | lia]. }
    assert (F2 : (fexp (ilog2 q2) <= ilog2 q2)%Z).
    { unfold fexp, prec in *. lia. }
    assert (F1 : (fexp (ilog2 q1) <= ilog2 q2)%Z).
    { unfold fexp, prec in *. lia. }
    apply Qle_trans with (pow2 (ilog2 q2)).
    + apply rne_pos_le_pow2; [exact F1|].
      apply Qle_trans with (pow2 (ilog2 q1 + 1)); [apply Qlt_le_weak, A2|].
      apply pow2_le. lia.
    + apply rne_pos_ge_pow2; assumption.
Qed.

(** The rounded value is a multiple of the unit in the last place of the
    binade of [q], at most half a unit away from [q]. *)
Lemma rne_pos_nearest q :
  0 < q ->
  let u := pow2 (fexp (ilog2 q)) in
  rne_pos q == inject_Z (round_half_even (q / u)) * u /\
  Qabs (rne_pos q - q) <= u * (1 # 2).
Proof.
  intros Hq u. split; [reflexivity|].
  unfold rne_pos. fold u. assert (P : 0 < u) by apply pow2_pos.
  assert (N := round_half_even_nearest (q / u)).
  assert (E : inject_Z (round_half_even (q / u)) * u - q
              == (inject_Z (round_half_even (q / u)) - q / u) * u).
  { field. intro Z. rewrite Z in P. discriminate. }
  rewrite E, Qabs_Qmult, (Qabs_pos u) by lra.
  rewrite (Qmult_comm u). apply Qmult_le_compat_r; [exact N | lra].
Qed.

Lemma rne_0 : rne 0 = 0.
Proof. reflexivity. Qed.

Lemma rne_pos_eq q : 0 < q -> rne q = rne_pos q.
Proof. intros H. unfold rne. destruct (Qcompare_spec q 0); [lra | lra | reflexivity]. Qed.

Lemma rne_neg_eq q : q < 0 -> rne q = - rne_pos (- q).
Proof. intros H. unfold rne. destruct (Qcompare_spec q 0); [lra | reflexivity | lra]. Qed.

Lemma rne_zero_eq q : q == 0 -> rne q = 0.
Proof. intros H. unfold rne. destruct (Qcompare_spec q 0); [reflexivity | lra | lra]. Qed.

Lemma rne_nonneg q : 0 <= q -> 0 <= rne q.
Proof.
  intros H. destruct (Qcompare_spec q 0) as [E|L|G].
  - rewrite (rne_zero_eq q E). lra.
  - lra.
  - rewrite (rne_pos_eq q G). apply rne_pos_nonneg, G.
Qed.

Lemma rne_nonpos q : q <= 0 -> rne q <= 0.
Proof.
  intros H. destruct (Qcompare_spec q 0) as [E|L|G].
  - rewrite (rne_zero_eq q E). lra.
  - rewrite (rne_neg_eq q L). assert (0 <= rne_pos (- q)) by (apply rne_pos_nonneg; lra). lra.
  - lra.
Qed.

(** Rounding to nearest is monotone. *)
Lemma rne_le q1 q2 : q1 <= q2 -> rne q1 <= rne q2.
Proof.
  intros H.
  destruct (Qlt_le_dec 0 q1) as [P1|N1].
  - rewrite (rne_pos_eq q1 P1), (rne_pos_eq q2) by lra. apply rne_pos_le; assumption.
  - destruct (Qlt_le_dec q2 0) as [N2|P2].
    + rewrite (rne_neg_eq q1), (rne_neg_eq q2) by lra.
      apply Qopp_le_compat. apply rne_pos_le; lra.
    + apply Qle_trans with 0; [apply rne_nonpos, N1 | apply rne_nonneg, P2].
Qed.


Lemma round_half_even_comp q1 q2 :
  q1 == q2 -> round_half_even q1 = round_half_even q2.
Proof.
  intros E. apply Z.le_antisymm; apply round_half_even_le; rewrite E; apply Qle_refl.
Qed.

Lemma rne_comp q1 q2 : q1 == q2 -> rne q1 == rne q2.
Proof.
  intros E. apply Qle_antisym; apply rne_le; rewrite E; apply Qle_refl.
Qed.

Lemma ilog2_pow2 k : ilog2 (pow2 k) = k.
Proof. apply ilog2_unique; [apply Qle_refl | apply pow2_lt; lia]. Qed.

Lemma fexp_ilog2_le q k : 0 < q -> q <= pow2 k -> (emin <= k)%Z ->
  (fexp (ilog2 q) <= k)%Z.
Proof.
  intros H0 H Hk.
  assert (L := ilog2_le q (pow2 k) H0 H). rewrite ilog2_pow2 in L.
  unfold fexp, prec. lia.
Qed.

Lemma rne_le_pow2 q k : (emin <= k)%Z -> 0 <= q -> q <= pow2 k -> rne q <= pow2 k.
Proof.
  intros Hk H0 H. destruct (Qcompare_spec q 0) as [E|L|G].
  - rewrite (rne_zero_eq q E). apply Qlt_le_weak, pow2_pos.
  - lra.
  - rewrite (rne_pos_eq q G). apply rne_pos_le_pow2; [|exact H].
    apply fexp_ilog2_le; assumption.
Qed.

Lemma rne_ge_pow2 q k : (emin <= k)%Z -> pow2 k <= q -> pow2 k <= rne q.
Proof.
  intros Hk H.
  assert (P := pow2_pos k).
  assert (G : 0 < q) by lra.
  rewrite (rne_pos_eq q G).
  destruct (ilog2_spec q G) as [A _].
  assert (L := ilog2_le (pow2 k) q P H). rewrite ilog2_pow2 in L.
  apply Qle_trans with (pow2 (ilog2 q)); [apply pow2_le, L|].
  apply rne_pos_ge_pow2; [|exact A]. unfold fexp, prec. lia.
Qed.

(** A value on the grid of its own binade is left alone. *)
Lemma rne_pos_on_grid q z :
  q == inject_Z z * pow2 (fexp (ilog2 q)) -> rne_pos q == q.
Proof.
  intros E. unfold rne_pos. set (u := pow2 (fexp (ilog2 q))) in *.
  assert (N : ~ u == 0) by apply pow2_neq0.
  assert (D : q / u == inject_Z z) by (rewrite E; field; exact N).
  rewrite (round_half_even_comp _ _ D), round_half_even_Z. symmetry. exact E.
Qed.

Lemma rne_Z_exact n :
  (0 <= n <= max_exact_int)%Z -> rne (inject_Z n) == inject_Z n.
Proof.
  intros [H0 H1].
  destruct (Z.eq_dec n 0) as [->|NZ]; [reflexivity|].
  assert (G : 0 < inject_Z n) by (change 0 with (inject_Z 0); rewrite <- Zlt_Qlt; lia).
  destruct (Z.eq_dec n max_exact_int) as [->|NM].
  - assert (E : inject_Z max_exact_int == pow2 53).
    { rewrite pow2_Z by lia. reflexivity. }
    apply Qle_antisym.
    + rewrite E at 2. apply rne_le_pow2; [unfold emin, emax, prec; lia | lra | rewrite E; apply Qle_refl].
    + rewrite E at 1. apply rne_ge_pow2; [unfold emin, emax, prec; lia | rewrite E; apply Qle_refl].
  - rewrite (rne_pos_eq _ G).
    destruct (ilog2_spec _ G) as [A _].
    assert (L : (ilog2 (inject_Z n) < 53)%Z).
    { apply pow2_lt_inv. apply Qle_lt_trans with (inject_Z n); [exact A|].
      rewrite (pow2_Z 53) by lia. rewrite <- Zlt_Qlt. unfold max_exact_int in *. lia. }
    set (e := fexp (ilog2 (inject_Z n))).
    assert (Le : (e <= 0)%Z).
    { unfold e, fexp, emin, emax, prec. lia. }
    apply (rne_pos_on_grid _ (n * 2 ^ (- e))). fold e.
    rewrite inject_Z_mult, <- (pow2_Z (- e)) by lia.
    rewrite <- Qmult_assoc, <- pow2_add.
    replace (- e + e)%Z with 0%Z by ring. unfold pow2. simpl. ring.
Qed.

Lemma Qred_inject_Z n : Qred (inject_Z n) = inject_Z n.
Proof. apply Qred_identity. simpl. apply Z.gcd_1_r. Qed.

Lemma of_Q_fin q k :
  0 <= q -> q <= pow2 k -> (emin <= k < emax)%Z -> of_Q q = Fin (Qred (rne q)).
Proof.
  intros H0 H [Hk1 Hk2]. unfold of_Q.
  destruct (Qle_bool (pow2 emax) (Qabs (Qred (rne q)))) eqn:E; [|reflexivity].
  exfalso. apply Qle_bool_iff in E.
  rewrite Qred_correct in E.
  assert (R0 := rne_nonneg q H0).
  rewrite Qabs_pos in E by exact R0.
  assert (R1 := rne_le_pow2 q k Hk1 H0 H).
  assert (P := pow2_lt k emax Hk2). lra.
Qed.

Lemma of_Q_Z_exact n :
  (0 <= n <= max_exact_int)%Z -> of_Q (inject_Z n) = Fin (inject_Z n).
Proof.
  intros H.
  assert (E := rne_Z_exact n H).
  rewrite (of_Q_fin _ 53).
  - f_equal. rewrite (Qred_complete _ _ E). apply Qred_inject_Z.
  - change 0 with (inject_Z 0). rewrite <- Zle_Qle. lia.
  - rewrite pow2_Z by lia. rewrite <- Zle_Qle. unfold max_exact_int in H. lia.
  - unfold emin, emax, prec. lia.
Qed.

End Binary64Facts.

Import Binary64Facts.

(** ** Quantization: [get_tubs_placement] *)

Lemma py_float_fin n :
  0 <= n <= tick_bound ->
  py_float n = Ok (Fin (Qred (rne (inject_Z n)))).
Proof.
  intros [H0 H1]. unfold py_float. rewrite (of_Q_fin _ 1000); [reflexivity | | |].
  - change 0%Q with (inject_Z 0). rewrite <- Zle_Qle. exact H0.
  - rewrite pow2_Z by lia. rewrite <- Zle_Qle. exact H1.
  - unfold emin, emax, prec. lia.
Qed.

Lemma rne_Z_bounds n :
  0 <= n <= tick_bound ->
  (0 <= rne (inject_Z n) /\ rne (inject_Z n) <= pow2 1000)%Q.
Proof.
  intros [H0 H1].
  assert (A : (0 <= inject_Z n)%Q) by (change 0%Q with (inject_Z 0); rewrite <- Zle_Qle; exact H0).
  split; [apply rne_nonneg, A|].
  apply rne_le_pow2; [unfold emin, emax, prec; lia | exact A |].
  rewrite pow2_Z by lia. rewrite <- Zle_Qle. exact H1.
Qed.

Lemma rne_Z_ge_1 n : 1 <= n -> (1 <= rne (inject_Z n))%Q.
Proof.
  intros H. change 1%Q with (pow2 0).
  apply rne_ge_pow2; [unfold emin, emax, prec; lia|].
  change (pow2 0) with (inject_Z 1). rewrite <- Zle_Qle. exact H.
Qed.

Lemma Qdiv_12 x : (x / 12 == x * (1 # 12))%Q.
Proof. reflexivity. Qed.

(** The slot width [float(ticks_per_beat) / 12.0] is a positive finite
    float. *)
Lemma slot_width_bounds tpb :
  0 < tpb <= tick_bound ->
  let w := rne (rne (inject_Z tpb) / 12) in
  (pow2 (-4) <= w /\ w <= pow2 1000)%Q.
Proof.
  intros [H0 H1] w.
  assert (B := rne_Z_bounds tpb ltac:(lia)). destruct B as [_ B1].
  assert (B0 := rne_Z_ge_1 tpb ltac:(lia)).
  split; unfold w.
  - apply rne_ge_pow2; [unfold emin, emax, prec; lia|].
    change (pow2 (-4)) with (1 # 16)%Q. rewrite Qdiv_12. lra.
  - apply rne_le_pow2; [unfold emin, emax, prec; lia | |]; rewrite Qdiv_12; lra.
Qed.

Lemma Qeq_bool_false_pos q : (0 < q)%Q -> Qeq_bool q 0 = false.
Proof.
  intros H. destruct (Qeq_bool q 0) eqn:E; [|reflexivity].
  apply Qeq_bool_iff in E. rewrite E in H. discriminate.
Qed.

Lemma get_tubs_placement_spec self tick :
  0 < ticks_per_beat self <= tick_bound ->
  0 <= tick <= tick_bound ->
  get_tubs_placement self tick = Ok (spec_quantize (ticks_per_beat self) tick).
Proof.
  intros Htpb Htick.
  assert (W := slot_width_bounds _ Htpb). cbv zeta in W. destruct W as [W0 W1].
  assert (T := rne_Z_bounds (ticks_per_beat self) ltac:(lia)). destruct T as [T0 T1].
  assert (T2 := rne_Z_ge_1 (ticks_per_beat self) ltac:(lia)).
  assert (A := rne_Z_bounds tick Htick). destruct A as [A0 A1].
  assert (P4 : (pow2 (-4) == 1 # 16)%Q) by reflexivity.
  unfold get_tubs_placement.
  rewrite (py_float_fin tick Htick). cbn [bind].
  rewrite (py_float_fin (ticks_per_beat self)) by lia. cbn [bind].
  set (a := rne (inject_Z tick)) in *.
  set (t := rne (inject_Z (ticks_per_beat self))) in *.
  unfold py_truediv at 1. cbn [is_zero].
  change (Qeq_bool 12 0) with false. cbv iota.
  unfold div at 1. change (Qeq_bool 12 0) with false. cbv iota.
  assert (E1 : (rne (Qred t / 12) == rne (t / 12))%Q).
  { apply rne_comp. rewrite Qred_correct. reflexivity. }
  rewrite (of_Q_fin _ 1000).
  2:{ rewrite Qred_correct, Qdiv_12. lra. }
  2:{ rewrite Qred_correct, Qdiv_12. lra. }
  2:{ unfold emin, emax, prec. lia. }
  cbn [bind].
  set (w := Qred (rne (Qred t / 12))).
  assert (Ew : (w == rne (t / 12))%Q) by (unfold w; rewrite Qred_correct; exact E1).
  assert (Wpos : (0 < w)%Q) by (rewrite Ew; lra).
  unfold py_truediv. cbn [is_zero]. rewrite (Qeq_bool_false_pos w Wpos).
  unfold div. rewrite (Qeq_bool_false_pos w Wpos).
  assert (Eq : (Qred a / w == a / rne (t / 12))%Q).
  { rewrite Qred_correct, Ew. reflexivity. }
  assert (Qnn : (0 <= a / rne (t / 12))%Q).
  { apply Qle_shift_div_l; lra. }
  assert (Qub : (a / rne (t / 12) <= pow2 1004)%Q).
  { apply Qle_shift_div_r; [lra|].
    assert (S : (pow2 1004 == pow2 1000 * pow2 4)%Q) by (rewrite <- pow2_add; reflexivity).
    assert (P : (pow2 4 == 16)%Q) by reflexivity.
    rewrite S, P. nra. }
  rewrite (of_Q_fin _ 1004).
  2:{ rewrite Eq. exact Qnn. }
  2:{ rewrite Eq. exact Qub. }
  2:{ unfold emin, emax, prec. lia. }
  cbn [bind py_ceil]. f_equal. unfold spec_quantize. fold a t.
  apply Qceiling_comp. rewrite Qred_correct. apply rne_comp. exact Eq.
Qed.

Lemma slot_width_ge tpb :
  0 < tpb -> (pow2 (-4) <= rne (rne (inject_Z tpb) / 12))%Q.
Proof.
  intros H0.
  assert (B0 := rne_Z_ge_1 tpb ltac:(lia)).
  apply rne_ge_pow2; [unfold emin, emax, prec; lia|].
  change (pow2 (-4)) with (1 # 16)%Q. rewrite Qdiv_12. lra.
Qed.

Lemma spec_quantize_le tpb t1 t2 :
  0 < tpb -> t1 <= t2 ->
  spec_quantize tpb t1 <= spec_quantize tpb t2.
Proof.
  intros Htpb H. unfold spec_quantize.
  assert (W0 := slot_width_ge _ Htpb).
  assert (P4 : (pow2 (-4) == 1 # 16)%Q) by reflexivity.
  apply Qceiling_resp_le, rne_le.
  apply Qmult_le_compat_r.
  - apply rne_le. rewrite <- Zle_Qle. exact H.
  - apply Qlt_le_weak, Qinv_lt_0_compat. lra.
Qed.

Lemma spec_quantize_0 tpb : spec_quantize tpb 0 = 0.
Proof.
  unfold spec_quantize.
  assert (E : (rne (rne (inject_Z 0) / rne (rne (inject_Z tpb) / 12)) == 0)%Q).
  { change (rne (inject_Z 0)) with 0%Q. apply Qeq_alt.
    rewrite rne_zero_eq; [reflexivity|]. unfold Qdiv. ring. }
  rewrite (Qceiling_comp _ _ E). reflexivity.
Qed.




(** ** The TUBS encoder on Scenario A *)

Lemma scenario_A_timeline :
  timeline scenario_A scenario_A_ticks = Ok (scenario_A_produced, 24, 36).
Proof. vm_compute. reflexivity. Qed.

(** C1, as stated, fails: on Scenario A the encoder does not produce
    ["X" + 11 dots] three times with the range 0-36. *)
Lemma scenario_A_not_as_expected :
  exists tubs last_slot end_slot,
    timeline scenario_A scenario_A_ticks = Ok (tubs, last_slot, end_slot) /\
    tubs <> scenario_A_expected /\ last_slot <> 0.
Proof.
  exists scenario_A_produced, 24, 36. split; [exact scenario_A_timeline|].
  split; [vm_compute|]; discriminate.
Qed.

(** C1, amended.  On Scenario A the encoder produces ["X"], 10 dots, ["X"],
    11 dots, ["X"], 12 dots (36 symbols: the attack at tick 0 occupies slot
    1, the later ones slots 12 and 24) and [create_timelines] prints that
    string followed by the range [24-36], the slot of the last attack and
    the slot of the track's end. *)
Theorem create_timelines_scenario_A (PercussionDevicesEnum : Z -> result string)
  (name : string) :
  PercussionDevicesEnum 36 = Ok name ->
  timeline scenario_A scenario_A_ticks = Ok (scenario_A_produced, 24, 36) /\
  String.length scenario_A_produced = 36%nat /\
  create_timelines PercussionDevicesEnum scenario_A []
  = Ok (tt, [Printed (newline ++ "INSTRUMENTOS:");
             Printed name;
             Printed (scenario_A_produced ++ tab ++ "24-36");
             Printed "[Length: 36]"]).
Proof.
  intros Hname. split; [exact scenario_A_timeline|]. split; [reflexivity|].
  unfold create_timelines, iobind, print. cbn [app].
  change (PyDict.items (instruments scenario_A)) with [("36", scenario_A_ticks)].
  cbn [for_each]. unfold create_timelines_instrument, iobind. cbn [fst snd].
  unfold print_instrument_name, iobind, lift.
  change (py_int "36") with (@Ok Z 36).
  change ((33 <? 36) && (36 <=? 81)) with true. cbv iota.
  rewrite Hname. unfold print. cbn [app].
  rewrite scenario_A_timeline. unfold ret. reflexivity.
Qed.

Lemma create_timelines_scenario_A_witness :
  timeline scenario_A scenario_A_ticks = Ok (scenario_A_produced, 24, 36) /\
  String.length scenario_A_produced = 36%nat /\
  create_timelines (fun n => Ok ("PercussionDevicesEnum." ++ py_str n)) scenario_A []
  = Ok (tt, [Printed (newline ++ "INSTRUMENTOS:");
             Printed "PercussionDevicesEnum.36";
             Printed (scenario_A_produced ++ tab ++ "24-36");
             Printed "[Length: 36]"]).
Proof.
  apply (create_timelines_scenario_A
           (fun n => Ok ("PercussionDevicesEnum." ++ py_str n))
           "PercussionDevicesEnum.36").
  reflexivity.
Defined.

(** ** Dictionaries *)

Module PyDictFacts.
Section Facts.
Context {K V : Type}.
Variable eqb : K -> K -> bool.
Hypothesis eqb_eq : forall a b, eqb a b = true <-> a = b.

Local Abbreviation get := (PyDict.get (V := V) eqb).
Local Abbreviation set := (PyDict.set (V := V) eqb).
Local Abbreviation keys := (@PyDict.keys K V).

Lemma eqb_refl k : eqb k k = true.
Proof. apply eqb_eq. reflexivity. Qed.

Lemma eqb_neq a b : a <> b -> eqb a b = false.
Proof.
  intros N. destruct (eqb a b) eqn:E; [|reflexivity].
  apply eqb_eq in E. contradiction.
Qed.

Lemma get_In k v (d : list (K * V)) : get k d = Some v -> In (k, v) d.
Proof.
  induction d as [|[k' v'] d IH]; simpl; [discriminate|].
  destruct (eqb k' k) eqn:E.
  - apply eqb_eq in E. intros [= ->]. left. congruence.
  - intros H. right. apply IH, H.
Qed.

Lemma get_None k (d : list (K * V)) : get k d = None <-> ~ In k (keys d).
Proof.
  induction d as [|[k' v'] d IH]; simpl.
  - split; [intros _ []|reflexivity].
  - destruct (eqb k' k) eqn:E.
    + apply eqb_eq in E. split; [discriminate|]. intros N. exfalso. apply N. left. exact E.
    + rewrite IH. split.
      * intros N [H|H]; [|exact (N H)]. apply eqb_eq in H. congruence.
      * intros N H. apply N. right. exact H.
Qed.

Lemma In_get k v (d : list (K * V)) :
  NoDup (keys d) -> In (k, v) d -> get k d = Some v.
Proof.
  induction d as [|[k' v'] d IH]; simpl; [intros _ []|].
  intros ND [H|H].
  - injection H as -> ->. rewrite eqb_refl. reflexivity.
  - inversion ND as [|? ? Hn ND']; subst.
    destruct (eqb k' k) eqn:E.
    + apply eqb_eq in E. subst k'. exfalso. apply Hn.
      apply (in_map fst) in H. exact H.
    + apply IH; assumption.
Qed.

Lemma set_absent k v (d : list (K * V)) :
  get k d = None -> set k v d = (d ++ [(k, v)])%list.
Proof.
  induction d as [|[k' v'] d IH]; simpl; [reflexivity|].
  destruct (eqb k' k); [discriminate|]. intros H. rewrite (IH H). reflexivity.
Qed.

Lemma keys_set_present k v v0 (d : list (K * V)) :
  get k d = Some v0 -> keys (set k v d) = keys d.
Proof.
  induction d as [|[k' v'] d IH]; simpl; [discriminate|].
  destruct (eqb k' k); [reflexivity|]. intros H. simpl. rewrite (IH H). reflexivity.
Qed.

Lemma get_set_same k v (d : list (K * V)) : get k (set k v d) = Some v.
Proof.
  induction d as [|[k' v'] d IH]; simpl.
  - rewrite eqb_refl. reflexivity.
  - destruct (eqb k' k) eqn:E; simpl; rewrite E; [reflexivity | exact IH].
Qed.

Lemma get_set_other k k' v (d : list (K * V)) :
  k' <> k -> get k' (set k v d) = get k' d.
Proof.
  intros N. induction d as [|[k0 v0] d IH]; simpl.
  - rewrite eqb_neq; [reflexivity | congruence].
  - destruct (eqb k0 k) eqn:E; simpl.
    + apply eqb_eq in E. subst k0. rewrite eqb_neq; [reflexivity | congruence].
    + rewrite IH. reflexivity.
Qed.

Lemma In_set_inv k v k' v' (d : list (K * V)) :
  In (k', v') (set k v d) -> (k' = k /\ v' = v) \/ In (k', v') d.
Proof.
  induction d as [|[k0 v0] d IH]; simpl.
  - intros [[= <- <-]|[]]. left. split; reflexivity.
  - destruct (eqb k0 k) eqn:E; simpl.
    + apply eqb_eq in E. subst k0. intros [[= <- <-]|H]; [left; split; reflexivity|].
      right. right. exact H.
    + intros [H|H]; [right; left; exact H|].
      destruct (IH H) as [H'|H']; [left; exact H' | right; right; exact H'].
Qed.

Lemma NoDup_snoc {A : Type} (x : A) (l : list A) :
  NoDup l -> ~ In x l -> NoDup (l ++ [x]).
Proof.
  induction l as [|y l IH]; simpl; intros ND N.
  - constructor; [intros [] | constructor].
  - inversion ND as [|? ? Hn ND']; subst. constructor.
    + rewrite in_app_iff. simpl. intros [H|[H|[]]]; [exact (Hn H)|]. apply N. left. symmetry. exact H.
    + apply IH; [exact ND'|]. intro H. apply N. right. exact H.
Qed.

Lemma NoDup_keys_set k v (d : list (K * V)) :
  NoDup (keys d) -> NoDup (keys (set k v d)).
Proof.
  intros ND. destruct (get k d) as [v0|] eqn:G.
  - rewrite (keys_set_present k v v0 d G). exact ND.
  - rewrite (set_absent k v d G). unfold PyDict.keys. rewrite map_app. simpl.
    apply NoDup_snoc; [exact ND|]. apply get_None, G.
Qed.

Lemma Forall_set (Q : K * V -> Prop) k v (d : list (K * V)) :
  Forall Q d -> Q (k, v) -> Forall Q (set k v d).
Proof.
  intros F Hq. induction F as [|[k0 v0] d H0 F IH]; simpl.
  - constructor; [exact Hq | constructor].
  - destruct (eqb k0 k) eqn:E.
    + apply eqb_eq in E. subst k0. constructor; assumption.
    + constructor; assumption.
Qed.
End Facts.
End PyDictFacts.

(** ** The event scanner: [process_tracks] *)

Lemma foldM_invariant {A S : Type} (P : S -> Prop) (f : S -> A -> result S)
  (l : list A) :
  (forall s x s', In x l -> P s -> f s x = Ok s' -> P s') ->
  forall s s', P s -> foldM f l s = Ok s' -> P s'.
Proof.
  induction l as [|x l IH]; intros Hf s s' Hs; simpl.
  - intros [= <-]. exact Hs.
  - destruct (f s x) as [s1|] eqn:E; simpl; [|discriminate].
    apply IH.
    + intros s0 y s0' Hy. apply Hf. right. exact Hy.
    + apply (Hf s x s1); [left; reflexivity | exact Hs | exact E].
Qed.

Lemma foldM_total {A S : Type} (f : S -> A -> result S) (l : list A) :
  (forall s x, In x l -> exists s', f s x = Ok s') ->
  forall s, exists s', foldM f l s = Ok s'.
Proof.
  induction l as [|x l IH]; intros Hf s; simpl.
  - exists s. reflexivity.
  - destruct (Hf s x (or_introl eq_refl)) as [s1 E]. rewrite E. simpl.
    apply IH. intros s0 y Hy. apply Hf. right. exact Hy.
Qed.

(** Every outcome of [process_message]: what it does to the fields other
    than [beats]. *)
Ltac process_message_cases H :=
  unfold process_message in H;
  match type of H with
  | context [match ?m with MNoteOn _ => _ | _ => _ end] => destruct m
  end;
  cbv zeta in H;
  cbn [abs_time_counter with_abs_time_counter beats] in H;
  repeat match type of H with
    | context [if ?c then _ else _] => destruct c eqn:?
    | context [match PyDict.get Z.eqb ?k ?b with Some _ => _ | None => _ end] =>
        destruct (PyDict.get Z.eqb k b) eqn:?
    | context [bind ?r _] => destruct r eqn:?; [|discriminate H]; cbn [bind] in H
    end;
  injection H as <-.

Lemma process_message_counters p m p' :
  process_message p m = Ok p' ->
  abs_time_counter p' = abs_time_counter p + time m /\
  max_track_len p' = max_track_len p.
Proof. intros H. process_message_cases H; split; reflexivity. Qed.

Lemma process_message_same_file p m p' :
  process_message p m = Ok p' -> same_file p p'.
Proof. intros H. process_message_cases H; repeat split; reflexivity. Qed.

Lemma process_message_signature p m p' :
  process_message p m = Ok p' -> is_time_signature m = false ->
  numerator p' = numerator p /\ denominator p' = denominator p.
Proof.
  intros H N. process_message_cases H; try discriminate N; split; reflexivity.
Qed.

Lemma process_message_tempo p m p' :
  process_message p m = Ok p' -> is_set_tempo m = false -> tempo p' = tempo p.
Proof.
  intros H N. process_message_cases H; try discriminate N; reflexivity.
Qed.

Lemma filter_nil_not_In {A : Type} (f : A -> bool) (l : list A) :
  (len (filter f l) =? 0) = true -> forall x, In x l -> f x = false.
Proof.
  intros H x Hx. destruct (f x) eqn:E; [|reflexivity].
  assert (I : In x (filter f l)) by (apply filter_In; split; assumption).
  unfold len in H. apply Z.eqb_eq in H.
  destruct (filter f l); [destruct I | simpl in H; lia].
Qed.

Lemma process_message_beats p m p' :
  process_message p m = Ok p' ->
  beats_invariant (beats p) -> beats_invariant (beats p').
Proof.
  intros H [ND F]. process_message_cases H; cbn [beats with_beats with_tempo with_signature with_abs_time_counter];
    try (split; assumption).
  - (* a further note at a tick that has an entry *)
    match goal with G : PyDict.get _ ?k _ = Some _ |- _ =>
      pose proof (PyDictFacts.get_In Z.eqb Z.eqb_eq _ _ _ G) as I end.
    rewrite Forall_forall in F. destruct (F _ I) as (NE & Q & NDn). cbn [snd] in *.
    match goal with G : (_ && _) = true |- _ => apply andb_true_iff in G; destruct G as [Hv Hc] end.
    split.
    + apply PyDictFacts.NoDup_keys_set; [exact Z.eqb_eq | exact ND].
    + apply PyDictFacts.Forall_set; [exact Z.eqb_eq | apply Forall_forall; exact F |].
      cbn [snd]. split; [|split].
      * intro E. apply app_eq_nil in E. destruct E as [_ E]. discriminate E.
      * apply Forall_app. split; [exact Q|]. constructor; [|constructor].
        split; [apply Z.gtb_lt in Hv; lia | apply Z.eqb_eq, Hc].
      * rewrite map_app. cbn [map]. apply PyDictFacts.NoDup_snoc; [exact NDn|].
        intros Hin. apply in_map_iff in Hin. destruct Hin as (b & Eb & Hb).
        match goal with G : (len (filter ?f _) =? 0) = true |- _ =>
          pose proof (filter_nil_not_In f _ G b Hb) as Fb end.
        cbn beta in Fb. apply Z.eqb_neq in Fb. congruence.
  - (* the first note at this tick *)
    match goal with G : (_ && _) = true |- _ => apply andb_true_iff in G; destruct G as [Hv Hc] end.
    split.
    + apply PyDictFacts.NoDup_keys_set; [exact Z.eqb_eq | exact ND].
    + apply PyDictFacts.Forall_set; [exact Z.eqb_eq | exact F |].
      cbn [snd]. split; [discriminate|]. split.
      * constructor; [|constructor].
        split; [apply Z.gtb_lt in Hv; lia | apply Z.eqb_eq, Hc].
      * cbn [map]. constructor; [intros [] | constructor].
Qed.

Lemma rne_opp q : (rne (- q) == - rne q)%Q.
Proof.
  destruct (Qcompare_spec q 0) as [E|L|G].
  - rewrite (rne_zero_eq q E), (rne_zero_eq (- q)); [reflexivity | lra].
  - rewrite (rne_neg_eq q L). rewrite (rne_pos_eq (- q)) by lra. ring.
  - rewrite (rne_neg_eq (- q)) by lra.
    rewrite <- (rne_pos_eq (- - q)) by lra.
    apply Qopp_comp, rne_comp. ring.
Qed.

Lemma of_Q_fin_abs q k :
  (Qabs q <= pow2 k)%Q -> emin <= k < emax -> of_Q q = Fin (Qred (rne q)).
Proof.
  intros H [Hk1 Hk2]. unfold of_Q.
  destruct (Qle_bool (pow2 emax) (Qabs (Qred (rne q)))) eqn:E; [|reflexivity].
  exfalso. apply Qle_bool_iff in E. rewrite Qred_correct in E.
  assert (P := pow2_lt k emax Hk2).
  assert (B : (Qabs (rne q) <= pow2 k)%Q).
  { apply Qabs_Qle_condition in H. destruct H as [H1 H2].
    apply Qabs_Qle_condition. destruct (Qlt_le_dec q 0) as [N|NN].
    - assert (R := rne_nonpos q (Qlt_le_weak _ _ N)).
      assert (O := rne_opp q).
      assert (U := rne_le_pow2 (- q) k Hk1 ltac:(lra) ltac:(lra)).
      assert (P0 := pow2_pos k). lra.
    - assert (R := rne_nonneg q NN).
      assert (U := rne_le_pow2 q k Hk1 NN H2).
      assert (P0 := pow2_pos k). lra. }
  lra.
Qed.

Lemma py_int_truediv_total a b :
  Z.abs a <= 2 ^ 1000 -> b <> 0 -> exists x, py_int_truediv a b = Ok x.
Proof.
  intros Ha Hb. unfold py_int_truediv.
  destruct (b =? 0) eqn:E; [apply Z.eqb_eq in E; contradiction|].
  rewrite (of_Q_fin_abs _ 1000); [eexists; reflexivity | | unfold emin, emax, prec; lia].
  assert (Bq : (1 <= Qabs (inject_Z b))%Q).
  { assert (Eb : (Qabs (inject_Z b) == inject_Z (Z.abs b))%Q) by reflexivity.
    rewrite Eb. change 1%Q with (inject_Z 1). rewrite <- Zle_Qle. lia. }
  assert (Aq : (Qabs (inject_Z a) <= pow2 1000)%Q).
  { assert (Ea : (Qabs (inject_Z a) == inject_Z (Z.abs a))%Q) by reflexivity.
    rewrite Ea, pow2_Z by lia. rewrite <- Zle_Qle. exact Ha. }
  unfold Qdiv. rewrite Qabs_Qmult, Qabs_Qinv.
  apply Qle_shift_div_r; [lra|].
  assert (A0 := Qabs_nonneg (inject_Z a)). assert (P0 := pow2_pos 1000). nra.
Qed.

Lemma process_message_total p m :
  tempo_ok m -> exists p', process_message p m = Ok p'.
Proof.
  intros H. unfold process_message. destruct m as [n|t d|nu de d|d]; cbv zeta.
  - destruct ((velocity n >? 0) && (channel n =? 9)); [|eexists; reflexivity].
    destruct (PyDict.get Z.eqb _ _); [|eexists; reflexivity].
    destruct (len _ =? 0); eexists; reflexivity.
  - destruct (py_int_truediv_total 1000000 t) as [x E]; [lia | exact H |].
    rewrite E. cbn [bind].
    rewrite (py_float_fin 60) by (unfold tick_bound; lia).
    cbn [bind]. eexists. reflexivity.
  - eexists. reflexivity.
  - eexists. reflexivity.
Qed.

(** A relation between processor states that every step of the scan
    respects holds between the state before and the state after. *)
Section ScanRelation.
Variable R : MidiProcessor -> MidiProcessor -> Prop.
Hypothesis R_refl : forall p, R p p.
Hypothesis R_trans : forall p q r, R p q -> R q r -> R p r.
Hypothesis R_counter : forall p c, R p (with_abs_time_counter c p).
Hypothesis R_max : forall p m, R p (with_max_track_len m p).

Lemma process_messages_rel (t : track) :
  (forall m p p', In m t -> process_message p m = Ok p' -> R p p') ->
  forall p p', foldM process_message t p = Ok p' -> R p p'.
Proof.
  induction t as [|m t IH]; intros Hm p p'; simpl.
  - intros [= <-]. apply R_refl.
  - destruct (process_message p m) as [p1|] eqn:E; simpl; [|discriminate].
    intros H. apply R_trans with p1.
    + apply (Hm m); [left; reflexivity | exact E].
    + apply IH; [|exact H]. intros m0 q q' Hin. apply Hm. right. exact Hin.
Qed.

Lemma process_track_rel (t : track) :
  (forall m p p', In m t -> process_message p m = Ok p' -> R p p') ->
  forall p p', process_track p t = Ok p' -> R p p'.
Proof.
  intros Hm p p'. unfold process_track.
  destruct (foldM process_message t (with_abs_time_counter 0 p)) as [p1|] eqn:E;
    cbn [bind]; [|discriminate].
  assert (R1 : R p p1).
  { apply R_trans with (with_abs_time_counter 0 p); [apply R_counter|].
    apply (process_messages_rel t Hm _ _ E). }
  destruct (abs_time_counter p1 >? max_track_len p1); intros [= <-].
  - apply R_trans with p1; [exact R1 | apply R_max].
  - exact R1.
Qed.

Lemma process_tracks_rel (ts : list track) :
  (forall t m p p', In t ts -> In m t -> process_message p m = Ok p' -> R p p') ->
  forall p p', foldM process_track ts p = Ok p' -> R p p'.
Proof.
  induction ts as [|t ts IH]; intros Hm p p'; simpl.
  - intros [= <-]. apply R_refl.
  - destruct (process_track p t) as [p1|] eqn:E; simpl; [|discriminate].
    intros H. apply R_trans with p1.
    + apply (process_track_rel t); [|exact E].
      intros m q q'. apply Hm. left. reflexivity.
    + apply IH; [|exact H]. intros t0 m q q' Hin. apply Hm. right. exact Hin.
Qed.
End ScanRelation.

Lemma process_tracks_total p :
  Forall (Forall tempo_ok) (mid_tracks (mid p)) ->
  exists p', process_tracks p = Ok p'.
Proof.
  intros H. unfold process_tracks. apply foldM_total.
  intros s t Ht. rewrite Forall_forall in H. specialize (H t Ht).
  unfold process_track.
  destruct (foldM_total process_message t) with (s := with_abs_time_counter 0 s) as [s1 E].
  - intros s0 m Hm. apply process_message_total.
    rewrite Forall_forall in H. apply H, Hm.
  - rewrite E. cbn [bind]. destruct (_ >? _); eexists; reflexivity.
Qed.

Lemma process_tracks_beats p p' :
  process_tracks p = Ok p' ->
  beats_invariant (beats p) -> beats_invariant (beats p').
Proof.
  unfold process_tracks.
  apply (process_tracks_rel
           (fun p p' => beats_invariant (beats p) -> beats_invariant (beats p'))).
  - intros q H. exact H.
  - intros q r s H1 H2 H. apply H2, H1, H.
  - intros q c H. exact H.
  - intros q m H. exact H.
  - intros t m q q' _ _ E. apply (process_message_beats q m q' E).
Qed.

Lemma same_file_refl p : same_file p p.
Proof. repeat split. Qed.

Lemma same_file_trans p q r : same_file p q -> same_file q r -> same_file p r.
Proof.
  intros (A1 & A2 & A3 & A4 & A5) (B1 & B2 & B3 & B4 & B5).
  repeat split; congruence.
Qed.

Lemma process_tracks_same_file p p' :
  process_tracks p = Ok p' -> same_file p p'.
Proof.
  unfold process_tracks. apply (process_tracks_rel same_file).
  - apply same_file_refl.
  - apply same_file_trans.
  - intros q c. repeat split.
  - intros q m. repeat split.
  - intros t m q q' _ _ E. apply (process_message_same_file q m q' E).
Qed.

Lemma init_beats_invariant m path rt : beats_invariant (beats (init m path rt)).
Proof. split; constructor. Qed.

(** C3.  After [process_tracks] on a freshly built processor, the list
    under every tick of [beats] holds only ['note_on'] events with a
    positive velocity on channel 9, and no two of them have the same note.
    (The scan completes whenever no tempo event carries tempo zero.) *)
Theorem process_tracks_beats_deduplicated m path rt :
  Forall (Forall tempo_ok) (mid_tracks m) ->
  exists p', process_tracks (init m path rt) = Ok p' /\
    forall tick events, In (tick, events) (beats p') ->
      Forall (fun e => velocity e > 0 /\ channel e = 9) events /\
      NoDup (map note events).
Proof.
  intros Ht. destruct (process_tracks_total (init m path rt) Ht) as [p' E].
  exists p'. split; [exact E|]. intros tick events Hin.
  destruct (process_tracks_beats _ _ E (init_beats_invariant m path rt)) as [_ F].
  rewrite Forall_forall in F. destruct (F _ Hin) as (_ & Q & ND).
  split; [exact Q | exact ND].
Qed.

Lemma process_tracks_beats_deduplicated_witness :
  exists p', process_tracks (init two_tracks "song.mid" "") = Ok p' /\
    forall tick events, In (tick, events) (beats p') ->
      Forall (fun e => velocity e > 0 /\ channel e = 9) events /\
      NoDup (map note events).
Proof.
  apply (process_tracks_beats_deduplicated two_tracks "song.mid" "").
  simpl. repeat constructor.
Defined.

(** *** The longest track *)

Lemma process_messages_counters t : forall p p',
  foldM process_message t p = Ok p' ->
  abs_time_counter p' = abs_time_counter p + track_length t /\
  max_track_len p' = max_track_len p.
Proof.
  induction t as [|m t IH]; intros p p'; simpl.
  - intros [= <-]. unfold track_length. simpl. split; [lia | reflexivity].
  - destruct (process_message p m) as [p1|] eqn:E; simpl; [|discriminate].
    intros H. destruct (process_message_counters p m p1 E) as [C1 M1].
    destruct (IH p1 p' H) as [C M]. unfold track_length in *. simpl. split; lia.
Qed.

Lemma process_track_max p t p' :
  process_track p t = Ok p' ->
  max_track_len p' = Z.max (max_track_len p) (track_length t).
Proof.
  unfold process_track.
  destruct (foldM process_message t (with_abs_time_counter 0 p)) as [p1|] eqn:E;
    cbn [bind]; [|discriminate].
  destruct (process_messages_counters t _ _ E) as [C M].
  cbn [abs_time_counter max_track_len with_abs_time_counter] in C, M.
  destruct (abs_time_counter p1 >? max_track_len p1) eqn:G; intros [= <-].
  - cbn [max_track_len with_max_track_len]. apply Z.gtb_lt in G. lia.
  - assert (abs_time_counter p1 <= max_track_len p1).
    { destruct (Z.gtb_spec (abs_time_counter p1) (max_track_len p1)); [discriminate | lia]. }
    lia.
Qed.

Lemma process_tracks_max ts : forall p p',
  0 <= max_track_len p ->
  foldM process_track ts p = Ok p' ->
  max_track_len p' = Z.max (max_track_len p) (max_of (map track_length ts)).
Proof.
  induction ts as [|t ts IH]; intros p p' H0; simpl.
  - intros [= <-]. lia.
  - destruct (process_track p t) as [p1|] eqn:E; simpl; [|discriminate].
    intros H. assert (M1 := process_track_max p t p1 E).
    rewrite (IH p1 p' ltac:(lia) H). lia.
Qed.

Lemma max_of_upper (l : list Z) x : In x l -> x <= max_of l.
Proof.
  induction l as [|y l IH]; simpl; [intros []|].
  intros [->|H]; [lia|]. specialize (IH H). lia.
Qed.

Lemma max_of_attained (l : list Z) :
  l <> [] -> Forall (fun x => 0 <= x) l -> In (max_of l) l.
Proof.
  induction l as [|y l IH]; [congruence|]. intros _ F.
  inversion F as [|? ? Hy F']; subst. simpl.
  destruct l as [|z l].
  - left. simpl. lia.
  - specialize (IH ltac:(discriminate) F').
    destruct (Z.max_spec y (max_of (z :: l))) as [[_ ->]|[_ ->]];
      [right; exact IH | left; reflexivity].
Qed.

Lemma track_length_nonneg (t : track) :
  Forall (fun msg => 0 <= time msg) t -> 0 <= track_length t.
Proof.
  unfold track_length. induction 1 as [|m t H F IH]; simpl; lia.
Qed.

(** C6.  After [process_tracks], [max_track_len] is the maximum over all
    tracks of the track's final tick counter, the sum of the delta times
    of all its events whatever their kind: no track exceeds it and, the
    deltas being non-negative, one of the tracks attains it. *)
Theorem process_tracks_max_track_len m path rt :
  Forall (Forall tempo_ok) (mid_tracks m) ->
  exists p', process_tracks (init m path rt) = Ok p' /\
    max_track_len p' = max_of (map track_length (mid_tracks m)) /\
    (forall t, In t (mid_tracks m) -> track_length t <= max_track_len p') /\
    (mid_tracks m <> [] ->
     Forall (Forall (fun msg => 0 <= time msg)) (mid_tracks m) ->
     exists t, In t (mid_tracks m) /\ track_length t = max_track_len p').
Proof.
  intros Ht. destruct (process_tracks_total (init m path rt) Ht) as [p' E].
  exists p'. split; [exact E|].
  assert (M : max_track_len p' = max_of (map track_length (mid_tracks m))).
  { unfold process_tracks in E. cbn [mid init] in E.
    assert (Z0 : 0 <= max_track_len (init m path rt)) by (cbn; lia).
    rewrite (process_tracks_max _ _ _ Z0 E).
    cbn [max_track_len init].
    assert (0 <= max_of (map track_length (mid_tracks m))).
    { generalize (map track_length (mid_tracks m)). intros l.
      induction l; simpl; lia. }
    lia. }
  split; [exact M|]. split.
  - intros t Hin. rewrite M. apply max_of_upper, in_map, Hin.
  - intros NE NN.
    assert (I : In (max_of (map track_length (mid_tracks m)))
                   (map track_length (mid_tracks m))).
    { apply max_of_attained.
      - intro Hnil. apply map_eq_nil in Hnil. contradiction.
      - apply Forall_map. apply Forall_impl with (2 := NN).
        intros t. apply track_length_nonneg. }
    apply in_map_iff in I. destruct I as (t & Et & Hin).
    exists t. split; [exact Hin | congruence].
Qed.

Lemma process_tracks_max_track_len_witness :
  exists p', process_tracks (init two_tracks "song.mid" "") = Ok p' /\
    max_track_len p' = 700 /\
    (forall t, In t (mid_tracks two_tracks) -> track_length t <= max_track_len p') /\
    (mid_tracks two_tracks <> [] ->
     Forall (Forall (fun msg => 0 <= time msg)) (mid_tracks two_tracks) ->
     exists t, In t (mid_tracks two_tracks) /\ track_length t = max_track_len p').
Proof.
  apply (process_tracks_max_track_len two_tracks "song.mid" "").
  simpl. repeat constructor.
Defined.

(** ** The report record *)

Lemma string_app_assoc (a b c : string) : (a ++ b) ++ c = a ++ (b ++ c).
Proof. induction a as [|x a IH]; simpl; [reflexivity | rewrite IH; reflexivity]. Qed.

Lemma count_char_app c (a b : string) :
  count_char c (a ++ b) = (count_char c a + count_char c b)%nat.
Proof. induction a as [|x a IH]; simpl; [reflexivity | rewrite IH; lia]. Qed.

(** A decimal numeral holds neither a tab nor a newline. *)
Lemma count_char_uint c (u : Decimal.uint) :
  c = ascii_of_nat 9 \/ c = ascii_of_nat 10 ->
  count_char c (NilEmpty.string_of_uint u) = 0%nat.
Proof. intros [->| ->]; induction u; simpl; auto. Qed.

Lemma count_char_py_str c n :
  c = ascii_of_nat 9 \/ c = ascii_of_nat 10 -> count_char c (py_str n) = 0%nat.
Proof.
  intros Hc. unfold py_str, NilZero.string_of_int, NilZero.string_of_uint.
  destruct (Z.to_int n) as [u|u]; destruct u;
    try (destruct Hc as [->| ->]; reflexivity);
    try (rewrite count_char_uint by exact Hc; reflexivity).
  all: cbn [count_char append]; rewrite count_char_uint by exact Hc;
       destruct Hc as [->| ->]; reflexivity.
Qed.

Lemma format_results_layout p :
  format_results_for_file_writing p
  = spec_report_record (filename p) (max_track_len p) (len (instruments p))
      (numerator p) (denominator p) (ticks_per_beat p).
Proof.
  unfold format_results_for_file_writing, spec_report_record.
  cbn [String.concat]. rewrite !string_app_assoc. reflexivity.
Qed.

(** C9.  [format_results_for_file_writing] returns the file name, the
    longest track length, the number of instruments, numerator ["/"]
    denominator and the ticks per beat, in this order, joined by two tab
    characters and closed by one newline; the numbers bring no tab and no
    newline of their own, so the record holds eight tabs and one newline
    besides those of the file name. *)
Theorem format_results_for_file_writing_record p :
  let record := format_results_for_file_writing p in
  record
  = String.concat two_tabs
      [filename p; py_str (max_track_len p); py_str (len (instruments p));
       py_str (numerator p) ++ "/" ++ py_str (denominator p);
       py_str (ticks_per_beat p)] ++ newline /\
  count_char (ascii_of_nat 9) record
  = (count_char (ascii_of_nat 9) (filename p) + 8)%nat /\
  count_char (ascii_of_nat 10) record
  = (count_char (ascii_of_nat 10) (filename p) + 1)%nat.
Proof.
  cbv zeta. split; [apply format_results_layout|].
  rewrite format_results_layout. unfold spec_report_record.
  cbn [String.concat].
  split; rewrite !count_char_app, !count_char_py_str by auto; cbn; lia.
Qed.

(** *** Defaults when the file has no time signature and no tempo *)

Lemma process_tracks_signature p p' :
  process_tracks p = Ok p' ->
  Forall (Forall (fun msg => is_time_signature msg = false)) (mid_tracks (mid p)) ->
  numerator p' = numerator p /\ denominator p' = denominator p.
Proof.
  intros E F. revert E. unfold process_tracks.
  apply (process_tracks_rel
           (fun p p' => numerator p' = numerator p /\ denominator p' = denominator p)).
  - intros q. split; reflexivity.
  - intros q r s [A1 A2] [B1 B2]. split; congruence.
  - intros q c. split; reflexivity.
  - intros q c. split; reflexivity.
  - intros t m q q' Ht Hm E. apply (process_message_signature q m q' E).
    rewrite Forall_forall in F. specialize (F t Ht).
    rewrite Forall_forall in F. apply F, Hm.
Qed.

Lemma process_tracks_tempo p p' :
  process_tracks p = Ok p' ->
  Forall (Forall (fun msg => is_set_tempo msg = false)) (mid_tracks (mid p)) ->
  tempo p' = tempo p.
Proof.
  intros E F. revert E. unfold process_tracks.
  apply (process_tracks_rel (fun p p' => tempo p' = tempo p)).
  - reflexivity.
  - intros q r s A B. congruence.
  - reflexivity.
  - reflexivity.
  - intros t m q q' Ht Hm E. apply (process_message_tempo q m q' E).
    rewrite Forall_forall in F. specialize (F t Ht).
    rewrite Forall_forall in F. apply F, Hm.
Qed.

(** C10.  A file without a time-signature event leaves the processor at
    numerator 4 and denominator 4 after [process_tracks], and the report
    record then reads ["4/4"]; a file without a tempo event leaves the
    tempo at 0. *)
Theorem process_tracks_defaults m path rt :
  Forall (Forall tempo_ok) (mid_tracks m) ->
  exists p', process_tracks (init m path rt) = Ok p' /\
    (Forall (Forall (fun msg => is_time_signature msg = false)) (mid_tracks m) ->
     numerator p' = 4 /\ denominator p' = 4 /\
     let q := beats_by_instrument (setup_variables p') in
     format_results_for_file_writing q
     = String.concat two_tabs
         [filename q; py_str (max_track_len q); py_str (len (instruments q));
          "4/4"; py_str (ticks_per_beat q)] ++ newline) /\
    (Forall (Forall (fun msg => is_set_tempo msg = false)) (mid_tracks m) ->
     tempo p' = 0).
Proof.
  intros Ht. destruct (process_tracks_total (init m path rt) Ht) as [p' E].
  exists p'. split; [exact E|]. split.
  - intros F. destruct (process_tracks_signature _ _ E F) as [N D].
    cbn [numerator denominator init] in N, D.
    split; [exact N|]. split; [exact D|].
    intros q. rewrite format_results_layout. unfold spec_report_record.
    change (numerator q) with (numerator p').
    change (denominator q) with (denominator p').
    rewrite N, D. reflexivity.
  - intros F. rewrite (process_tracks_tempo _ _ E F). reflexivity.
Qed.

Lemma process_tracks_defaults_witness :
  exists p', process_tracks (init two_tracks "song.mid" "") = Ok p' /\
    (numerator p' = 4 /\ denominator p' = 4) /\ tempo p' = 0.
Proof.
  destruct (process_tracks_defaults two_tracks "song.mid" "") as (p' & E & S & T).
  - simpl. repeat constructor.
  - exists p'. split; [exact E|]. split.
    + destruct S as (N & D & _); [simpl; repeat constructor | split; assumption].
    + apply T. simpl. repeat constructor.
Defined.

(** ** The script without beats *)

Lemma process_message_no_attack p m p' :
  process_message p m = Ok p' -> not_an_attack m -> beats p' = beats p.
Proof.
  intros H N. unfold process_message in H.
  destruct m as [e|t d|nu de d|d]; cbv zeta in H.
  - destruct ((velocity e >? 0) && (channel e =? 9)) eqn:C.
    + exfalso. apply N. apply andb_true_iff in C. destruct C as [Hv Hc].
      split; [apply Z.gtb_lt in Hv; lia | apply Z.eqb_eq, Hc].
    + injection H as <-. reflexivity.
  - destruct (py_int_truediv 1000000 t) as [x|]; [|discriminate H]. cbn [bind] in H.
    destruct (py_float 60) as [sixty|]; [|discriminate H]. cbn [bind] in H.
    injection H as <-. reflexivity.
  - injection H as <-. reflexivity.
  - injection H as <-. reflexivity.
Qed.

Lemma process_tracks_no_attacks p p' :
  process_tracks p = Ok p' ->
  Forall (Forall not_an_attack) (mid_tracks (mid p)) ->
  beats p' = beats p.
Proof.
  intros E F. revert E. unfold process_tracks.
  apply (process_tracks_rel (fun p p' => beats p' = beats p)).
  - reflexivity.
  - intros q r s A B. congruence.
  - reflexivity.
  - reflexivity.
  - intros t m q q' Ht Hm E. apply (process_message_no_attack q m q' E).
    rewrite Forall_forall in F. specialize (F t Ht).
    rewrite Forall_forall in F. apply F, Hm.
Qed.

(** With [beats] empty after the scan, lines 183 to 190 print the message
    and return. *)
Lemma run_methods_short_circuits (PercussionDevicesEnum : Z -> result string)
  (args_file : string) (processor p' : MidiProcessor) (log : list event) :
  process_tracks processor = Ok p' ->
  beats p' = [] ->
  run_methods PercussionDevicesEnum args_file processor log
  = Ok (p', (log ++ [Invoked "process_tracks";
                     Printed ("Found no beats on file " ++ args_file ++ ".")])%list).
Proof.
  intros E B. unfold run_methods, iobind, invoke, lift. rewrite E, B.
  cbn [PyDict.keys map len List.length Z.of_nat Z.gtb Z.compare].
  unfold print, ret. rewrite <- app_assoc. reflexivity.
Qed.

(** The guard on its own: handed the processor of a file without a single
    qualifying attack, lines 183 to 190 leave [beats] empty, print that no
    beats were found and return; neither [create_timelines] nor
    [count_instruments_by_beat] is invoked. *)
Lemma run_methods_without_beats (PercussionDevicesEnum : Z -> result string)
  (args_file : string) (m : MidiFile) (path rt : string) (log : list event) :
  Forall (Forall tempo_ok) (mid_tracks m) ->
  Forall (Forall not_an_attack) (mid_tracks m) ->
  exists p',
    process_tracks (init m path rt) = Ok p' /\ beats p' = [] /\
    run_methods PercussionDevicesEnum args_file (init m path rt) log
    = Ok (p', (log ++ [Invoked "process_tracks";
                       Printed ("Found no beats on file " ++ args_file ++ ".")])%list).
Proof.
  intros Ht Hn.
  destruct (process_tracks_total (init m path rt) Ht) as [p' E].
  assert (B : beats p' = []) by exact (process_tracks_no_attacks _ _ E Hn).
  exists p'. split; [exact E|]. split; [exact B|].
  apply run_methods_short_circuits; assumption.
Qed.

(** C7.  The script never reaches its guard.  Line 181 calls
    [MidiProcessor] with three arguments where [__init__] takes two, so a
    run on a file without a single qualifying attack raises [TypeError]
    right after the [Begin] line: the file is not even read, nothing is
    scanned and no message is printed.  The call with the two arguments
    [__init__] expects would have led lines 183 to 190 to the message and
    a normal return. *)
Theorem main_without_beats (PercussionDevicesEnum : Z -> result string)
  (MidiFile_read : string -> result MidiFile)
  (file : string) (m : MidiFile) (began runtime ended : string)
  (log : list event) :
  MidiFile_read file = Ok m ->
  Forall (Forall tempo_ok) (mid_tracks m) ->
  Forall (Forall not_an_attack) (mid_tracks m) ->
  main PercussionDevicesEnum MidiFile_read (Some file) (began, runtime, ended) log
  = Raise TypeError /\
  exists p p',
    MidiProcessor_call MidiFile_read [file; runtime] = Ok p /\
    run_methods PercussionDevicesEnum file p (log ++ [Printed ("Begin: " ++ began)])%list
    = Ok (p', (log ++ [Printed ("Begin: " ++ began);
                       Invoked "process_tracks";
                       Printed ("Found no beats on file " ++ file ++ ".")])%list).
Proof.
  intros Er Ht Hn. split; [reflexivity|].
  destruct (run_methods_without_beats PercussionDevicesEnum file m file runtime
              (log ++ [Printed ("Begin: " ++ began)])%list Ht Hn) as (p' & _ & _ & R).
  exists (init m file runtime), p'. split.
  - unfold MidiProcessor_call. rewrite Er. reflexivity.
  - rewrite R, <- app_assoc. reflexivity.
Qed.

Lemma main_without_beats_witness :
  main (fun _ => Raise ValueError) (fun _ => Ok silent_file) (Some "song.mid")
    ("2026_01_01___10_00_00", "2026_01_01___10_00_00", "2026_01_01___10_00_01") []
  = Raise TypeError /\
  exists p p',
    MidiProcessor_call (fun _ => Ok silent_file)
      ["song.mid"; "2026_01_01___10_00_00"] = Ok p /\
    run_methods (fun _ => Raise ValueError) "song.mid" p
      [Printed "Begin: 2026_01_01___10_00_00"]
    = Ok (p', [Printed "Begin: 2026_01_01___10_00_00";
               Invoked "process_tracks";
               Printed "Found no beats on file song.mid."]).
Proof.
  apply (main_without_beats (fun _ => Raise ValueError) (fun _ => Ok silent_file)
           "song.mid" silent_file "2026_01_01___10_00_00" "2026_01_01___10_00_00"
           "2026_01_01___10_00_01" []).
  - reflexivity.
  - simpl. repeat constructor; discriminate.
  - simpl. repeat constructor; unfold not_an_attack, qualifying; simpl; lia.
Defined.

(** ** The beat index and the instrument timelines *)

Lemma py_str_inj a b : py_str a = py_str b -> a = b.
Proof.
  unfold py_str. intros H.
  assert (N : forall n, Z.to_int n <> Pos Nil /\ Z.to_int n <> Neg Nil).
  { intros [|p|p]; simpl; split; try discriminate;
      intros [= E]; exact (DecimalPos.Unsigned.to_uint_nonnil p E). }
  assert (E : Some (Z.to_int a) = Some (Z.to_int b)).
  { destruct (N a) as [A1 A2]. destruct (N b) as [B1 B2].
    rewrite <- (NilZero.isi _ A1 A2), <- (NilZero.isi _ B1 B2), H. reflexivity. }
  injection E as E. apply DecimalZ.to_int_inj, E.
Qed.

(** *** [sorted] *)

Section SortedFacts.
Context {V : Type}.

Lemma insert_item_perm (x : Z * V) l : Permutation (insert_item x l) (x :: l).
Proof.
  induction l as [|y l IH]; simpl; [apply Permutation_refl|].
  destruct (fst x <=? fst y); [apply Permutation_refl|].
  apply Permutation_trans with (y :: x :: l); [apply perm_skip, IH | apply perm_swap].
Qed.

Lemma py_sorted_perm (l : list (Z * V)) : Permutation (py_sorted l) l.
Proof.
  induction l as [|x l IH]; simpl; [apply perm_nil|].
  apply Permutation_trans with (x :: py_sorted l);
    [apply insert_item_perm | apply perm_skip, IH].
Qed.

Lemma insert_item_sorted (x : Z * V) l :
  StronglySorted Z.le (map fst l) -> StronglySorted Z.le (map fst (insert_item x l)).
Proof.
  induction l as [|y l IH]; simpl; intros S.
  - constructor; constructor.
  - apply StronglySorted_inv in S. destruct S as [S F].
    destruct (Z.leb_spec (fst x) (fst y)) as [L|G]; simpl.
    + constructor; [constructor; assumption|].
      constructor; [exact L|]. apply Forall_impl with (2 := F). intros z. lia.
    + constructor; [apply IH, S|].
      apply (Permutation_Forall (x := fst x :: map fst l)).
      * apply Permutation_sym. change (fst x :: map fst l) with (map fst (x :: l)).
        apply Permutation_map, insert_item_perm.
      * constructor; [lia | exact F].
Qed.

Lemma py_sorted_sorted (l : list (Z * V)) :
  StronglySorted Z.le (map fst (py_sorted l)).
Proof.
  induction l as [|x l IH]; simpl; [constructor | apply insert_item_sorted, IH].
Qed.
End SortedFacts.

Lemma sorted_nodup_strict (l : list Z) :
  StronglySorted Z.le l -> NoDup l -> StronglySorted Z.lt l.
Proof.
  induction 1 as [|x l S IH F]; intros ND; [constructor|].
  inversion ND as [|? ? Hn ND']; subst.
  constructor; [apply IH, ND'|].
  rewrite Forall_forall in *. intros y Hy.
  specialize (F y Hy). assert (x <> y) by congruence. lia.
Qed.

(** The keys of [sorted(beats.items())] increase strictly. *)
Lemma py_sorted_keys_strict {V : Type} (b : list (Z * V)) :
  NoDup (PyDict.keys b) -> StronglySorted Z.lt (PyDict.keys (py_sorted b)).
Proof.
  intros ND. apply sorted_nodup_strict; [apply py_sorted_sorted|].
  apply Permutation_NoDup with (2 := ND).
  apply Permutation_sym, Permutation_map, py_sorted_perm.
Qed.

(** *** Subsequences *)

Lemma subseq_Forall {A : Type} (P : A -> Prop) (s l : list A) :
  subseq s l -> Forall P l -> Forall P s.
Proof.
  induction 1 as [|x s l H IH|x s l H IH]; intros F.
  - constructor.
  - apply IH. inversion F; assumption.
  - inversion F; subst. constructor; [assumption | apply IH; assumption].
Qed.

Lemma subseq_sorted {A : Type} (R : A -> A -> Prop) (s l : list A) :
  subseq s l -> StronglySorted R l -> StronglySorted R s.
Proof.
  induction 1 as [|x s l H IH|x s l H IH]; intros S.
  - constructor.
  - apply StronglySorted_inv in S. apply IH, S.
  - apply StronglySorted_inv in S. destruct S as [S F].
    constructor; [apply IH, S | apply (subseq_Forall _ s l H F)].
Qed.

(** *** [beats_by_instrument] *)

Lemma beats_by_instrument_event_timeline t insts e name :
  timeline_of name (beats_by_instrument_event t insts e)
  = (timeline_of name insts
     ++ (if String.eqb (py_str (note e)) name then [t] else []))%list.
Proof.
  unfold beats_by_instrument_event, timeline_of, PyDict.contains.
  set (n := py_str (note e)).
  destruct (PyDict.get String.eqb n insts) as [ticks|] eqn:G; cbn [negb].
  - rewrite G. destruct (String.eqb_spec n name) as [->|N].
    + rewrite (PyDictFacts.get_set_same String.eqb String.eqb_eq), G. reflexivity.
    + rewrite (PyDictFacts.get_set_other String.eqb String.eqb_eq) by congruence.
      rewrite app_nil_r. reflexivity.
  - rewrite (PyDictFacts.get_set_same String.eqb String.eqb_eq).
    destruct (String.eqb_spec n name) as [->|N].
    + rewrite (PyDictFacts.get_set_same String.eqb String.eqb_eq), G. reflexivity.
    + rewrite !(PyDictFacts.get_set_other String.eqb String.eqb_eq) by congruence.
      rewrite app_nil_r. reflexivity.
Qed.

Lemma beats_by_instrument_event_keys t insts e :
  NoDup (PyDict.keys insts) ->
  NoDup (PyDict.keys (beats_by_instrument_event t insts e)).
Proof.
  intros ND. unfold beats_by_instrument_event.
  set (insts1 := if negb _ then _ else insts).
  assert (ND1 : NoDup (PyDict.keys insts1)).
  { unfold insts1. destruct (negb _); [|exact ND].
    apply PyDictFacts.NoDup_keys_set; [exact String.eqb_eq | exact ND]. }
  destruct (PyDict.get String.eqb _ insts1); [|exact ND1].
  apply PyDictFacts.NoDup_keys_set; [exact String.eqb_eq | exact ND1].
Qed.

Lemma beats_by_instrument_beat_timeline item name : forall insts,
  timeline_of name (beats_by_instrument_beat insts item)
  = (timeline_of name insts ++ attacks_of name item)%list.
Proof.
  unfold beats_by_instrument_beat, attacks_of.
  induction (snd item) as [|e l IH]; intros insts; simpl.
  - rewrite app_nil_r. reflexivity.
  - rewrite IH, beats_by_instrument_event_timeline, <- app_assoc. reflexivity.
Qed.

Lemma beats_by_instrument_beat_keys item : forall insts,
  NoDup (PyDict.keys insts) ->
  NoDup (PyDict.keys (beats_by_instrument_beat insts item)).
Proof.
  unfold beats_by_instrument_beat.
  induction (snd item) as [|e l IH]; intros insts ND; simpl; [exact ND|].
  apply IH, beats_by_instrument_event_keys, ND.
Qed.

Lemma beats_by_instrument_timeline name ordered : forall insts,
  timeline_of name (fold_left beats_by_instrument_beat ordered insts)
  = (timeline_of name insts ++ ticks_of name ordered)%list.
Proof.
  unfold ticks_of.
  induction ordered as [|item ordered IH]; intros insts; simpl.
  - rewrite app_nil_r. reflexivity.
  - rewrite IH, beats_by_instrument_beat_timeline, <- app_assoc. reflexivity.
Qed.

Lemma beats_by_instrument_keys ordered : forall insts,
  NoDup (PyDict.keys insts) ->
  NoDup (PyDict.keys (fold_left beats_by_instrument_beat ordered insts)).
Proof.
  induction ordered as [|item ordered IH]; intros insts ND; simpl; [exact ND|].
  apply IH, beats_by_instrument_beat_keys, ND.
Qed.

(** With distinct notes in a beat, an instrument attacks in it once or not
    at all. *)
Lemma attacks_of_deduplicated name (item : Z * list note_on) :
  NoDup (map note (snd item)) ->
  attacks_of name item = [] \/ attacks_of name item = [fst item].
Proof.
  unfold attacks_of. induction (snd item) as [|e l IH]; simpl; intros ND.
  - left. reflexivity.
  - inversion ND as [|? ? Hn ND']; subst.
    destruct (String.eqb_spec (py_str (note e)) name) as [E|N]; [|apply IH, ND'].
    right. simpl. f_equal.
    assert (Z : forall l', (forall e', In e' l' -> In e' l) ->
      flat_map (fun e0 => if String.eqb (py_str (note e0)) name then [fst item] else []) l' = []).
    { induction l' as [|e' l' IHl]; intros Hsub; simpl; [reflexivity|].
      destruct (String.eqb_spec (py_str (note e')) name) as [E'|_].
      - exfalso. apply Hn. rewrite <- E' in E. apply py_str_inj in E. rewrite E.
        apply in_map, Hsub. left. reflexivity.
      - apply IHl. intros e0 H0. apply Hsub. right. exact H0. }
    apply Z. auto.
Qed.

Lemma ticks_of_subseq name (ordered : list (Z * list note_on)) :
  deduplicated ordered -> subseq (ticks_of name ordered) (PyDict.keys ordered).
Proof.
  unfold ticks_of, deduplicated, PyDict.keys.
  induction 1 as [|item ordered ND F IH]; simpl; [constructor|].
  destruct (attacks_of_deduplicated name item ND) as [-> | ->]; simpl.
  - apply subseq_skip, IH.
  - apply subseq_keep, IH.
Qed.

(** C4.  The timeline [beats_by_instrument] builds for each instrument
    from the sorted beat index is strictly ascending and is a subsequence
    of the index's ticks in iteration order, which are themselves strictly
    ascending. *)
Theorem beats_by_instrument_ascending m path rt :
  Forall (Forall tempo_ok) (mid_tracks m) ->
  exists p', process_tracks (init m path rt) = Ok p' /\
    let q := beats_by_instrument (setup_variables p') in
    StronglySorted Z.lt (PyDict.keys (ordered_beats q)) /\
    forall name ticks, In (name, ticks) (instruments q) ->
      StronglySorted Z.lt ticks /\
      subseq ticks (PyDict.keys (ordered_beats q)).
Proof.
  intros Ht. destruct (process_tracks_total (init m path rt) Ht) as [p' E].
  exists p'. split; [exact E|]. intros q.
  destruct (process_tracks_beats _ _ E (init_beats_invariant m path rt)) as [ND F].
  destruct (process_tracks_same_file _ _ E) as (_ & _ & _ & I & _).
  cbn [instruments init] in I.
  set (ordered := py_sorted (PyDict.items (beats p'))).
  assert (Eo : ordered_beats q = ordered) by reflexivity.
  assert (Ei : instruments q
               = fold_left beats_by_instrument_beat ordered PyDict.empty).
  { unfold q, beats_by_instrument, setup_variables.
    cbn [instruments ordered_beats with_instruments with_ordered_beats PyDict.items].
    rewrite I. reflexivity. }
  assert (S : StronglySorted Z.lt (PyDict.keys ordered)).
  { apply py_sorted_keys_strict, ND. }
  assert (D : deduplicated ordered).
  { unfold deduplicated. apply (Permutation_Forall (x := beats p')).
    - apply Permutation_sym, py_sorted_perm.
    - apply Forall_impl with (2 := F). intros item (_ & _ & H). exact H. }
  rewrite Eo. split; [exact S|].
  intros name ticks Hin. rewrite Ei in Hin.
  assert (G : PyDict.get String.eqb name
                (fold_left beats_by_instrument_beat ordered PyDict.empty)
              = Some ticks).
  { apply (PyDictFacts.In_get String.eqb String.eqb_eq); [|exact Hin].
    apply beats_by_instrument_keys. constructor. }
  assert (T : ticks = ticks_of name ordered).
  { assert (L := beats_by_instrument_timeline name ordered PyDict.empty).
    unfold timeline_of at 1 in L. rewrite G in L. exact L. }
  assert (Sub := ticks_of_subseq name ordered D). rewrite <- T in Sub.
  split; [apply (subseq_sorted Z.lt ticks _ Sub S) | exact Sub].
Qed.

Lemma beats_by_instrument_ascending_witness :
  exists p', process_tracks (init two_tracks "song.mid" "") = Ok p' /\
    let q := beats_by_instrument (setup_variables p') in
    StronglySorted Z.lt (PyDict.keys (ordered_beats q)) /\
    forall name ticks, In (name, ticks) (instruments q) ->
      StronglySorted Z.lt ticks /\
      subseq ticks (PyDict.keys (ordered_beats q)).
Proof.
  apply (beats_by_instrument_ascending two_tracks "song.mid" "").
  simpl. repeat constructor.
Defined.

(** ** Statistics: [count_instruments_by_beat] *)

Lemma count_loop_inst_sum b : forall c,
  inst_sum (fold_left count_beat b c)
  = inst_sum c + fold_right Z.add 0 (map (fun item => len (snd item)) b).
Proof.
  induction b as [|item b IH]; intros c; simpl; [lia|].
  rewrite IH. cbn [inst_sum count_beat]. lia.
Qed.

Lemma count_loop_binary_sum b : forall c,
  binary_sum (fold_left count_beat b c)
  = binary_sum c
    + len (filter (fun k => 2 <=? k) (map (fun item => len (snd item)) b)).
Proof.
  induction b as [|item b IH]; intros c; simpl; [unfold len; simpl; lia|].
  rewrite IH. cbn [binary_sum count_beat].
  destruct (Z.leb_spec 2 (len (snd item))) as [L|G].
  - destruct (Z.geb_spec (len (snd item)) 2); [|lia].
    unfold len. cbn [List.length]. lia.
  - destruct (Z.geb_spec (len (snd item)) 2); [lia | reflexivity].
Qed.

Lemma fold_right_min_seed (l : list Z) k s :
  fold_right Z.min (Z.min k s) l = Z.min k (fold_right Z.min s l).
Proof. induction l as [|x l IH]; simpl; [reflexivity | rewrite IH; lia]. Qed.

Lemma count_loop_min b : forall c,
  min_instruments_at_once (fold_left count_beat b c)
  = fold_right Z.min (min_instruments_at_once c)
      (map (fun item => len (snd item)) b).
Proof.
  induction b as [|item b IH]; intros c; simpl; [reflexivity|].
  rewrite IH. cbn [min_instruments_at_once count_beat].
  rewrite <- fold_right_min_seed. f_equal.
  destruct (Z.ltb_spec (len (snd item)) (min_instruments_at_once c)); lia.
Qed.

Lemma fold_right_max_seed (l : list Z) k s :
  fold_right Z.max (Z.max k s) l = Z.max k (fold_right Z.max s l).
Proof. induction l as [|x l IH]; simpl; [reflexivity | rewrite IH; lia]. Qed.

Lemma count_loop_max b : forall c,
  max_instruments_at_once (fold_left count_beat b c)
  = fold_right Z.max (max_instruments_at_once c)
      (map (fun item => len (snd item)) b).
Proof.
  induction b as [|item b IH]; intros c; simpl; [reflexivity|].
  rewrite IH. cbn [max_instruments_at_once count_beat].
  rewrite <- fold_right_max_seed. f_equal.
  destruct (Z.gtb_spec (len (snd item)) (max_instruments_at_once c)); lia.
Qed.

Lemma deduplicated_concurrency (b : list (Z * list note_on)) :
  deduplicated b -> spec_concurrency b = map (fun item => len (snd item)) b.
Proof.
  unfold deduplicated, spec_concurrency. induction 1 as [|item b ND F IH]; simpl.
  - reflexivity.
  - rewrite IH. f_equal. unfold distinct_instruments, len.
    rewrite (nodup_fixed_point Z.eq_dec ND), length_map. reflexivity.
Qed.

Lemma len_nonneg {A : Type} (l : list A) : 0 <= len l.
Proof. unfold len. lia. Qed.

Lemma sum_bounds (ks : list Z) M :
  Forall (fun k => 0 <= k <= M) ks ->
  0 <= fold_right Z.add 0 ks <= M * len ks.
Proof.
  unfold len. induction 1 as [|k ks H F IH]; cbn [fold_right List.length]; [lia|].
  rewrite Nat2Z.inj_succ. nia.
Qed.

Lemma filter_len_le {A : Type} (f : A -> bool) (l : list A) :
  len (filter f l) <= len l.
Proof. unfold len. apply inj_le, filter_length_le. Qed.

Lemma min_bounds (ks : list Z) seed M :
  ks <> [] -> 0 <= seed -> Forall (fun k => 0 <= k <= M) ks ->
  0 <= fold_right Z.min seed ks <= M.
Proof.
  intros NE Hs F. destruct F as [|k ks H F]; [congruence|]. simpl.
  assert (0 <= fold_right Z.min seed ks).
  { clear NE. induction F as [|k' ks' H' F' IH]; simpl; lia. }
  lia.
Qed.

Lemma py_float_of_Q n :
  0 <= n <= tick_bound -> py_float n = Ok (of_Q (inject_Z n)).
Proof.
  intros H. rewrite (py_float_fin n H). f_equal. symmetry.
  apply (of_Q_fin _ 1000).
  - change 0%Q with (inject_Z 0). rewrite <- Zle_Qle. lia.
  - rewrite pow2_Z by lia. rewrite <- Zle_Qle. exact (proj2 H).
  - unfold emin, emax, prec. lia.
Qed.

Lemma of_Q_positive_not_zero n :
  1 <= n <= tick_bound -> is_zero (of_Q (inject_Z n)) = false.
Proof.
  intros H. rewrite (of_Q_fin _ 1000).
  - cbn [is_zero]. apply Qeq_bool_false_pos. rewrite Qred_correct.
    assert (R := rne_Z_ge_1 n (proj1 H)). lra.
  - change 0%Q with (inject_Z 0). rewrite <- Zle_Qle. lia.
  - rewrite pow2_Z by lia. rewrite <- Zle_Qle. exact (proj2 H).
  - unfold emin, emax, prec. lia.
Qed.

(** The counters the loop ends with stay within the range of exact
    conversion. *)
Lemma count_loop_bounds self :
  ordered_beats self <> [] -> sized (ordered_beats self) ->
  let c := count_loop self in
  1 <= len (ordered_beats self) <= tick_bound /\
  0 <= inst_sum c <= tick_bound /\
  0 <= binary_sum c <= len (ordered_beats self) /\
  0 <= min_instruments_at_once c <= max_exact_int.
Proof.
  intros NE [SL SF] c. unfold c, count_loop, PyDict.items.
  rewrite count_loop_inst_sum, count_loop_binary_sum, count_loop_min.
  cbn [inst_sum binary_sum min_instruments_at_once].
  set (b := ordered_beats self) in *.
  set (ks := map (fun item => len (snd item)) b).
  assert (Fk : Forall (fun k => 0 <= k <= max_exact_int) ks).
  { unfold ks. apply Forall_map. apply Forall_impl with (2 := SF).
    intros item H. split; [apply len_nonneg | exact H]. }
  assert (Lk : len ks = len b) by (unfold ks, len; rewrite length_map; reflexivity).
  assert (L1 : 1 <= len b).
  { unfold len. destruct b; [congruence | simpl; lia]. }
  assert (TB : sys_maxsize * max_exact_int <= tick_bound).
  { vm_compute. discriminate. }
  assert (SM : sys_maxsize <= tick_bound) by (vm_compute; discriminate).
  assert (ME : 0 <= max_exact_int) by (vm_compute; discriminate).
  split; [lia|]. split; [|split].
  - assert (S := sum_bounds ks max_exact_int Fk). rewrite Lk in S. nia.
  - assert (F := filter_len_le (fun k => 2 <=? k) ks). rewrite Lk in F.
    assert (N := len_nonneg (filter (fun k => 2 <=? k) ks)). lia.
  - apply min_bounds; [|apply len_nonneg | exact Fk].
    unfold ks. destruct b; [congruence | discriminate].
Qed.

(** What [count_instruments_by_beat] returns, in terms of the counters
    its loop ends with. *)
Lemma count_instruments_by_beat_run self log :
  ordered_beats self <> [] -> sized (ordered_beats self) ->
  let c := count_loop self in
  let n := of_Q (inject_Z (len (ordered_beats self))) in
  count_instruments_by_beat self log
  = Ok ([ {| mean_type := "am"; num_insts := len (instruments self);
             mean_value := div (of_Q (inject_Z (inst_sum c))) n |};
          {| mean_type := "bm"; num_insts := len (instruments self);
             mean_value := add (of_Q (inject_Z (min_instruments_at_once c)))
                               (div (of_Q (inject_Z (binary_sum c))) n) |} ],
        (log ++ (if len (instruments self) <? 2
                 then [Printed ("LESS THAN 2 INSTRUMENTS: "
                                ++ mid_filename (mid self))]
                 else []))%list).
Proof.
  intros NE SZ c n.
  destruct (count_loop_bounds self NE SZ) as (BL & BS & BB & BM). fold c in BS, BB, BM.
  assert (ME : max_exact_int <= tick_bound) by (vm_compute; discriminate).
  unfold count_instruments_by_beat, iobind, lift. fold c.
  assert (P : forall T (k : unit -> list event -> result (T * list event)) ,
    match (if len (instruments self) <? 2
           then print ("LESS THAN 2 INSTRUMENTS: " ++ mid_filename (mid self))
           else ret tt) log with
    | Ok (a, log') => k a log'
    | Raise e => Raise e
    end
    = k tt (log ++ (if len (instruments self) <? 2
                    then [Printed ("LESS THAN 2 INSTRUMENTS: "
                                   ++ mid_filename (mid self))]
                    else []))%list).
  { intros T k. destruct (len (instruments self) <? 2); unfold print, ret;
      [reflexivity | rewrite app_nil_r; reflexivity]. }
  rewrite P.
  rewrite (py_float_of_Q (inst_sum c)) by lia. cbn [bind].
  rewrite (py_float_of_Q (len (ordered_beats self))) by lia. cbn [bind].
  unfold py_truediv. rewrite (of_Q_positive_not_zero _ BL). cbn [bind].
  rewrite (py_float_of_Q (binary_sum c)) by lia. cbn [bind].
  rewrite (py_float_of_Q (min_instruments_at_once c)) by lia. cbn [bind].
  reflexivity.
Qed.

Lemma scenario_C_means :
  count_instruments_by_beat scenario_C []
  = Ok ([ {| mean_type := "am"; num_insts := 2; mean_value := Fin (3 # 2) |};
          {| mean_type := "bm"; num_insts := 2; mean_value := Fin (3 # 2) |} ],
        []).
Proof. vm_compute. reflexivity. Qed.

(** C2.  On a non-empty beat index the statistics are
    [arithmeticMean = instSum / beatCount] and
    [binaryMean = minConcurrent + binarySum / beatCount] in binary64
    arithmetic, where [instSum] adds the number of distinct instruments of
    every beat, [binarySum] counts the beats with two or more of them and
    [minConcurrent] is the least such number, the seed [len(instruments)]
    included (as [maxConcurrent] is the greatest, the seed 1 included); on
    Scenario C both means are 1.5. *)
Theorem count_instruments_by_beat_means self log :
  ordered_beats self <> [] ->
  deduplicated (ordered_beats self) ->
  sized (ordered_beats self) ->
  count_instruments_by_beat self log
  = Ok ([ {| mean_type := "am"; num_insts := len (instruments self);
             mean_value := spec_arithmetic_mean (ordered_beats self) |};
          {| mean_type := "bm"; num_insts := len (instruments self);
             mean_value := spec_binary_mean (len (instruments self))
                             (ordered_beats self) |} ],
        (log ++ (if len (instruments self) <? 2
                 then [Printed ("LESS THAN 2 INSTRUMENTS: "
                                ++ mid_filename (mid self))]
                 else []))%list) /\
  min_instruments_at_once (count_loop self)
  = spec_min_concurrent (len (instruments self)) (ordered_beats self) /\
  max_instruments_at_once (count_loop self)
  = spec_max_concurrent (ordered_beats self) /\
  count_instruments_by_beat scenario_C []
  = Ok ([ {| mean_type := "am"; num_insts := 2; mean_value := Fin (3 # 2) |};
          {| mean_type := "bm"; num_insts := 2; mean_value := Fin (3 # 2) |} ],
        []).
Proof.
  intros NE D SZ.
  unfold spec_arithmetic_mean, spec_binary_mean, spec_inst_sum, spec_binary_sum,
    spec_min_concurrent, spec_max_concurrent.
  rewrite (deduplicated_concurrency _ D).
  split; [|split; [|split; [|exact scenario_C_means]]].
  - rewrite (count_instruments_by_beat_run self log NE SZ). cbv zeta.
    unfold count_loop, PyDict.items.
    rewrite count_loop_inst_sum, count_loop_binary_sum, count_loop_min.
    cbn [inst_sum binary_sum min_instruments_at_once]. reflexivity.
  - unfold count_loop, PyDict.items. rewrite count_loop_min. reflexivity.
  - unfold count_loop, PyDict.items. rewrite count_loop_max. reflexivity.
Qed.

Lemma count_instruments_by_beat_means_witness :
  count_instruments_by_beat scenario_C []
  = Ok ([ {| mean_type := "am"; num_insts := 2;
             mean_value := spec_arithmetic_mean (ordered_beats scenario_C) |};
          {| mean_type := "bm"; num_insts := 2;
             mean_value := spec_binary_mean 2 (ordered_beats scenario_C) |} ],
        []) /\
  spec_arithmetic_mean (ordered_beats scenario_C) = Fin (3 # 2) /\
  spec_binary_mean 2 (ordered_beats scenario_C) = Fin (3 # 2).
Proof.
  split; [|split; vm_compute; reflexivity].
  apply (count_instruments_by_beat_means scenario_C []).
  - discriminate.
  - repeat constructor; simpl; intuition discriminate.
  - split; [vm_compute; discriminate | repeat constructor; vm_compute; discriminate].
Defined.

(** C8.  On a non-empty beat index the binary mean returned is a finite
    float not below the final [min_instruments_at_once]. *)
Theorem binary_mean_at_least_min self log :
  ordered_beats self <> [] ->
  sized (ordered_beats self) ->
  exists am bm log' v,
    count_instruments_by_beat self log = Ok ([am; bm], log') /\
    mean_type bm = "bm" /\
    mean_value bm = Fin v /\
    (inject_Z (min_instruments_at_once (count_loop self)) <= v)%Q.
Proof.
  intros NE SZ.
  destruct (count_loop_bounds self NE SZ) as (BL & BS & BB & BM). cbv zeta in *.
  set (c := count_loop self) in *.
  assert (Em := of_Q_Z_exact _ BM).
  assert (Rb := rne_Z_bounds (binary_sum c) ltac:(lia)). destruct Rb as [Rb0 Rb1].
  assert (Rn := rne_Z_ge_1 (len (ordered_beats self)) (proj1 BL)).
  assert (Eb : of_Q (inject_Z (binary_sum c))
               = Fin (Qred (rne (inject_Z (binary_sum c))))).
  { apply (of_Q_fin _ 1000).
    - change 0%Q with (inject_Z 0). rewrite <- Zle_Qle. lia.
    - rewrite pow2_Z by lia. rewrite <- Zle_Qle. unfold tick_bound in BL. lia.
    - unfold emin, emax, prec. lia. }
  assert (En : of_Q (inject_Z (len (ordered_beats self)))
               = Fin (Qred (rne (inject_Z (len (ordered_beats self)))))).
  { apply (of_Q_fin _ 1000).
    - change 0%Q with (inject_Z 0). rewrite <- Zle_Qle. lia.
    - rewrite pow2_Z by lia. rewrite <- Zle_Qle. exact (proj2 BL).
    - unfold emin, emax, prec. lia. }
  set (B := Qred (rne (inject_Z (binary_sum c)))) in *.
  set (N := Qred (rne (inject_Z (len (ordered_beats self))))) in *.
  assert (B0 : (0 <= B)%Q) by (unfold B; rewrite Qred_correct; exact Rb0).
  assert (B1 : (B <= pow2 1000)%Q) by (unfold B; rewrite Qred_correct; exact Rb1).
  assert (N1 : (1 <= N)%Q) by (unfold N; rewrite Qred_correct; exact Rn).
  assert (Q0 : (0 <= B / N)%Q) by (apply Qle_shift_div_l; lra).
  assert (Q1 : (B / N <= pow2 1000)%Q).
  { apply Qle_shift_div_r; [lra|]. assert (P := pow2_pos 1000). nra. }
  assert (Ed : div (Fin B) (Fin N) = Fin (Qred (rne (B / N)))).
  { unfold div. rewrite (Qeq_bool_false_pos N) by lra.
    apply (of_Q_fin _ 1000); [exact Q0 | exact Q1 | unfold emin, emax, prec; lia]. }
  set (r := Qred (rne (B / N))) in *.
  assert (R0 : (0 <= r)%Q) by (unfold r; rewrite Qred_correct; apply rne_nonneg, Q0).
  assert (R1 : (r <= pow2 1000)%Q).
  { unfold r. rewrite Qred_correct.
    apply rne_le_pow2; [unfold emin, emax, prec; lia | exact Q0 | exact Q1]. }
  set (mn := min_instruments_at_once c) in *.
  assert (M0 : (0 <= inject_Z mn)%Q) by (change 0%Q with (inject_Z 0); rewrite <- Zle_Qle; lia).
  assert (M1 : (inject_Z mn <= pow2 1000)%Q).
  { rewrite pow2_Z by lia. rewrite <- Zle_Qle.
    assert (max_exact_int <= 2 ^ 1000) by (vm_compute; discriminate). lia. }
  assert (Ea : add (Fin (inject_Z mn)) (Fin r) = Fin (Qred (rne (inject_Z mn + r)))).
  { unfold add. apply (of_Q_fin _ 1001); [lra | | unfold emin, emax, prec; lia].
    assert (S : (pow2 1001 == 2 * pow2 1000)%Q).
    { change 2%Q with (pow2 1). rewrite <- pow2_add. reflexivity. }
    rewrite S. lra. }
  eexists _, _, _, (Qred (rne (inject_Z mn + r))).
  split; [apply (count_instruments_by_beat_run self log NE SZ)|].
  fold c. cbn [mean_type mean_value]. split; [reflexivity|]. split.
  - fold mn. rewrite Em, Eb, En. fold B N. rewrite Ed. fold r. exact Ea.
  - rewrite Qred_correct. rewrite <- (rne_Z_exact mn BM) at 1.
    apply rne_le. lra.
Qed.

Lemma binary_mean_at_least_min_witness :
  exists am bm log' v,
    count_instruments_by_beat scenario_C [] = Ok ([am; bm], log') /\
    mean_type bm = "bm" /\
    mean_value bm = Fin v /\
    (inject_Z (min_instruments_at_once (count_loop scenario_C)) <= v)%Q.
Proof.
  apply (binary_mean_at_least_min scenario_C []).
  - discriminate.
  - split; [vm_compute; discriminate | repeat constructor; vm_compute; discriminate].
Defined.

(** ** Tests of the binary64 model *)

(** The division of the model and the Standard Library's reference
    implementation of binary64 give the same quotients. *)
Example div_agrees_with_SpecFloat :
  forallb (fun a =>
    forallb (fun b => same_value (SF_div_Z a b) (div_Z a b))
      [1; 3; 7; 12; 13; 40; 480; 1000; 2 ^ 70 + 1; -3])
    [0; 1; 5; 65; 250; 1440; 2 ^ 53 + 1; 2 ^ 60 + 1; -7]
  = true.
Proof. vm_compute. reflexivity. Qed.

Example add_agrees_with_SpecFloat :
  forallb (fun m =>
    forallb (fun a =>
      forallb (fun b => same_value (SF_add_div_Z m a b) (add_div_Z m a b))
        [1; 3; 7; 1000; 2 ^ 53 - 1])
      [0; 1; 2; 5; 999; 2 ^ 53 - 3])
    [0; 1; 2; 128; 2 ^ 52 + 1; 2 ^ 53]
  = true.
Proof. vm_compute. reflexivity. Qed.

Example mul_agrees_with_SpecFloat :
  forallb (fun t => same_value (SF_div_mul_Z 1000000 t 60) (div_mul_Z 1000000 t 60))
    [1; 3; 7; 500000; 428571; 333333; 16777215; -9]
  = true.
Proof. vm_compute. reflexivity. Qed.

(** Rounding shows: at 13 ticks to the beat, tick 65 is exactly 60 slot
    widths, yet the two rounded divisions put it in slot 61. *)
Example get_tubs_placement_rounds :
  get_tubs_placement (init (file_of 13 []) "song.mid" "") 65 = Ok 61.
Proof. vm_compute. reflexivity. Qed.

(** [int] on strings other than numerals of [str]: whitespace, a plus
    sign and single underscores between digits are read; a sign alone,
    an underscore at either end or doubled, and whitespace inside are
    not. *)
Example py_int_reads :
  map py_int ["+36"; " 36 "; "3_6"; "007"; tab ++ "-12" ++ newline; "1_000_000"; "-0"]
  = [Ok 36; Ok 36; Ok 36; Ok 7; Ok (-12); Ok 1000000; Ok 0] /\
  map py_int [""; " "; "+"; "-"; "_36"; "36_"; "3__6"; "+-3"; "- 3"; "3 6"; "12a"]
  = repeat (Raise ValueError) 11.
Proof. split; vm_compute; reflexivity. Qed.

Example format_results_scenario_A :
  format_results_for_file_writing scenario_A
  = "song.mid" ++ two_tabs ++ "1440" ++ two_tabs ++ "1" ++ two_tabs ++ "4/4"
    ++ two_tabs ++ "480" ++ newline.
Proof. reflexivity. Qed.

(** ** Further properties of the scanner *)

Lemma foldM_raise_inv {A S : Type} (f : S -> A -> result S) (l : list A) :
  forall s e, foldM f l s = Raise e -> exists x s0, In x l /\ f s0 x = Raise e.
Proof.
  induction l as [|x l IH]; intros s e; simpl; [discriminate|].
  destruct (f s x) as [s1|e1] eqn:E; simpl.
  - intros H. destruct (IH s1 e H) as (y & s0 & Hy & Ey).
    exists y, s0. split; [right; exact Hy | exact Ey].
  - intros [= <-]. exists x, s. split; [left; reflexivity | exact E].
Qed.

Lemma foldM_raise {A S : Type} (f : S -> A -> result S) (l : list A) x e :
  In x l -> (forall s, f s x = Raise e) ->
  (forall s y e', In y l -> f s y = Raise e' -> e' = e) ->
  forall s, foldM f l s = Raise e.
Proof.
  induction l as [|y l IH]; intros Hin Hx Hall s; simpl; [destruct Hin|].
  destruct (f s y) as [s1|e1] eqn:E; simpl.
  - destruct Hin as [->|Hin]; [rewrite Hx in E; discriminate|].
    apply IH; [exact Hin | exact Hx |].
    intros s0 z e' Hz. apply Hall. right. exact Hz.
  - f_equal. apply (Hall s y e1); [left; reflexivity | exact E].
Qed.

Lemma process_message_raise_inv p m e :
  process_message p m = Raise e -> e = ZeroDivisionError /\ zero_tempo m.
Proof.
  intros H. destruct m as [n|t d|nu de d|d].
  - destruct (process_message_total p (MNoteOn n) I) as [p' E]. congruence.
  - destruct (Z.eq_dec t 0) as [->|N].
    + split; [|reflexivity]. unfold process_message in H. cbv zeta in H.
      unfold py_int_truediv in H. cbn [Z.eqb bind] in H. congruence.
    + destruct (process_message_total p (MSetTempo t d) N) as [p' E]. congruence.
  - discriminate H.
  - discriminate H.
Qed.

Lemma process_message_zero_tempo p m :
  zero_tempo m -> process_message p m = Raise ZeroDivisionError.
Proof.
  destruct m as [n|t d|nu de d|d]; simpl; try contradiction.
  intros ->. reflexivity.
Qed.

Lemma process_track_raise_inv p t e :
  process_track p t = Raise e -> e = ZeroDivisionError /\ Exists zero_tempo t.
Proof.
  unfold process_track.
  destruct (foldM process_message t (with_abs_time_counter 0 p)) as [p1|e1] eqn:E;
    cbn [bind].
  - destruct (_ >? _); discriminate.
  - intros [= <-]. destruct (foldM_raise_inv _ _ _ _ E) as (m & s0 & Hin & Em).
    destruct (process_message_raise_inv _ _ _ Em) as [-> Z].
    split; [reflexivity|]. apply Exists_exists. exists m. split; assumption.
Qed.

Lemma process_track_zero_tempo p t :
  Exists zero_tempo t -> process_track p t = Raise ZeroDivisionError.
Proof.
  intros H. apply Exists_exists in H. destruct H as (m & Hin & Z).
  unfold process_track.
  rewrite (foldM_raise process_message t m ZeroDivisionError Hin).
  - reflexivity.
  - intros s. apply process_message_zero_tempo, Z.
  - intros s y e' _ E. apply (process_message_raise_inv _ _ _ E).
Qed.

(** X1.  [process_tracks] fails exactly on a file with a tempo event of
    tempo zero, and then with [ZeroDivisionError] (line 54); it raises
    nothing else. *)
Theorem process_tracks_raises p :
  (process_tracks p = Raise ZeroDivisionError
   <-> Exists (Exists zero_tempo) (mid_tracks (mid p))) /\
  (forall e, process_tracks p = Raise e -> e = ZeroDivisionError).
Proof.
  unfold process_tracks.
  assert (Inv : forall e, foldM process_track (mid_tracks (mid p)) p = Raise e ->
                  e = ZeroDivisionError /\ Exists (Exists zero_tempo) (mid_tracks (mid p))).
  { intros e H. destruct (foldM_raise_inv _ _ _ _ H) as (t & s0 & Hin & Et).
    destruct (process_track_raise_inv _ _ _ Et) as [-> Z].
    split; [reflexivity|]. apply Exists_exists. exists t. split; assumption. }
  split; [split|].
  - intros H. apply (Inv _ H).
  - intros H. apply Exists_exists in H. destruct H as (t & Hin & Z).
    apply (foldM_raise process_track _ t ZeroDivisionError Hin).
    + intros s. apply process_track_zero_tempo, Z.
    + intros s y e' _ E. apply (process_track_raise_inv _ _ _ E).
  - intros e H. apply (Inv _ H).
Qed.

(** ** Further properties of the statistics *)

(** X2.  On an empty beat index [count_instruments_by_beat] divides by
    zero: it raises [ZeroDivisionError] whatever the instruments are. *)
Theorem count_instruments_by_beat_empty self log :
  ordered_beats self = [] ->
  count_instruments_by_beat self log = Raise ZeroDivisionError.
Proof.
  intros E. unfold count_instruments_by_beat, iobind, lift, count_loop.
  rewrite E. cbn [PyDict.items fold_left inst_sum].
  destruct (len (instruments self) <? 2); unfold print, ret; reflexivity.
Qed.

Lemma count_instruments_by_beat_empty_witness :
  count_instruments_by_beat (init (file_of 480 []) "song.mid" "") []
  = Raise ZeroDivisionError.
Proof.
  apply (count_instruments_by_beat_empty (init (file_of 480 []) "song.mid" "") []).
  reflexivity.
Defined.

(** ** Instrument names *)

Lemma lstrip_uint u :
  lstrip (NilEmpty.string_of_uint u) = NilEmpty.string_of_uint u.
Proof. destruct u; reflexivity. Qed.

Lemma rstrip_uint u :
  rstrip (NilEmpty.string_of_uint u) = NilEmpty.string_of_uint u.
Proof.
  induction u; cbn [NilEmpty.string_of_uint rstrip]; rewrite ?IHu;
    try reflexivity; destruct (NilEmpty.string_of_uint u); reflexivity.
Qed.

Lemma ungroup_uint u : forall after_digit,
  u <> Nil \/ after_digit = true ->
  ungroup after_digit (NilEmpty.string_of_uint u) = Some (NilEmpty.string_of_uint u).
Proof.
  induction u; intros after_digit H;
    try (cbn [NilEmpty.string_of_uint ungroup Ascii.eqb Bool.eqb];
         rewrite IHu by (right; reflexivity); reflexivity).
  destruct H as [H| ->]; [congruence | reflexivity].
Qed.

Lemma py_uint_uint u :
  u <> Nil -> py_uint (NilEmpty.string_of_uint u) = Some (Z.of_uint u).
Proof.
  intros H. unfold py_uint. rewrite ungroup_uint by (left; exact H).
  rewrite NilEmpty.usu. reflexivity.
Qed.

Lemma py_int_unsigned c r n :
  is_space c = false -> Ascii.eqb c "+" = false -> Ascii.eqb c "-" = false ->
  rstrip (String c r) = String c r ->
  py_uint (String c r) = Some n ->
  py_int (String c r) = Ok n.
Proof.
  intros S P M R U. unfold py_int. cbn [lstrip]. rewrite S, R. cbv zeta.
  rewrite P, M, U. reflexivity.
Qed.

Lemma py_int_negative c r n :
  is_space c = false ->
  rstrip (String c r) = String c r ->
  py_uint (String c r) = Some n ->
  py_int (String "-" (String c r)) = Ok (- n).
Proof.
  intros S R U. unfold py_int. cbn [lstrip]. change (is_space "-") with false.
  cbv iota.
  change (rstrip (String "-" (String c r)))
    with (match rstrip (String c r) with
          | EmptyString => if is_space "-" then EmptyString else String "-" EmptyString
          | String c0 r0 => String "-" (String c0 r0)
          end).
  rewrite R. cbv zeta.
  change (Ascii.eqb "-" "+") with false. change (Ascii.eqb "-" "-") with true.
  cbv iota. rewrite U. reflexivity.
Qed.

Lemma py_int_py_str n : py_int (py_str n) = Ok n.
Proof.
  unfold py_str. rewrite <- (DecimalZ.of_to n) at 2.
  assert (N : forall u, Z.to_int n = Pos u \/ Z.to_int n = Neg u -> u <> Nil).
  { intros u. destruct n as [|p|p]; simpl; intros [[= <-]|[= <-]];
      try discriminate; apply DecimalPos.Unsigned.to_uint_nonnil. }
  destruct (Z.to_int n) as [u|u].
  - specialize (N u (or_introl eq_refl)).
    assert (R := rstrip_uint u). assert (U := py_uint_uint u N).
    change (Z.of_int (Pos u)) with (Z.of_uint u).
    destruct u; [congruence | ..];
      (apply py_int_unsigned; [reflexivity | reflexivity | reflexivity | exact R | exact U]).
  - specialize (N u (or_intror eq_refl)).
    assert (R := rstrip_uint u). assert (U := py_uint_uint u N).
    change (Z.of_int (Neg u)) with (- Z.of_uint u).
    destruct u; [congruence | ..];
      (apply py_int_negative; [reflexivity | exact R | exact U]).
Qed.

Lemma print_instrument_name_py_str (PercussionDevicesEnum : Z -> result string)
  (n : Z) (log : list event) :
  print_instrument_name PercussionDevicesEnum (py_str n) log
  = if (33 <? n) && (n <=? 81)
    then match PercussionDevicesEnum n with
         | Ok name => Ok (tt, (log ++ [Printed name])%list)
         | Raise e => Raise e
         end
    else Ok (tt, (log ++ [Printed (py_str n)])%list).
Proof.
  unfold print_instrument_name, iobind, lift. rewrite py_int_py_str.
  destruct ((33 <? n) && (n <=? 81)); [|reflexivity].
  destruct (PercussionDevicesEnum n); reflexivity.
Qed.

(** X3.  [int(str(n))] is [n], so for the key [str(n)] that
    [beats_by_instrument] files a note under, [print_instrument_name]
    prints the enumeration member when [33 < n <= 81] (failing only if the
    enumeration does) and the number itself otherwise. *)
Theorem print_instrument_name_of_key (PercussionDevicesEnum : Z -> result string)
  (n : Z) (log : list event) :
  py_int (py_str n) = Ok n /\
  print_instrument_name PercussionDevicesEnum (py_str n) log
  = if (33 <? n) && (n <=? 81)
    then match PercussionDevicesEnum n with
         | Ok name => Ok (tt, (log ++ [Printed name])%list)
         | Raise e => Raise e
         end
    else Ok (tt, (log ++ [Printed (py_str n)])%list).
Proof.
  split; [apply py_int_py_str | apply print_instrument_name_py_str].
Qed.

(** ** Further properties of the quantization *)

Lemma get_tubs_placement_zero_resolution self tick :
  ticks_per_beat self = 0 -> 0 <= tick <= tick_bound ->
  get_tubs_placement self tick = Raise ZeroDivisionError.
Proof.
  intros E H. unfold get_tubs_placement.
  rewrite (py_float_fin tick H), E. reflexivity.
Qed.

(** X4.  With [ticks_per_beat] zero the slot width is [0.0]:
    [get_tubs_placement] raises [ZeroDivisionError] on every tick, and so
    does the encoding of every timeline, the empty one included. *)
Theorem zero_resolution_raises self :
  ticks_per_beat self = 0 ->
  0 <= max_track_len self <= tick_bound ->
  (forall tick, 0 <= tick <= tick_bound ->
     get_tubs_placement self tick = Raise ZeroDivisionError) /\
  (forall ticks, Forall (fun t => 0 <= t <= tick_bound) ticks ->
     timeline self ticks = Raise ZeroDivisionError).
Proof.
  intros E Hm. split.
  - intros tick H. apply get_tubs_placement_zero_resolution; assumption.
  - intros ticks F. unfold timeline. destruct F as [|t ticks Ht F].
    + cbn [foldM bind]. rewrite get_tubs_placement_zero_resolution; [reflexivity | exact E |].
      unfold tick_bound. lia.
    + cbn [foldM]. unfold timeline_tick at 1.
      rewrite (get_tubs_placement_zero_resolution self t E Ht). reflexivity.
Qed.

Lemma zero_resolution_raises_witness :
  get_tubs_placement (init (file_of 0 []) "song.mid" "") 480
  = Raise ZeroDivisionError /\
  timeline (init (file_of 0 []) "song.mid" "") [] = Raise ZeroDivisionError.
Proof.
  destruct (zero_resolution_raises (init (file_of 0 []) "song.mid" "")) as [G T].
  - reflexivity.
  - split; [reflexivity | vm_compute; discriminate].
  - split.
    + apply G. split; [lia | vm_compute; discriminate].
    + apply T. constructor.
Defined.

(** ** Further properties of the beat index and the timelines *)

Lemma beats_by_instrument_timeline_of p name :
  timeline_of name (instruments (beats_by_instrument p))
  = (timeline_of name (instruments p) ++ ticks_of name (ordered_beats p))%list.
Proof.
  unfold beats_by_instrument. cbn [instruments with_instruments].
  apply beats_by_instrument_timeline.
Qed.

(** X5.  [beats_by_instrument] appends to what [instruments] already
    holds: each instrument's timeline grows by the ticks of the beats it
    attacks in, so a second call doubles a timeline built from nothing. *)
Theorem beats_by_instrument_appends p name :
  timeline_of name (instruments (beats_by_instrument p))
  = (timeline_of name (instruments p) ++ ticks_of name (ordered_beats p))%list /\
  (instruments p = [] ->
   timeline_of name (instruments (beats_by_instrument (beats_by_instrument p)))
   = (ticks_of name (ordered_beats p) ++ ticks_of name (ordered_beats p))%list).
Proof.
  assert (A := fun q => beats_by_instrument_timeline_of q name).
  split; [apply A|]. intros E. rewrite A, A, E. reflexivity.
Qed.

Lemma py_sorted_get {V : Type} (b : list (Z * V)) t :
  NoDup (PyDict.keys b) ->
  PyDict.get Z.eqb t (py_sorted b) = PyDict.get Z.eqb t b.
Proof.
  intros ND.
  assert (P := py_sorted_perm b).
  assert (ND' : NoDup (PyDict.keys (py_sorted b))).
  { apply Permutation_NoDup with (2 := ND).
    apply Permutation_sym, Permutation_map, P. }
  destruct (PyDict.get Z.eqb t b) as [v|] eqn:G.
  - apply (PyDictFacts.In_get Z.eqb Z.eqb_eq); [exact ND'|].
    apply (Permutation_in _ (Permutation_sym P)).
    apply (PyDictFacts.get_In Z.eqb Z.eqb_eq), G.
  - apply (PyDictFacts.get_None Z.eqb Z.eqb_eq).
    apply (PyDictFacts.get_None Z.eqb Z.eqb_eq) in G.
    intros H. apply G.
    apply (Permutation_in _ (Permutation_map fst P)), H.
Qed.

(** X6.  [setup_variables] only reorders: [ordered_beats] holds the
    entries of [beats], each tick still finds the same events, and the
    ticks come in strictly ascending order. *)
Theorem setup_variables_reorders p :
  NoDup (PyDict.keys (beats p)) ->
  let q := setup_variables p in
  Permutation (ordered_beats q) (beats p) /\
  (forall t, PyDict.get Z.eqb t (ordered_beats q) = PyDict.get Z.eqb t (beats p)) /\
  StronglySorted Z.lt (PyDict.keys (ordered_beats q)) /\
  beats q = beats p.
Proof.
  intros ND q. unfold q, setup_variables.
  cbn [ordered_beats beats with_ordered_beats PyDict.items].
  split; [apply py_sorted_perm|]. split; [|split; [|reflexivity]].
  - intros t. apply py_sorted_get, ND.
  - apply py_sorted_keys_strict, ND.
Qed.

Lemma setup_variables_reorders_witness :
  let p := with_beats [(500, [NoteOn 9 38 100 0]); (0, [NoteOn 9 36 100 0])]
             (init (file_of 480 []) "song.mid" "") in
  ordered_beats (setup_variables p)
  = [(0, [NoteOn 9 36 100 0]); (500, [NoteOn 9 38 100 0])] /\
  Permutation (ordered_beats (setup_variables p)) (beats p).
Proof.
  cbv zeta. split; [reflexivity|].
  apply (setup_variables_reorders
           (with_beats [(500, [NoteOn 9 38 100 0]); (0, [NoteOn 9 36 100 0])]
              (init (file_of 480 []) "song.mid" ""))).
  simpl. repeat constructor; simpl; intuition discriminate.
Defined.

(** *** Ticks of the beats and the longest track *)

Lemma process_message_ticks_bounded p m p' :
  process_message p m = Ok p' -> 0 <= time m ->
  0 <= abs_time_counter p ->
  Forall (fun item => 0 <= fst item
                      <= Z.max (max_track_len p) (abs_time_counter p)) (beats p) ->
  0 <= abs_time_counter p' /\
  Forall (fun item => 0 <= fst item
                      <= Z.max (max_track_len p') (abs_time_counter p')) (beats p').
Proof.
  intros H Ht Hc F.
  assert (W : Forall (fun item => 0 <= fst item
                <= Z.max (max_track_len p) (abs_time_counter p + time m)) (beats p)).
  { apply Forall_impl with (2 := F). intros item. lia. }
  process_message_cases H;
    cbn [time beats max_track_len abs_time_counter
         with_beats with_tempo with_signature with_abs_time_counter] in *;
    (split; [lia|]); try exact W;
    (apply PyDictFacts.Forall_set; [exact Z.eqb_eq | exact W | cbn [fst]; lia]).
Qed.

Lemma process_messages_ticks_bounded t : forall p p',
  foldM process_message t p = Ok p' ->
  Forall (fun m => 0 <= time m) t ->
  0 <= abs_time_counter p ->
  Forall (fun item => 0 <= fst item
                      <= Z.max (max_track_len p) (abs_time_counter p)) (beats p) ->
  0 <= abs_time_counter p' /\
  Forall (fun item => 0 <= fst item
                      <= Z.max (max_track_len p') (abs_time_counter p')) (beats p').
Proof.
  induction t as [|m t IH]; intros p p'; simpl.
  - intros [= <-] _ Hc F. split; assumption.
  - destruct (process_message p m) as [p1|] eqn:E; simpl; [|discriminate].
    intros H Ft Hc F. inversion Ft as [|? ? Hm Ft']; subst.
    destruct (process_message_ticks_bounded p m p1 E Hm Hc F) as [Hc1 F1].
    apply (IH p1 p' H Ft' Hc1 F1).
Qed.

Lemma process_track_ticks_bounded p t p' :
  process_track p t = Ok p' ->
  Forall (fun m => 0 <= time m) t ->
  0 <= max_track_len p ->
  Forall (fun item => 0 <= fst item <= max_track_len p) (beats p) ->
  0 <= max_track_len p' /\
  Forall (fun item => 0 <= fst item <= max_track_len p') (beats p').
Proof.
  unfold process_track. intros H Ft Hm F.
  destruct (foldM process_message t (with_abs_time_counter 0 p)) as [p1|] eqn:E;
    cbn [bind] in H; [|discriminate].
  destruct (process_messages_counters t _ _ E) as [_ M].
  cbn [max_track_len with_abs_time_counter] in M.
  destruct (process_messages_ticks_bounded t _ _ E Ft) as [Hc1 F1].
  - cbn. lia.
  - cbn [beats max_track_len abs_time_counter with_abs_time_counter].
    apply Forall_impl with (2 := F). intros item. lia.
  - destruct (Z.gtb_spec (abs_time_counter p1) (max_track_len p1)) as [G|G];
      injection H as <-; cbn [max_track_len beats with_max_track_len].
    + split; [lia|]. apply Forall_impl with (2 := F1). intros item. lia.
    + split; [lia|]. apply Forall_impl with (2 := F1). intros item. lia.
Qed.

Lemma process_tracks_ticks_bounded ts : forall p p',
  foldM process_track ts p = Ok p' ->
  Forall (Forall (fun m => 0 <= time m)) ts ->
  0 <= max_track_len p ->
  Forall (fun item => 0 <= fst item <= max_track_len p) (beats p) ->
  0 <= max_track_len p' /\
  Forall (fun item => 0 <= fst item <= max_track_len p') (beats p').
Proof.
  induction ts as [|t ts IH]; intros p p'; simpl.
  - intros [= <-] _ Hm F. split; assumption.
  - destruct (process_track p t) as [p1|] eqn:E; simpl; [|discriminate].
    intros H Ft Hm F. inversion Ft as [|? ? Ht Ft']; subst.
    destruct (process_track_ticks_bounded p t p1 E Ht Hm F) as [Hm1 F1].
    apply (IH p1 p' H Ft' Hm1 F1).
Qed.

(** X7.  When the deltas of a file are non-negative, every tick that
    [process_tracks] files a beat under lies between 0 and
    [max_track_len]. *)
Theorem process_tracks_ticks_within_length m path rt p' :
  process_tracks (init m path rt) = Ok p' ->
  Forall (Forall (fun msg => 0 <= time msg)) (mid_tracks m) ->
  forall tick events, In (tick, events) (beats p') ->
    0 <= tick <= max_track_len p'.
Proof.
  intros E F tick events Hin. unfold process_tracks in E. cbn [mid init] in E.
  destruct (process_tracks_ticks_bounded _ _ _ E F) as [_ B].
  - cbn. lia.
  - constructor.
  - rewrite Forall_forall in B. apply (B (tick, events) Hin).
Qed.

Lemma process_tracks_ticks_within_length_witness :
  exists p', process_tracks (init two_tracks "song.mid" "") = Ok p' /\
    max_track_len p' = 700 /\
    forall tick events, In (tick, events) (beats p') -> 0 <= tick <= max_track_len p'.
Proof.
  eexists. split; [vm_compute; reflexivity|]. split; [reflexivity|].
  apply (process_tracks_ticks_within_length two_tracks "song.mid" "").
  - vm_compute. reflexivity.
  - simpl. repeat constructor; simpl; lia.
Defined.


(** *** The beats are the qualifying attacks *)

Lemma get_set_Z {V : Type} k k' (v : V) d :
  PyDict.get Z.eqb k' (PyDict.set Z.eqb k v d)
  = if Z.eqb k' k then Some v else PyDict.get Z.eqb k' d.
Proof.
  destruct (Z.eqb_spec k' k) as [->|N].
  - apply (PyDictFacts.get_set_same Z.eqb Z.eqb_eq).
  - apply (PyDictFacts.get_set_other Z.eqb Z.eqb_eq), N.
Qed.

Lemma filter_nonempty_In {A : Type} (f : A -> bool) (l : list A) :
  (len (filter f l) =? 0) = false -> exists x, In x l /\ f x = true.
Proof.
  intros H. destruct (filter f l) as [|x l'] eqn:E; [discriminate H|].
  assert (I : In x (filter f l)) by (rewrite E; left; reflexivity).
  apply filter_In in I. exists x. exact I.
Qed.

Lemma process_message_represents p m p' seen :
  process_message p m = Ok p' ->
  represents seen (beats p) ->
  represents (seen ++ track_attacks (abs_time_counter p) [m]) (beats p').
Proof.
  intros H [Cpl Snd]. unfold process_message in H. cbv zeta in H.
  cbn [abs_time_counter with_abs_time_counter beats] in H.
  destruct m as [e|t d|nu de d|d]; cbn [track_attacks time] in *.
  - set (c := abs_time_counter p + note_time e) in *.
    destruct ((velocity e >? 0) && (channel e =? 9)) eqn:Q.
    + destruct (PyDict.get Z.eqb c (beats p)) as [l|] eqn:G.
      * destruct (len (filter (fun b => note b =? note e) l) =? 0) eqn:Fl;
          injection H as <-; cbn [beats with_beats with_abs_time_counter].
        -- (* a new note at a tick that has an entry *)
           split.
           ++ intros t x Hin. rewrite get_set_Z. apply in_app_or in Hin.
              destruct Hin as [Hin|[[= <- <-]|[]]].
              ** destruct (Cpl t x Hin) as (events & e' & Ge & Ie & Ne).
                 destruct (Z.eqb_spec t c) as [->|N].
                 --- rewrite G in Ge. injection Ge as <-.
                     exists (l ++ [e])%list, e'. split; [reflexivity|].
                     split; [apply in_or_app; left; exact Ie | exact Ne].
                 --- exists events, e'. split; [exact Ge|]. split; assumption.
              ** rewrite Z.eqb_refl. exists (l ++ [e])%list, e.
                 split; [reflexivity|]. split; [|reflexivity].
                 apply in_or_app. right. left. reflexivity.
           ++ intros t events x Ge Ix. rewrite get_set_Z in Ge. apply in_or_app.
              destruct (Z.eqb_spec t c) as [->|N].
              ** injection Ge as <-. apply in_app_or in Ix.
                 destruct Ix as [Ix|[<-|[]]].
                 --- left. apply (Snd c l x G Ix).
                 --- right. left. reflexivity.
              ** left. apply (Snd t events x Ge Ix).
        -- (* a note the tick holds already: dropped *)
           destruct (filter_nonempty_In _ _ Fl) as (b & Ib & Eb).
           apply Z.eqb_eq in Eb. split.
           ++ intros t x Hin. apply in_app_or in Hin.
              destruct Hin as [Hin|[[= <- <-]|[]]]; [apply Cpl, Hin|].
              exists l, b. split; [exact G|]. split; assumption.
           ++ intros t events x Ge Ix. apply in_or_app. left.
              apply (Snd t events x Ge Ix).
      * (* the first note at this tick *)
        injection H as <-; cbn [beats with_beats with_abs_time_counter]. split.
        -- intros t x Hin. rewrite get_set_Z. apply in_app_or in Hin.
           destruct Hin as [Hin|[[= <- <-]|[]]].
           ++ destruct (Cpl t x Hin) as (events & e' & Ge & Ie & Ne).
              destruct (Z.eqb_spec t c) as [->|N]; [congruence|].
              exists events, e'. split; [exact Ge|]. split; assumption.
           ++ rewrite Z.eqb_refl. exists [e], e.
              split; [reflexivity|]. split; [left|]; reflexivity.
        -- intros t events x Ge Ix. rewrite get_set_Z in Ge. apply in_or_app.
           destruct (Z.eqb_spec t c) as [->|N].
           ++ injection Ge as <-. destruct Ix as [<-|[]]. right. left. reflexivity.
           ++ left. apply (Snd t events x Ge Ix).
    + injection H as <-. cbn [beats with_abs_time_counter].
      rewrite app_nil_r. split; assumption.
  - destruct (py_int_truediv 1000000 t) as [x|]; [|discriminate H]. cbn [bind] in H.
    destruct (py_float 60) as [sixty|]; [|discriminate H]. cbn [bind] in H.
    injection H as <-. rewrite app_nil_r. split; assumption.
  - injection H as <-. rewrite app_nil_r. split; assumption.
  - injection H as <-. rewrite app_nil_r. split; assumption.
Qed.

Lemma track_attacks_cons c m t :
  track_attacks c (m :: t)
  = (track_attacks c [m] ++ track_attacks (c + time m) t)%list.
Proof.
  cbn [track_attacks]. destruct m as [e|? ?|? ? ?|?]; try reflexivity.
  destruct ((velocity e >? 0) && (channel e =? 9)); reflexivity.
Qed.

Lemma process_messages_represents t : forall p p' seen,
  foldM process_message t p = Ok p' ->
  represents seen (beats p) ->
  represents (seen ++ track_attacks (abs_time_counter p) t) (beats p').
Proof.
  induction t as [|m t IH]; intros p p' seen; simpl foldM.
  - intros [= <-] R. cbn [track_attacks]. rewrite app_nil_r. exact R.
  - destruct (process_message p m) as [p1|] eqn:E; cbn [bind]; [|discriminate].
    intros H R. rewrite track_attacks_cons, app_assoc.
    destruct (process_message_counters p m p1 E) as [C _]. rewrite <- C.
    apply (IH p1 p' _ H). apply (process_message_represents p m p1 seen E R).
Qed.

Lemma process_track_represents p t p' seen :
  process_track p t = Ok p' ->
  represents seen (beats p) ->
  represents (seen ++ track_attacks 0 t) (beats p').
Proof.
  unfold process_track. intros H R.
  destruct (foldM process_message t (with_abs_time_counter 0 p)) as [p1|] eqn:E;
    cbn [bind] in H; [|discriminate].
  assert (R1 := process_messages_represents t _ _ seen E R).
  cbn [abs_time_counter with_abs_time_counter] in R1.
  destruct (_ >? _); injection H as <-; exact R1.
Qed.

Lemma process_tracks_represents ts : forall p p' seen,
  foldM process_track ts p = Ok p' ->
  represents seen (beats p) ->
  represents (seen ++ file_attacks ts) (beats p').
Proof.
  unfold file_attacks.
  induction ts as [|t ts IH]; intros p p' seen; simpl foldM.
  - intros [= <-] R. cbn [flat_map]. rewrite app_nil_r. exact R.
  - destruct (process_track p t) as [p1|] eqn:E; cbn [bind]; [|discriminate].
    intros H R. cbn [flat_map]. rewrite app_assoc.
    apply (IH p1 p' _ H). apply (process_track_represents p t p1 seen E R).
Qed.

(** X8.  The beats are exactly the qualifying attacks of the file: every
    ['note_on'] with positive velocity on channel 9 finds, under its
    absolute tick, an event with its note (itself, or the earlier one that
    made it a duplicate), and every event filed under a tick is such an
    attack at that tick. *)
Theorem process_tracks_beats_are_attacks m path rt p' :
  process_tracks (init m path rt) = Ok p' ->
  (forall tick e, In (tick, e) (file_attacks (mid_tracks m)) ->
     exists events e', In (tick, events) (beats p') /\
                       In e' events /\ note e' = note e) /\
  (forall tick events e, In (tick, events) (beats p') -> In e events ->
     In (tick, e) (file_attacks (mid_tracks m))).
Proof.
  intros E.
  destruct (process_tracks_beats _ _ E (init_beats_invariant m path rt)) as [ND _].
  unfold process_tracks in E. cbn [mid init] in E.
  destruct (process_tracks_represents _ _ _ [] E) as [Cpl Snd].
  { split; [intros t e []|]. intros t events e G. discriminate G. }
  cbn [app] in *. split.
  - intros tick e Hin. destruct (Cpl tick e Hin) as (events & e' & G & Ie & Ne).
    exists events, e'. split; [|split; assumption].
    apply (PyDictFacts.get_In Z.eqb Z.eqb_eq), G.
  - intros tick events e Hin Ie. apply (Snd tick events e); [|exact Ie].
    apply (PyDictFacts.In_get Z.eqb Z.eqb_eq); assumption.
Qed.

Lemma process_tracks_beats_are_attacks_witness :
  exists p', process_tracks (init two_tracks "song.mid" "") = Ok p' /\
    file_attacks (mid_tracks two_tracks)
    = [(0, NoteOn 9 36 100 0); (0, NoteOn 9 38 100 0); (0, NoteOn 9 36 100 0);
       (100, NoteOn 9 36 100 100)] /\
    beats p' = [(0, [NoteOn 9 36 100 0; NoteOn 9 38 100 0]);
                (100, [NoteOn 9 36 100 100])] /\
    (forall tick events e, In (tick, events) (beats p') -> In e events ->
       In (tick, e) (file_attacks (mid_tracks two_tracks))).
Proof.
  eexists. split; [vm_compute; reflexivity|].
  split; [reflexivity|]. split; [reflexivity|].
  apply (process_tracks_beats_are_attacks two_tracks "song.mid" "").
  vm_compute. reflexivity.
Defined.

(** *** The instruments are the notes struck *)

Lemma In_keys_set_string {V : Type} name k (v : V) d :
  In name (PyDict.keys (PyDict.set String.eqb k v d))
  <-> name = k \/ In name (PyDict.keys d).
Proof.
  induction d as [|[k0 v0] d IH]; simpl.
  - split; [intros [H|[]]; left; congruence | intros [H|[]]; left; congruence].
  - destruct (String.eqb_spec k0 k) as [->|N]; simpl.
    + intuition congruence.
    + rewrite IH. tauto.
Qed.

Lemma beats_by_instrument_event_In_keys t insts e name :
  In name (PyDict.keys (beats_by_instrument_event t insts e))
  <-> name = py_str (note e) \/ In name (PyDict.keys insts).
Proof.
  unfold beats_by_instrument_event, PyDict.contains.
  set (n := py_str (note e)).
  destruct (PyDict.get String.eqb n insts) as [ticks|] eqn:G; cbn [negb].
  - rewrite G, In_keys_set_string. reflexivity.
  - rewrite (PyDictFacts.get_set_same String.eqb String.eqb_eq).
    rewrite !In_keys_set_string. tauto.
Qed.

Lemma beats_by_instrument_beat_In_keys item name : forall insts,
  In name (PyDict.keys (beats_by_instrument_beat insts item))
  <-> In name (map py_str (map note (snd item))) \/ In name (PyDict.keys insts).
Proof.
  unfold beats_by_instrument_beat.
  induction (snd item) as [|e l IH]; intros insts; simpl.
  - tauto.
  - rewrite IH, beats_by_instrument_event_In_keys. intuition congruence.
Qed.

Lemma beats_by_instrument_In_keys name ordered : forall insts,
  In name (PyDict.keys (fold_left beats_by_instrument_beat ordered insts))
  <-> In name (map py_str (notes_of ordered)) \/ In name (PyDict.keys insts).
Proof.
  unfold notes_of.
  induction ordered as [|item ordered IH]; intros insts; simpl.
  - tauto.
  - rewrite IH, beats_by_instrument_beat_In_keys, map_app, in_app_iff. tauto.
Qed.

Lemma NoDup_map_py_str (l : list Z) : NoDup l -> NoDup (map py_str l).
Proof.
  induction 1 as [|x l Hn ND IH]; simpl; constructor; [|exact IH].
  intros H. apply in_map_iff in H. destruct H as (y & E & Hy).
  apply py_str_inj in E. subst y. exact (Hn Hy).
Qed.

Lemma instruments_from_nothing p :
  instruments p = [] ->
  let q := beats_by_instrument p in
  NoDup (PyDict.keys (instruments q)) /\
  forall name, In name (PyDict.keys (instruments q))
               <-> In name (map py_str (notes_of (ordered_beats p))).
Proof.
  intros E q. unfold q, beats_by_instrument.
  cbn [instruments with_instruments PyDict.items]. rewrite E. split.
  - apply beats_by_instrument_keys. constructor.
  - intros name. rewrite beats_by_instrument_In_keys. simpl. tauto.
Qed.

Lemma ticks_of_nonempty name (ordered : list (Z * list note_on)) :
  In name (map py_str (notes_of ordered)) -> ticks_of name ordered <> [].
Proof.
  unfold notes_of, ticks_of. intros H.
  apply in_map_iff in H. destruct H as (n & En & Hn).
  apply in_flat_map in Hn. destruct Hn as (item & Hitem & Hn).
  apply in_map_iff in Hn. destruct Hn as (e & Ee & He).
  assert (I : In (fst item) (flat_map (attacks_of name) ordered)).
  { apply in_flat_map. exists item. split; [exact Hitem|].
    unfold attacks_of. apply in_flat_map. exists e. split; [exact He|].
    rewrite Ee, En, String.eqb_refl. left. reflexivity. }
  intros Z. rewrite Z in I. destruct I.
Qed.

(** X9.  Built from nothing, [instruments] has one key for each distinct
    note struck in [ordered_beats], the note's decimal numeral, so that
    [len(instruments)], the count the report and the means carry, is the
    number of distinct notes; and no instrument has an empty timeline. *)
Theorem beats_by_instrument_keys_are_notes p :
  instruments p = [] ->
  let q := beats_by_instrument p in
  NoDup (PyDict.keys (instruments q)) /\
  (forall name, In name (PyDict.keys (instruments q))
                <-> exists n, In n (notes_of (ordered_beats p)) /\ name = py_str n) /\
  len (instruments q) = len (nodup Z.eq_dec (notes_of (ordered_beats p))) /\
  (forall name ticks, In (name, ticks) (instruments q) -> ticks <> []).
Proof.
  intros E q. destruct (instruments_from_nothing p E) as [ND K]. fold q in ND, K.
  split; [exact ND|]. split; [|split].
  - intros name. rewrite K, in_map_iff. split.
    + intros (n & En & Hn). exists n. split; [exact Hn | congruence].
    + intros (n & Hn & En). exists n. split; [congruence | exact Hn].
  - assert (P : Permutation (PyDict.keys (instruments q))
                  (map py_str (nodup Z.eq_dec (notes_of (ordered_beats p))))).
    { apply NoDup_Permutation; [exact ND | apply NoDup_map_py_str, NoDup_nodup|].
      intros name. rewrite K, !in_map_iff. split; intros (n & En & Hn);
        exists n; (split; [exact En|]); [apply nodup_In | apply nodup_In in Hn]; exact Hn. }
    apply Permutation_length in P. unfold len, PyDict.keys in *.
    rewrite !length_map in P. rewrite P. reflexivity.
  - intros name ticks Hin.
    assert (G : PyDict.get String.eqb name (instruments q) = Some ticks).
    { apply (PyDictFacts.In_get String.eqb String.eqb_eq); assumption. }
    assert (T := beats_by_instrument_timeline_of p name).
    fold q in T. unfold timeline_of at 1 2 in T. rewrite G, E in T. cbn in T.
    rewrite T. apply ticks_of_nonempty, K.
    apply (in_map fst) in Hin. exact Hin.
Qed.

Lemma beats_by_instrument_keys_are_notes_witness :
  instruments (beats_by_instrument scenario_C_beats)
  = [("36", [0; 500]); ("38", [500])] /\
  len (instruments (beats_by_instrument scenario_C_beats))
  = len (nodup Z.eq_dec (notes_of (ordered_beats scenario_C_beats))) /\
  NoDup (PyDict.keys (instruments (beats_by_instrument scenario_C_beats))).
Proof.
  destruct (beats_by_instrument_keys_are_notes scenario_C_beats) as (ND & _ & L & _).
  - reflexivity.
  - split; [reflexivity|]. split; [exact L | exact ND].
Defined.

(** *** The seed of the minimum *)

Lemma fold_right_min_is_minimum (ks : list Z) seed :
  ks <> [] -> Forall (fun k => k <= seed) ks ->
  In (fold_right Z.min seed ks) ks /\
  Forall (fun k => fold_right Z.min seed ks <= k) ks.
Proof.
  intros NE F. induction F as [|k ks Hk F IH]; [congruence|].
  destruct ks as [|k' ks].
  - simpl. replace (Z.min k seed) with k by lia.
    split; [left; reflexivity | constructor; [lia | constructor]].
  - destruct (IH ltac:(discriminate)) as [I A].
    set (r := fold_right Z.min seed (k' :: ks)) in *.
    change (fold_right Z.min seed (k :: k' :: ks)) with (Z.min k r). split.
    + destruct (Z.min_spec k r) as [[_ ->]|[_ ->]]; [left; reflexivity | right; exact I].
    + constructor; [lia|]. apply Forall_impl with (2 := A). intros z. lia.
Qed.

Lemma beat_fits_instruments p item :
  instruments p = [] -> deduplicated (ordered_beats p) ->
  In item (ordered_beats p) ->
  len (snd item) <= len (instruments (beats_by_instrument p)).
Proof.
  intros E D Hin. destruct (instruments_from_nothing p E) as [ND K].
  unfold deduplicated in D. rewrite Forall_forall in D. specialize (D item Hin).
  assert (L : (List.length (map py_str (map note (snd item)))
               <= List.length (PyDict.keys (instruments (beats_by_instrument p))))%nat).
  { apply NoDup_incl_length; [apply NoDup_map_py_str, D|].
    intros name H. apply K. unfold notes_of.
    apply in_map_iff in H. destruct H as (n & En & Hn).
    apply in_map_iff. exists n. split; [exact En|].
    apply in_flat_map. exists item. split; assumption. }
  unfold len, PyDict.keys in *. rewrite !length_map in L. lia.
Qed.

(** X10.  Seeded with [len(instruments)], the minimum the statistics end
    with is nevertheless the least beat size once [beats_by_instrument]
    has built the instruments from a deduplicated index: no beat holds
    more events than there are instruments, so the seed never wins. *)
Theorem count_loop_min_is_least_beat p :
  instruments p = [] ->
  deduplicated (ordered_beats p) ->
  ordered_beats p <> [] ->
  let q := beats_by_instrument p in
  let least := min_instruments_at_once (count_loop q) in
  (exists item, In item (ordered_beats q) /\ least = len (snd item)) /\
  (forall item, In item (ordered_beats q) -> least <= len (snd item)).
Proof.
  intros E D NE q least.
  assert (Eo : ordered_beats q = ordered_beats p) by reflexivity.
  unfold least, count_loop, PyDict.items. rewrite count_loop_min, Eo.
  cbn [min_instruments_at_once].
  set (ks := map (fun item => len (snd item)) (ordered_beats p)).
  assert (F : Forall (fun k => k <= len (instruments q)) ks).
  { unfold ks. apply Forall_map, Forall_forall. intros item Hin.
    apply (beat_fits_instruments p item E D Hin). }
  assert (NEk : ks <> []).
  { unfold ks. destruct (ordered_beats p); [congruence | discriminate]. }
  destruct (fold_right_min_is_minimum ks _ NEk F) as [I A]. split.
  - apply in_map_iff in I. destruct I as (item & Ei & Hi).
    exists item. split; [exact Hi | symmetry; exact Ei].
  - intros item Hin. rewrite Forall_forall in A. apply A.
    unfold ks. apply in_map_iff. exists item. split; [reflexivity | exact Hin].
Qed.

Lemma count_loop_min_is_least_beat_witness :
  min_instruments_at_once (count_loop (beats_by_instrument scenario_C_beats)) = 1 /\
  (forall item, In item (ordered_beats (beats_by_instrument scenario_C_beats)) ->
     min_instruments_at_once (count_loop (beats_by_instrument scenario_C_beats))
     <= len (snd item)).
Proof.
  split; [reflexivity|].
  apply (count_loop_min_is_least_beat scenario_C_beats).
  - reflexivity.
  - repeat constructor; simpl; intuition discriminate.
  - discriminate.
Defined.

(** *** Bounds on the means *)

(** The two means as rationals: the rounded quotient, and the rounded sum
    of the minimum and the rounded quotient. *)
Lemma statistics_values self log :
  ordered_beats self <> [] -> sized (ordered_beats self) ->
  let c := count_loop self in
  let n := inject_Z (len (ordered_beats self)) in
  exists a b,
    count_instruments_by_beat self log
    = Ok ([ {| mean_type := "am"; num_insts := len (instruments self);
               mean_value := Fin a |};
            {| mean_type := "bm"; num_insts := len (instruments self);
               mean_value := Fin b |} ],
          (log ++ (if len (instruments self) <? 2
                   then [Printed ("LESS THAN 2 INSTRUMENTS: "
                                  ++ mid_filename (mid self))]
                   else []))%list) /\
    (a == rne (rne (inject_Z (inst_sum c)) / rne n))%Q /\
    (b == rne (inject_Z (min_instruments_at_once c)
               + rne (rne (inject_Z (binary_sum c)) / rne n)))%Q.
Proof.
  intros NE SZ c n.
  destruct (count_loop_bounds self NE SZ) as (BL & BS & BB & BM). fold c in BS, BB, BM.
  assert (F53 : max_exact_int <= 2 ^ 1000) by (vm_compute; discriminate).
  assert (Fin_of : forall z, 0 <= z <= tick_bound ->
            of_Q (inject_Z z) = Fin (Qred (rne (inject_Z z)))).
  { intros z Hz. apply (of_Q_fin _ 1000).
    - change 0%Q with (inject_Z 0). rewrite <- Zle_Qle. lia.
    - rewrite pow2_Z by lia. rewrite <- Zle_Qle. exact (proj2 Hz).
    - unfold emin, emax, prec. lia. }
  assert (Rn := rne_Z_ge_1 _ (proj1 BL)). fold n in Rn.
  assert (Quot : forall z, 0 <= z <= tick_bound ->
            exists r, div (of_Q (inject_Z z)) (of_Q n) = Fin r /\
                      (r == rne (rne (inject_Z z) / rne n))%Q).
  { intros z Hz. unfold n.
    assert (BL0 : 0 <= len (ordered_beats self) <= tick_bound) by lia.
    rewrite (Fin_of z Hz), (Fin_of _ BL0). fold n.
    assert (Rz := rne_Z_bounds z Hz). destruct Rz as [Rz0 Rz1].
    assert (E : (Qred (rne (inject_Z z)) / Qred (rne n)
                 == rne (inject_Z z) / rne n)%Q) by (rewrite !Qred_correct; reflexivity).
    assert (Q0 : (0 <= rne (inject_Z z) / rne n)%Q) by (apply Qle_shift_div_l; lra).
    assert (Q1 : (rne (inject_Z z) / rne n <= pow2 1000)%Q).
    { apply Qle_shift_div_r; [lra|]. assert (P := pow2_pos 1000). nra. }
    unfold div. rewrite (Qeq_bool_false_pos (Qred (rne n))) by (rewrite Qred_correct; lra).
    rewrite (of_Q_fin _ 1000);
      [| rewrite E; exact Q0 | rewrite E; exact Q1 | unfold emin, emax, prec; lia].
    eexists. split; [reflexivity|]. rewrite Qred_correct. apply rne_comp, E. }
  destruct (Quot (inst_sum c) BS) as (a & Ea & Ha).
  assert (BB' : 0 <= binary_sum c <= tick_bound) by lia.
  destruct (Quot (binary_sum c) BB') as (r & Er & Hr).
  assert (R0 : (0 <= r)%Q).
  { rewrite Hr. apply rne_nonneg.
    assert (Rb := rne_Z_bounds (binary_sum c) BB'). destruct Rb as [Rb0 _].
    apply Qle_shift_div_l; lra. }
  assert (R1 : (r <= pow2 1000)%Q).
  { rewrite Hr.
    assert (Rb := rne_Z_bounds (binary_sum c) BB'). destruct Rb as [Rb0 Rb1].
    apply rne_le_pow2; [unfold emin, emax, prec; lia | apply Qle_shift_div_l; lra |].
    apply Qle_shift_div_r; [lra|]. assert (P := pow2_pos 1000). nra. }
  set (mn := min_instruments_at_once c) in *.
  assert (M0 : (0 <= inject_Z mn)%Q) by (change 0%Q with (inject_Z 0); rewrite <- Zle_Qle; lia).
  assert (M1 : (inject_Z mn <= pow2 1000)%Q).
  { rewrite pow2_Z by lia. rewrite <- Zle_Qle. lia. }
  assert (Ea' : add (of_Q (inject_Z mn)) (Fin r) = Fin (Qred (rne (inject_Z mn + r)))).
  { rewrite (of_Q_Z_exact mn BM). unfold add.
    apply (of_Q_fin _ 1001); [lra | | unfold emin, emax, prec; lia].
    assert (S : (pow2 1001 == 2 * pow2 1000)%Q).
    { change 2%Q with (pow2 1). rewrite <- pow2_add. reflexivity. }
    rewrite S. lra. }
  exists a, (Qred (rne (inject_Z mn + r))). split; [|split].
  - rewrite (count_instruments_by_beat_run self log NE SZ). cbv zeta.
    fold c n mn. rewrite Ea, Er, Ea'. reflexivity.
  - exact Ha.
  - rewrite Qred_correct. apply rne_comp. rewrite Hr. reflexivity.
Qed.

Lemma sum_ge_len (ks : list Z) :
  Forall (fun k => 1 <= k) ks -> len ks <= fold_right Z.add 0 ks.
Proof.
  unfold len. induction 1 as [|k ks H F IH]; cbn [fold_right List.length]; [lia|].
  rewrite Nat2Z.inj_succ. lia.
Qed.

Lemma max_seed_ge (ks : list Z) seed : seed <= fold_right Z.max seed ks.
Proof. induction ks as [|k ks IH]; simpl; lia. Qed.

Lemma sum_le_max (ks : list Z) seed :
  0 <= seed -> fold_right Z.add 0 ks <= fold_right Z.max seed ks * len ks.
Proof.
  intros Hs. unfold len.
  induction ks as [|k ks IH]; cbn [fold_right List.length]; [lia|].
  rewrite Nat2Z.inj_succ.
  assert (N := max_seed_ge ks seed).
  set (M := fold_right Z.max seed ks) in *. set (S := fold_right Z.add 0 ks) in *.
  assert (L := Nat2Z.is_nonneg (List.length ks)).
  destruct (Z.max_spec k M) as [[A ->]|[A ->]]; nia.
Qed.

Lemma max_le_sum (ks : list Z) :
  ks <> [] -> Forall (fun k => 1 <= k) ks ->
  fold_right Z.max 1 ks <= fold_right Z.add 0 ks.
Proof.
  intros NE F. induction F as [|k ks H F IH]; [congruence|].
  cbn [fold_right]. destruct ks as [|k' ks]; [simpl; lia|].
  specialize (IH ltac:(discriminate)).
  assert (0 <= fold_right Z.add 0 (k' :: ks)).
  { assert (G := sum_ge_len (k' :: ks) F). assert (L := len_nonneg (k' :: ks)). lia. }
  lia.
Qed.

(** X11.  On a non-empty index of non-empty beats the arithmetic mean is
    at least 1 and, as long as the events counted stay within exact
    conversion, at most the largest beat size; the binary mean lies
    between the minimum and the minimum plus one. *)
Theorem means_within_bounds self log :
  ordered_beats self <> [] ->
  sized (ordered_beats self) ->
  Forall (fun item => snd item <> []) (ordered_beats self) ->
  let c := count_loop self in
  exists am bm log' a b,
    count_instruments_by_beat self log = Ok ([am; bm], log') /\
    mean_value am = Fin a /\ mean_value bm = Fin b /\
    (1 <= a)%Q /\
    (inst_sum c <= max_exact_int ->
     (a <= inject_Z (max_instruments_at_once c))%Q) /\
    (inject_Z (min_instruments_at_once c) <= b)%Q /\
    (b <= inject_Z (min_instruments_at_once c) + 1)%Q.
Proof.
  intros NE SZ NEb c.
  destruct (statistics_values self log NE SZ) as (a & b & Run & Ha & Hb).
  destruct (count_loop_bounds self NE SZ) as (BL & BS & BB & BM).
  fold c in Ha, Hb, BS, BB, BM.
  set (n := len (ordered_beats self)) in *.
  set (ks := map (fun item => len (snd item)) (ordered_beats self)).
  assert (Fk : Forall (fun k => 1 <= k) ks).
  { unfold ks. apply Forall_map. apply Forall_impl with (2 := NEb).
    intros item H. unfold len. destruct (snd item); [congruence | simpl; lia]. }
  assert (Lk : len ks = n) by (unfold ks, n, len; rewrite length_map; reflexivity).
  assert (NEk : ks <> []).
  { unfold ks. destruct (ordered_beats self); [congruence | discriminate]. }
  assert (ES : inst_sum c = fold_right Z.add 0 ks).
  { unfold c, count_loop, PyDict.items. rewrite count_loop_inst_sum. reflexivity. }
  assert (EM : max_instruments_at_once c = fold_right Z.max 1 ks).
  { unfold c, count_loop, PyDict.items. rewrite count_loop_max. reflexivity. }
  assert (Sn : n <= inst_sum c) by (rewrite ES, <- Lk; apply sum_ge_len, Fk).
  assert (Rn := rne_Z_ge_1 n (proj1 BL)).
  assert (RS : (rne (inject_Z n) <= rne (inject_Z (inst_sum c)))%Q).
  { apply rne_le. rewrite <- Zle_Qle. exact Sn. }
  assert (RB : (rne (inject_Z (binary_sum c)) <= rne (inject_Z n))%Q).
  { apply rne_le. rewrite <- Zle_Qle. lia. }
  assert (RB0 : (0 <= rne (inject_Z (binary_sum c)))%Q).
  { apply rne_nonneg. change 0%Q with (inject_Z 0). rewrite <- Zle_Qle. lia. }
  set (r := rne (rne (inject_Z (binary_sum c)) / rne (inject_Z n))) in *.
  assert (R0 : (0 <= r)%Q).
  { unfold r. apply rne_nonneg. apply Qle_shift_div_l; lra. }
  assert (R1 : (r <= 1)%Q).
  { unfold r. change 1%Q with (pow2 0).
    apply rne_le_pow2; [unfold emin, emax, prec; lia | apply Qle_shift_div_l; lra |].
    change (pow2 0) with 1%Q. apply Qle_shift_div_r; lra. }
  set (mn := min_instruments_at_once c) in *.
  exists {| mean_type := "am"; num_insts := len (instruments self); mean_value := Fin a |},
         {| mean_type := "bm"; num_insts := len (instruments self); mean_value := Fin b |}.
  eexists _, a, b. split; [exact Run|]. split; [reflexivity|]. split; [reflexivity|].
  split; [|split; [|split]].
  - rewrite Ha. change 1%Q with (pow2 0).
    apply rne_ge_pow2; [unfold emin, emax, prec; lia|].
    change (pow2 0) with 1%Q. apply Qle_shift_div_l; lra.
  - intros S53. rewrite Ha.
    assert (Mx : max_instruments_at_once c <= inst_sum c).
    { rewrite EM, ES. apply max_le_sum; assumption. }
    assert (M1 : 1 <= max_instruments_at_once c).
    { rewrite EM. apply max_seed_ge. }
    rewrite <- (rne_Z_exact (max_instruments_at_once c)) by lia.
    apply rne_le.
    rewrite (rne_Z_exact (inst_sum c)) by lia.
    rewrite (rne_Z_exact n) by lia.
    apply Qle_shift_div_r.
    + change 0%Q with (inject_Z 0). rewrite <- Zlt_Qlt. lia.
    + rewrite <- inject_Z_mult, <- Zle_Qle.
      rewrite ES, EM, <- Lk. apply sum_le_max. lia.
  - rewrite Hb. rewrite <- (rne_Z_exact mn BM) at 1. apply rne_le. lra.
  - rewrite Hb.
    assert (U : (rne (inject_Z mn + r) <= rne (inject_Z (mn + 1)))%Q).
    { apply rne_le. rewrite inject_Z_plus. change (inject_Z 1) with 1%Q. lra. }
    destruct (Z.eq_dec mn max_exact_int) as [Em|Nm].
    + rewrite Em in *.
      assert (T : (rne (inject_Z (max_exact_int + 1)) <= inject_Z max_exact_int + 1)%Q).
      { vm_compute. discriminate. }
      lra.
    + rewrite (rne_Z_exact (mn + 1)) in U by lia.
      rewrite inject_Z_plus in U. change (inject_Z 1) with 1%Q in U. exact U.
Qed.

Lemma means_within_bounds_witness :
  exists am bm log' a b,
    count_instruments_by_beat scenario_C [] = Ok ([am; bm], log') /\
    mean_value am = Fin a /\ mean_value bm = Fin b /\
    (1 <= a)%Q /\
    (inst_sum (count_loop scenario_C) <= max_exact_int ->
     (a <= inject_Z (max_instruments_at_once (count_loop scenario_C)))%Q) /\
    (inject_Z (min_instruments_at_once (count_loop scenario_C)) <= b)%Q /\
    (b <= inject_Z (min_instruments_at_once (count_loop scenario_C)) + 1)%Q.
Proof.
  apply (means_within_bounds scenario_C []).
  - discriminate.
  - split; [vm_compute; discriminate | repeat constructor; vm_compute; discriminate].
  - repeat constructor; discriminate.
Defined.

(** ** The encoder draws the grid *)

Lemma string_length_app (a b : string) :
  String.length (a ++ b) = (String.length a + String.length b)%nat.
Proof. induction a as [|c a IH]; simpl; [reflexivity | rewrite IH; reflexivity]. Qed.

Lemma string_app_nil_r (a : string) : a ++ "" = a.
Proof. induction a as [|c a IH]; simpl; [reflexivity | rewrite IH; reflexivity]. Qed.

Lemma grid_from_length marked first n :
  String.length (grid_from marked first n) = n.
Proof. revert first. induction n as [|n IH]; intros first; simpl; [|rewrite IH]; reflexivity. Qed.

Lemma grid_from_app marked first n k :
  grid_from marked first (n + k)
  = grid_from marked first n ++ grid_from marked (first + Z.of_nat n) k.
Proof.
  revert first. induction n as [|n IH]; intros first.
  - simpl. replace (first + 0) with first by lia. reflexivity.
  - cbn [Nat.add grid_from append]. rewrite IH. do 3 f_equal. lia.
Qed.

Lemma grid_from_ext marked marked' first n :
  (forall i, first <= i < first + Z.of_nat n ->
     existsb (Z.eqb i) marked = existsb (Z.eqb i) marked') ->
  grid_from marked first n = grid_from marked' first n.
Proof.
  revert first. induction n as [|n IH]; intros first H; simpl; [reflexivity|].
  rewrite (H first) by lia. f_equal. apply IH. intros i Hi. apply H. lia.
Qed.

Lemma existsb_eqb_In i (l : list Z) : existsb (Z.eqb i) l = true <-> In i l.
Proof.
  rewrite existsb_exists. split.
  - intros (x & Hx & E). apply Z.eqb_eq in E. congruence.
  - intros H. exists i. split; [exact H | apply Z.eqb_refl].
Qed.

Lemma existsb_eqb_false i (l : list Z) : ~ In i l -> existsb (Z.eqb i) l = false.
Proof.
  intros N. destruct (existsb (Z.eqb i) l) eqn:E; [|reflexivity].
  apply existsb_eqb_In in E. contradiction.
Qed.

(** What the loops [for _ in range(a, b): tubs += "."] add. *)
Lemma dots_loop marked (l : list Z) : forall tubs first,
  (forall i, first <= i < first + Z.of_nat (List.length l) -> ~ In i marked) ->
  fold_left (fun s _ => s ++ ".") l tubs
  = tubs ++ grid_from marked first (List.length l).
Proof.
  induction l as [|x l IH]; intros tubs first H; cbn [fold_left List.length grid_from].
  - rewrite string_app_nil_r. reflexivity.
  - rewrite (IH _ (first + 1)).
    + rewrite existsb_eqb_false by (apply H; cbn [List.length]; lia).
      rewrite string_app_assoc. reflexivity.
    + intros i Hi. apply H. cbn [List.length]. lia.
Qed.

Lemma py_range_length a b : List.length (py_range a b) = Z.to_nat (b - a).
Proof. unfold py_range. rewrite length_map, length_seq. reflexivity. Qed.

Lemma Qceiling_unit q : (0 < q)%Q -> (q <= 1)%Q -> Qceiling q = 1.
Proof.
  intros H0 H1.
  assert (U := Qceiling_resp_le _ _ H1). change (Qceiling 1) with 1 in U.
  assert (L := Qle_ceiling q).
  assert (0 < Qceiling q); [|lia].
  rewrite Zlt_Qlt. change (inject_Z 0) with 0%Q. lra.
Qed.

Section Encoder.
Variable self : MidiProcessor.
Hypothesis resolution : 12 <= ticks_per_beat self <= tick_bound.

Local Abbreviation q := (spec_quantize (ticks_per_beat self)).

(** With twelve ticks or more to the beat a slot is at least one tick
    wide, and tick 1 falls into slot 1. *)
Lemma quantize_1 : q 1 = 1.
Proof.
  unfold spec_quantize.
  assert (W := slot_width_bounds (ticks_per_beat self) ltac:(lia)). cbv zeta in W.
  destruct W as [_ W1].
  set (w := rne (rne (inject_Z (ticks_per_beat self)) / 12)) in *.
  assert (T12 : (12 <= rne (inject_Z (ticks_per_beat self)))%Q).
  { assert (E : (rne (inject_Z 12) == 12)%Q) by (apply rne_Z_exact; vm_compute; split; discriminate).
    rewrite <- E. apply rne_le. rewrite <- Zle_Qle. lia. }
  assert (W0 : (1 <= w)%Q).
  { unfold w. change 1%Q with (pow2 0).
    apply rne_ge_pow2; [unfold emin, emax, prec; lia|].
    change (pow2 0) with 1%Q. rewrite Qdiv_12. lra. }
  assert (E1 : (rne (inject_Z 1) == 1)%Q) by reflexivity.
  assert (P : (pow2 (-1000) * pow2 1000 == 1)%Q).
  { rewrite <- pow2_add. reflexivity. }
  assert (P0 := pow2_pos (-1000)). assert (P1 := pow2_pos 1000).
  apply Qceiling_unit.
  - apply Qlt_le_trans with (pow2 (-1000)); [exact P0|].
    apply rne_ge_pow2; [unfold emin, emax, prec; lia|].
    rewrite E1. apply Qle_shift_div_l; [lra|]. nra.
  - apply (rne_le_pow2 _ 0); [unfold emin, emax, prec; lia | |].
    + rewrite E1. apply Qle_shift_div_l; lra.
    + change (pow2 0) with 1%Q. rewrite E1. apply Qle_shift_div_r; lra.
Qed.

Lemma quantize_le a b : a <= b -> q a <= q b.
Proof. intros H. apply spec_quantize_le; lia. Qed.

Lemma quantize_0 : q 0 = 0.
Proof. apply spec_quantize_0. Qed.

Lemma get_tubs_placement_q tick :
  0 <= tick <= tick_bound -> get_tubs_placement self tick = Ok (q tick).
Proof. intros H. apply get_tubs_placement_spec; [lia | exact H]. Qed.

Lemma timeline_tick_draws marked prev_tick tubs tick :
  0 <= prev_tick <= tick -> tick <= tick_bound ->
  drawn (ticks_per_beat self) marked prev_tick tubs ->
  exists tubs',
    timeline_tick self (prev_tick, tubs) tick
    = Ok ((if tick =? 0 then 1 else tick), tubs') /\
    drawn (ticks_per_beat self)
          (marked ++ [drawn_slot (ticks_per_beat self) tick])
          (if tick =? 0 then 1 else tick) tubs'.
Proof.
  intros [Hp Hpt] Hb (Et & Fm & Im).
  unfold timeline_tick, drawn_slot, drawn in *.
  rewrite (get_tubs_placement_q tick) by lia. cbn [bind].
  rewrite (get_tubs_placement_q prev_tick) by lia. cbn [bind].
  assert (Q1 := quantize_1). assert (Q0 := quantize_0).
  destruct (Z.eqb_spec tick 0) as [->|Nz].
  - (* the attack at tick 0 *)
    assert (prev_tick = 0) by lia. subst prev_tick.
    rewrite Q0 in *. cbn [py_range Z.sub Z.add Z.opp Z.to_nat seq map fold_left
                          Z.eqb Z.gtb Z.compare andb].
    assert (marked = []).
    { destruct marked as [|s l]; [reflexivity|]. inversion Fm; subst. lia. }
    subst marked. eexists. split; [reflexivity|]. subst tubs.
    split; [|split].
    + rewrite Q1. reflexivity.
    + rewrite Q1. constructor; [lia | constructor].
    + intros _. rewrite Q1. left. reflexivity.
  - assert (Ht : 1 <= tick) by lia.
    assert (S1 : 1 <= q tick) by (rewrite <- Q1; apply quantize_le, Ht).
    assert (Sp : q prev_tick <= q tick) by (apply quantize_le, Hpt).
    assert (P0 : 0 <= q prev_tick) by (rewrite <- Q0; apply quantize_le, Hp).
    replace (tick >? 0) with true by (symmetry; apply Z.gtb_lt; lia).
    rewrite andb_true_r.
    destruct (Z.eqb_spec (q prev_tick) (q tick)) as [Es|Ns].
    + (* a second attack in a slot already marked *)
      assert (Pp : 0 < prev_tick).
      { destruct (Z.eq_dec prev_tick 0) as [->|]; [rewrite Q0 in Es; lia | lia]. }
      assert (Er : py_range (q prev_tick + 1) (q tick) = []).
      { unfold py_range. replace (Z.to_nat (q tick - (q prev_tick + 1))) with 0%nat by lia.
        reflexivity. }
      rewrite Er. cbn [fold_left]. eexists. split; [reflexivity|].
      split; [|split].
      * rewrite Et, Es. unfold grid. apply grid_from_ext. intros i Hi.
        rewrite existsb_app. cbn [existsb]. rewrite orb_false_r.
        destruct (Z.eqb_spec i (q tick)) as [->|Ni]; [|rewrite orb_false_r; reflexivity].
        rewrite orb_true_r. apply existsb_eqb_In. rewrite <- Es. apply Im, Pp.
      * apply Forall_app. split.
        -- apply Forall_impl with (2 := Fm). intros s. lia.
        -- constructor; [lia | constructor].
      * intros _. apply in_or_app. right. left. reflexivity.
    + (* a new slot: the dots up to it, then the mark *)
      assert (Lt : q prev_tick < q tick) by lia.
      rewrite (dots_loop marked _ _ (q prev_tick + 1)).
      2:{ rewrite py_range_length. intros i Hi Hin.
          rewrite Forall_forall in Fm. specialize (Fm i Hin). lia. }
      rewrite py_range_length. eexists. split; [reflexivity|].
      split; [|split].
      * unfold grid.
        replace (Z.to_nat (q tick))
          with (Z.to_nat (q prev_tick)
                + (Z.to_nat (q tick - (q prev_tick + 1)) + 1))%nat by lia.
        rewrite grid_from_app, grid_from_app, Et. unfold grid.
        rewrite string_app_assoc. f_equal; [|f_equal].
        -- apply grid_from_ext. intros i Hi. rewrite existsb_app. cbn [existsb].
           rewrite orb_false_r.
           destruct (Z.eqb_spec i (q tick)) as [->|Ni]; [lia|].
           rewrite orb_false_r. reflexivity.
        -- rewrite Z2Nat.id by lia. rewrite (Z.add_comm 1).
           apply grid_from_ext. intros i Hi.
           rewrite existsb_app. cbn [existsb]. rewrite orb_false_r.
           destruct (Z.eqb_spec i (q tick)) as [->|Ni]; [lia|].
           rewrite orb_false_r. reflexivity.
        -- cbn [grid_from]. rewrite existsb_app. cbn [existsb].
           replace (1 + Z.of_nat (Z.to_nat (q prev_tick))
                    + Z.of_nat (Z.to_nat (q tick - (q prev_tick + 1))))
             with (q tick) by lia.
           rewrite Z.eqb_refl, orb_true_r. reflexivity.
      * apply Forall_app. split.
        -- apply Forall_impl with (2 := Fm). intros s. lia.
        -- constructor; [lia | constructor].
      * intros _. apply in_or_app. right. left. reflexivity.
Qed.

Lemma timeline_loop_draws ticks : forall marked prev_tick tubs,
  StronglySorted Z.lt ticks ->
  Forall (fun t => prev_tick <= t <= tick_bound) ticks ->
  0 <= prev_tick ->
  drawn (ticks_per_beat self) marked prev_tick tubs ->
  exists tubs',
    foldM (timeline_tick self) ticks (prev_tick, tubs)
    = Ok (fold_left (fun _ t => if t =? 0 then 1 else t) ticks prev_tick, tubs') /\
    drawn (ticks_per_beat self)
          (marked ++ map (drawn_slot (ticks_per_beat self)) ticks)
          (fold_left (fun _ t => if t =? 0 then 1 else t) ticks prev_tick) tubs'.
Proof.
  induction ticks as [|t ticks IH]; intros marked prev_tick tubs St Ft Hp D.
  - exists tubs. cbn [foldM fold_left map]. rewrite app_nil_r. split; [reflexivity | exact D].
  - apply StronglySorted_inv in St. destruct St as [St Flt].
    inversion Ft as [|? ? [Ht1 Ht2] Ft']; subst.
    destruct (timeline_tick_draws marked prev_tick tubs t) as (tubs1 & E1 & D1);
      [lia | exact Ht2 | exact D |].
    cbn [foldM fold_left map]. rewrite E1. cbn [bind].
    set (p1 := if t =? 0 then 1 else t) in *.
    assert (P1 : 0 <= p1) by (unfold p1; destruct (t =? 0); lia).
    destruct (IH (marked ++ [drawn_slot (ticks_per_beat self) t])%list p1 tubs1 St)
      as (tubs2 & E2 & D2); [| exact P1 | exact D1 |].
    + rewrite Forall_forall in *. intros x Hx. specialize (Flt x Hx).
      specialize (Ft' x Hx). unfold p1. destruct (Z.eqb_spec t 0); lia.
    + exists tubs2. rewrite <- app_assoc in D2. split; [exact E2 | exact D2].
Qed.

Lemma timeline_draws ticks :
  StronglySorted Z.lt ticks ->
  Forall (fun t => 0 <= t <= tick_bound) ticks ->
  0 <= max_track_len self <= tick_bound ->
  let marked := map (drawn_slot (ticks_per_beat self)) ticks in
  let last_slot := q (last_seen ticks) in
  let end_slot := q (max_track_len self) in
  timeline self ticks
  = Ok (grid marked (Z.max last_slot end_slot), last_slot, end_slot).
Proof.
  intros St Ft Hm marked last_slot end_slot.
  assert (Q0 := quantize_0).
  destruct (timeline_loop_draws ticks [] 0 "" St Ft ltac:(lia)) as (tubs & E & D).
  { split; [rewrite Q0; reflexivity|]. split; [constructor | lia]. }
  cbn [app] in D. fold (last_seen ticks) in E, D. fold marked in D.
  destruct D as (Et & Fm & _). fold last_slot in Et, Fm.
  assert (L0 : 0 <= last_seen ticks <= tick_bound).
  { unfold last_seen. clear -Ft.
    assert (G : forall p, 0 <= p <= tick_bound ->
              0 <= fold_left (fun _ t => if t =? 0 then 1 else t) ticks p <= tick_bound).
    { induction Ft as [|t ticks Ht Ft IH]; intros p Hp; cbn [fold_left]; [exact Hp|].
      apply IH. destruct (t =? 0); [unfold tick_bound; lia | exact Ht]. }
    apply G. unfold tick_bound. lia. }
  unfold timeline. rewrite E. cbn [bind].
  rewrite (get_tubs_placement_q (last_seen ticks) L0). cbn [bind].
  rewrite (get_tubs_placement_q (max_track_len self) Hm). cbn [bind].
  fold last_slot end_slot.
  assert (P0 : 0 <= last_slot) by (unfold last_slot; rewrite <- Q0; apply quantize_le; lia).
  destruct (Z.ltb_spec last_slot end_slot) as [Lt|Ge].
  - rewrite (dots_loop marked _ _ (last_slot + 1)).
    2:{ rewrite py_range_length. intros i Hi Hin.
        rewrite Forall_forall in Fm. specialize (Fm i Hin). lia. }
    rewrite py_range_length. do 3 f_equal.
    replace (Z.max last_slot end_slot) with end_slot by lia.
    rewrite Et. unfold grid.
    replace (Z.to_nat end_slot)
      with (Z.to_nat last_slot + Z.to_nat (end_slot + 1 - (last_slot + 1)))%nat by lia.
    rewrite grid_from_app. do 2 f_equal. lia.
  - replace (Z.max last_slot end_slot) with last_slot by lia. rewrite Et. reflexivity.
Qed.

End Encoder.

(** X12.  With twelve ticks or more to the beat and ascending,
    non-negative ticks, the encoder draws the grid: its string has one
    symbol for each slot from 1 to the larger of the last attack's slot and
    the slot of the track's end, ["X"] in the slots its ticks quantize to
    (tick 0 counted as tick 1) and ["."] in the others, and the two slots
    it reports are those. *)
Theorem timeline_is_grid self ticks :
  12 <= ticks_per_beat self <= tick_bound ->
  0 <= max_track_len self <= tick_bound ->
  StronglySorted Z.lt ticks ->
  Forall (fun t => 0 <= t <= tick_bound) ticks ->
  let marked := map (drawn_slot (ticks_per_beat self)) ticks in
  let last_slot := spec_quantize (ticks_per_beat self) (last_seen ticks) in
  let end_slot := spec_quantize (ticks_per_beat self) (max_track_len self) in
  timeline self ticks
  = Ok (grid marked (Z.max last_slot end_slot), last_slot, end_slot) /\
  String.length (grid marked (Z.max last_slot end_slot))
  = Z.to_nat (Z.max last_slot end_slot).
Proof.
  intros R Hm St Ft marked last_slot end_slot. split.
  - apply (timeline_draws self R ticks St Ft Hm).
  - apply grid_from_length.
Qed.

Lemma timeline_is_grid_witness :
  timeline scenario_A scenario_A_ticks = Ok (grid [1; 12; 24] 36, 24, 36) /\
  String.length (grid [1; 12; 24] 36) = 36%nat.
Proof.
  assert (E : map (drawn_slot (ticks_per_beat scenario_A)) scenario_A_ticks = [1; 12; 24])
    by (vm_compute; reflexivity).
  assert (L : spec_quantize (ticks_per_beat scenario_A) (last_seen scenario_A_ticks) = 24)
    by (vm_compute; reflexivity).
  assert (N : spec_quantize (ticks_per_beat scenario_A) (max_track_len scenario_A) = 36)
    by (vm_compute; reflexivity).
  destruct (timeline_is_grid scenario_A scenario_A_ticks) as [T Len].
  - split; [vm_compute | vm_compute]; discriminate.
  - split; [vm_compute | vm_compute]; discriminate.
  - repeat constructor.
  - repeat constructor; vm_compute; discriminate.
  - cbv zeta in T, Len. rewrite E, L, N in T, Len.
    split; [exact T | exact Len].
Defined.

Lemma subseq_In {A : Type} (s l : list A) x : subseq s l -> In x s -> In x l.
Proof.
  induction 1 as [|y s l H IH|y s l H IH]; simpl; [tauto | |].
  - intros Hx. right. apply IH, Hx.
  - intros [->|Hx]; [left; reflexivity | right; apply IH, Hx].
Qed.

(** The timelines of the pipeline: ascending, and made of ticks of
    [beats]. *)
Lemma pipeline_timelines p' name ticks :
  beats_invariant (beats p') -> instruments p' = [] ->
  In (name, ticks) (instruments (beats_by_instrument (setup_variables p'))) ->
  StronglySorted Z.lt ticks /\
  forall t, In t ticks -> In t (PyDict.keys (beats p')).
Proof.
  intros [ND F] I Hin.
  set (ordered := py_sorted (PyDict.items (beats p'))).
  assert (Ei : instruments (beats_by_instrument (setup_variables p'))
               = fold_left beats_by_instrument_beat ordered PyDict.empty).
  { unfold beats_by_instrument, setup_variables.
    cbn [instruments ordered_beats with_instruments with_ordered_beats PyDict.items].
    rewrite I. reflexivity. }
  assert (S : StronglySorted Z.lt (PyDict.keys ordered)).
  { apply py_sorted_keys_strict, ND. }
  assert (D : deduplicated ordered).
  { unfold deduplicated. apply (Permutation_Forall (x := beats p')).
    - apply Permutation_sym, py_sorted_perm.
    - apply Forall_impl with (2 := F). intros item (_ & _ & H). exact H. }
  rewrite Ei in Hin.
  assert (G : PyDict.get String.eqb name
                (fold_left beats_by_instrument_beat ordered PyDict.empty)
              = Some ticks).
  { apply (PyDictFacts.In_get String.eqb String.eqb_eq); [|exact Hin].
    apply beats_by_instrument_keys. constructor. }
  assert (T : ticks = ticks_of name ordered).
  { assert (L := beats_by_instrument_timeline name ordered PyDict.empty).
    unfold timeline_of at 1 in L. rewrite G in L. exact L. }
  assert (Sub := ticks_of_subseq name ordered D). rewrite <- T in Sub.
  split; [apply (subseq_sorted Z.lt ticks _ Sub S)|].
  intros t Ht. apply (subseq_In _ _ t Sub) in Ht.
  apply (Permutation_in _ (Permutation_map fst (py_sorted_perm (beats p')))), Ht.
Qed.

Lemma last_seen_bounded ticks hi :
  1 <= hi -> Forall (fun t => 0 <= t <= hi) ticks -> 0 <= last_seen ticks <= hi.
Proof.
  intros H1 F. unfold last_seen.
  assert (G : forall p, 0 <= p <= hi ->
            0 <= fold_left (fun _ t => if t =? 0 then 1 else t) ticks p <= hi).
  { induction F as [|t ticks Ht F IH]; intros p Hp; cbn [fold_left]; [exact Hp|].
    apply IH. destruct (t =? 0); lia. }
  apply G. lia.
Qed.

(** X13.  After the scan of a file with non-negative deltas, twelve ticks
    or more to the beat and a longest track of at least one tick, the
    encoder succeeds on every instrument's timeline and all their strings
    have the same length, the slot of the track's end; the slot of the
    last attack is never beyond it. *)
Theorem timelines_are_aligned m path rt p' :
  process_tracks (init m path rt) = Ok p' ->
  Forall (Forall (fun msg => 0 <= time msg)) (mid_tracks m) ->
  12 <= mid_ticks_per_beat m <= tick_bound ->
  1 <= max_track_len p' <= tick_bound ->
  let q := beats_by_instrument (setup_variables p') in
  let end_slot := spec_quantize (mid_ticks_per_beat m) (max_track_len p') in
  forall name ticks, In (name, ticks) (instruments q) ->
    exists tubs last_slot,
      timeline q ticks = Ok (tubs, last_slot, end_slot) /\
      Z.of_nat (String.length tubs) = end_slot /\
      last_slot <= end_slot.
Proof.
  intros E Fn R Hm q end_slot name ticks Hin.
  assert (Inv := process_tracks_beats _ _ E (init_beats_invariant m path rt)).
  destruct (process_tracks_same_file _ _ E) as (_ & _ & Tpb & I & _).
  cbn [instruments ticks_per_beat init] in I, Tpb.
  destruct (pipeline_timelines p' name ticks Inv I Hin) as [St Keys].
  assert (B : Forall (fun t => 0 <= t <= max_track_len p') ticks).
  { apply Forall_forall. intros t Ht. specialize (Keys t Ht).
    apply in_map_iff in Keys. destruct Keys as ([t' events] & Et & Hb).
    cbn [fst] in Et. subst t'.
    unfold process_tracks in E. cbn [mid init] in E.
    destruct (process_tracks_ticks_bounded _ _ _ E Fn) as [_ Bd];
      [cbn; lia | constructor |].
    rewrite Forall_forall in Bd. apply (Bd (t, events) Hb). }
  assert (Tq : ticks_per_beat q = mid_ticks_per_beat m) by exact Tpb.
  assert (Mq : max_track_len q = max_track_len p') by reflexivity.
  assert (Rq : 12 <= ticks_per_beat q <= tick_bound) by (rewrite Tq; exact R).
  assert (Ft : Forall (fun t => 0 <= t <= tick_bound) ticks).
  { apply Forall_impl with (2 := B). intros t. lia. }
  assert (T := timeline_draws q Rq ticks St Ft ltac:(rewrite Mq; lia)).
  cbv zeta in T. rewrite Tq, Mq in T. fold end_slot in T.
  assert (L := last_seen_bounded ticks (max_track_len p') (proj1 Hm) B).
  assert (Le : spec_quantize (mid_ticks_per_beat m) (last_seen ticks) <= end_slot).
  { apply spec_quantize_le; lia. }
  assert (E0 : 0 <= end_slot).
  { unfold end_slot. rewrite <- (spec_quantize_0 (mid_ticks_per_beat m)).
    apply spec_quantize_le; lia. }
  eexists _, _. split; [exact T|]. split; [|exact Le].
  unfold grid. rewrite grid_from_length. lia.
Qed.

Lemma timelines_are_aligned_witness :
  exists p', process_tracks (init two_tracks "song.mid" "") = Ok p' /\
    forall name ticks,
      In (name, ticks) (instruments (beats_by_instrument (setup_variables p'))) ->
      exists tubs last_slot,
        timeline (beats_by_instrument (setup_variables p')) ticks
        = Ok (tubs, last_slot, 18) /\
        Z.of_nat (String.length tubs) = 18 /\ last_slot <= 18.
Proof.
  eexists. split; [vm_compute; reflexivity|].
  apply (timelines_are_aligned two_tracks "song.mid" "").
  - vm_compute. reflexivity.
  - simpl. repeat constructor; simpl; lia.
  - split; vm_compute; discriminate.
  - split; vm_compute; discriminate.
Defined.

(** ** The timelines of a scanned file *)

Lemma for_each_ok {A : Type} (f : A -> IO unit) (l : list A) :
  (forall x log, In x l -> exists log', f x log = Ok (tt, log')) ->
  forall log, exists log', for_each f l log = Ok (tt, log').
Proof.
  induction l as [|x l IH]; intros H log; cbn [for_each].
  - exists log. reflexivity.
  - unfold iobind. destruct (H x log (or_introl eq_refl)) as [log1 E]. rewrite E.
    apply IH. intros y log0 Hy. apply H. right. exact Hy.
Qed.

Lemma create_timelines_ok (PercussionDevicesEnum : Z -> result string) self :
  (forall n, 33 < n <= 81 -> exists name, PercussionDevicesEnum n = Ok name) ->
  (forall name ticks, In (name, ticks) (instruments self) ->
     (exists n, name = py_str n) /\ exists line, timeline self ticks = Ok line) ->
  forall log, exists log', create_timelines PercussionDevicesEnum self log = Ok (tt, log').
Proof.
  intros He Hi log. unfold create_timelines, iobind, print.
  apply for_each_ok. intros [name ticks] log0 Hin.
  destruct (Hi name ticks Hin) as [[n ->] [[[tubs last_slot] end_slot] Et]].
  unfold create_timelines_instrument, iobind. cbn [fst snd].
  rewrite print_instrument_name_py_str.
  destruct ((33 <? n) && (n <=? 81)) eqn:C.
  - apply andb_true_iff in C. destruct C as [C1 C2].
    apply Z.ltb_lt in C1. apply Z.leb_le in C2.
    destruct (He n (conj C1 C2)) as [nm ->].
    unfold lift. rewrite Et. unfold print. eexists. reflexivity.
  - unfold lift. rewrite Et. unfold print. eexists. reflexivity.
Qed.

(** X14.  On the state that [process_tracks], [setup_variables] and
    [beats_by_instrument] build from a file with non-negative deltas,
    twelve ticks or more to the beat and tracks within [tick_bound],
    [create_timelines] raises nothing when the enumeration knows the notes
    34 to 81: every key is a numeral [int] reads back, and the encoder
    succeeds on every timeline. *)
Theorem create_timelines_completes (PercussionDevicesEnum : Z -> result string)
  (m : MidiFile) (path rt : string) (p' : MidiProcessor) (log : list event) :
  process_tracks (init m path rt) = Ok p' ->
  Forall (Forall (fun msg => 0 <= time msg)) (mid_tracks m) ->
  12 <= mid_ticks_per_beat m <= tick_bound ->
  max_track_len p' <= tick_bound ->
  (forall n, 33 < n <= 81 -> exists name, PercussionDevicesEnum n = Ok name) ->
  exists log',
    create_timelines PercussionDevicesEnum
      (beats_by_instrument (setup_variables p')) log
    = Ok (tt, log').
Proof.
  intros E Fn R Hm He.
  assert (Inv := process_tracks_beats _ _ E (init_beats_invariant m path rt)).
  destruct (process_tracks_same_file _ _ E) as (_ & _ & Tpb & I & _).
  cbn [instruments ticks_per_beat init] in I, Tpb.
  assert (E' := E). unfold process_tracks in E'. cbn [mid init] in E'.
  assert (M : 0 <= max_track_len p' <= tick_bound).
  { assert (Z0 : 0 <= max_track_len (init m path rt)) by (cbn; lia).
    rewrite (process_tracks_max _ _ _ Z0 E') in *. cbn [max_track_len init] in *. lia. }
  set (q := beats_by_instrument (setup_variables p')).
  assert (Rq : 12 <= ticks_per_beat q <= tick_bound).
  { change (ticks_per_beat q) with (ticks_per_beat p'). rewrite Tpb. exact R. }
  apply (create_timelines_ok PercussionDevicesEnum q He).
  intros name ticks Hin. split.
  - destruct (instruments_from_nothing (setup_variables p') I) as [_ K].
    fold q in K. apply (in_map fst) in Hin. cbn [fst] in Hin. apply K in Hin.
    apply in_map_iff in Hin. destruct Hin as (n & En & _). exists n. congruence.
  - destruct (pipeline_timelines p' name ticks Inv I Hin) as [St Keys].
    assert (Ft : Forall (fun t => 0 <= t <= tick_bound) ticks).
    { apply Forall_forall. intros t Hin'. specialize (Keys t Hin').
      apply in_map_iff in Keys. destruct Keys as ([t' events] & Et & Hb).
      cbn [fst] in Et. subst t'.
      destruct (process_tracks_ticks_bounded _ _ _ E' Fn) as [_ Bd];
        [cbn; lia | constructor |].
      rewrite Forall_forall in Bd. specialize (Bd (t, events) Hb). cbn [fst] in Bd. lia. }
    eexists. apply (timeline_draws q Rq ticks St Ft M).
Qed.

Lemma create_timelines_completes_witness :
  exists p', process_tracks (init two_tracks "song.mid" "") = Ok p' /\
    exists log',
      create_timelines (fun n => Ok ("PercussionDevicesEnum." ++ py_str n))
        (beats_by_instrument (setup_variables p')) []
      = Ok (tt, log').
Proof.
  eexists. split; [vm_compute; reflexivity|].
  apply (create_timelines_completes (fun n => Ok ("PercussionDevicesEnum." ++ py_str n))
           two_tracks "song.mid" "").
  - vm_compute. reflexivity.
  - simpl. repeat constructor; simpl; lia.
  - split; vm_compute; discriminate.
  - vm_compute. discriminate.
  - intros n _. eexists. reflexivity.
Defined.

(** ** Exact quantization at the usual resolutions *)

Lemma Qceiling_between y n :
  (inject_Z n < y)%Q -> (y <= inject_Z (n + 1))%Q -> Qceiling y = n + 1.
Proof.
  intros L U.
  assert (A := Qceiling_resp_le _ _ U). rewrite Qceiling_Z in A.
  assert (B := Qle_ceiling y).
  assert (n < Qceiling y); [|lia].
  rewrite Zlt_Qlt. lra.
Qed.

(** Rounding a quotient of integers below [2^53] never reaches the
    integer below it. *)
Lemma rne_quotient_above tick w n :
  1 <= w <= max_exact_int -> 0 <= n -> w * n < tick -> tick < max_exact_int ->
  (inject_Z n < rne (inject_Z tick / inject_Z w))%Q.
Proof.
  intros [Hw Hw53] Hn Hlt Hb.
  set (x := (inject_Z tick / inject_Z w)%Q).
  assert (W0 : (0 < inject_Z w)%Q).
  { change 0%Q with (inject_Z 0). rewrite <- Zlt_Qlt. lia. }
  assert (Xw : (x * inject_Z w == inject_Z tick)%Q).
  { unfold x. field. lra. }
  assert (T1 : (inject_Z (w * n) + 1 <= inject_Z tick)%Q).
  { change 1%Q with (inject_Z 1). rewrite <- inject_Z_plus, <- Zle_Qle. lia. }
  rewrite inject_Z_mult in T1.
  assert (Tb : (inject_Z tick < pow2 53)%Q).
  { rewrite pow2_Z by lia. rewrite <- Zlt_Qlt. exact Hb. }
  assert (Wb : (inject_Z w <= pow2 53)%Q).
  { rewrite pow2_Z by lia. rewrite <- Zle_Qle. exact Hw53. }
  assert (N0 : (0 <= inject_Z n)%Q).
  { change 0%Q with (inject_Z 0). rewrite <- Zle_Qle. exact Hn. }
  assert (Xpos : (0 < x)%Q).
  { unfold x. apply Qlt_shift_div_l; [exact W0|]. nra. }
  (* the binade of x *)
  assert (P53 : (pow2 (-53) * pow2 53 == 1)%Q) by (rewrite <- pow2_add; reflexivity).
  assert (Pm := pow2_pos (-53)). assert (Pp := pow2_pos 53).
  assert (Xlo : (pow2 (-53) <= x)%Q).
  { unfold x. apply Qle_shift_div_l; [exact W0|]. nra. }
  assert (Le : - 53 <= ilog2 x).
  { assert (L := ilog2_le (pow2 (-53)) x Pm Xlo). rewrite ilog2_pow2 in L. exact L. }
  destruct (ilog2_spec x Xpos) as [Elo _].
  assert (Fe : fexp (ilog2 x) = ilog2 x - 52).
  { unfold fexp, emin, emax, prec. lia. }
  destruct (rne_pos_nearest x Xpos) as [_ Near]. cbv zeta in Near.
  rewrite Fe in Near.
  assert (U : (pow2 (ilog2 x - 52) == pow2 (ilog2 x) * pow2 (-52))%Q).
  { rewrite <- pow2_add. replace (ilog2 x + -52) with (ilog2 x - 52) by lia. reflexivity. }
  assert (P52 : (pow2 (-52) == 2 * pow2 (-53))%Q).
  { change 2%Q with (pow2 1). rewrite <- pow2_add. reflexivity. }
  rewrite (rne_pos_eq x Xpos).
  apply Qabs_Qle_condition in Near. destruct Near as [Near _].
  set (u := pow2 (ilog2 x - 52)) in *. set (pe := pow2 (ilog2 x)) in *.
  set (R := rne_pos x) in *.
  (* rne x >= x - u/2, u/2 <= x * 2^-53, and x * 2^-53 * w = tick * 2^-53 < 1 *)
  assert (H1 : (u * (1 # 2) <= x * pow2 (-53))%Q).
  { rewrite U, P52. nra. }
  assert (H2 : (x * pow2 (-53) * inject_Z w < 1)%Q).
  { assert (E : (x * pow2 (-53) * inject_Z w == inject_Z tick * pow2 (-53))%Q).
    { rewrite <- Xw. ring. }
    rewrite E. nra. }
  assert (H3 : (inject_Z n * inject_Z w + 1 <= x * inject_Z w)%Q).
  { rewrite Xw. rewrite (Qmult_comm (inject_Z n)). exact T1. }
  apply (Qmult_lt_r _ _ (inject_Z w) W0).
  assert (H4 : (x * inject_Z w - x * pow2 (-53) * inject_Z w <= R * inject_Z w)%Q).
  { assert (G : (x - x * pow2 (-53) <= R)%Q) by lra.
    assert (G' := Qmult_le_compat_r _ _ (inject_Z w) G (Qlt_le_weak _ _ W0)).
    assert (E : ((x - x * pow2 (-53)) * inject_Z w
                 == x * inject_Z w - x * pow2 (-53) * inject_Z w)%Q) by ring.
    rewrite <- E. exact G'. }
  lra.
Qed.

Lemma spec_quantize_exact w tick :
  1 <= w -> 12 * w <= max_exact_int -> 0 <= tick < max_exact_int ->
  spec_quantize (12 * w) tick = (tick + w - 1) / w.
Proof.
  intros Hw Hb [Ht0 Ht1]. unfold spec_quantize.
  assert (M53 : max_exact_int = 2 ^ 53) by reflexivity.
  assert (E1 : (rne (inject_Z (12 * w)) == inject_Z (12 * w))%Q)
    by (apply rne_Z_exact; lia).
  assert (E2 : (rne (rne (inject_Z (12 * w)) / 12) == inject_Z w)%Q).
  { rewrite <- (rne_Z_exact w) by lia. apply rne_comp.
    rewrite E1, inject_Z_mult. change (inject_Z 12) with 12%Q. field. }
  assert (E3 : (rne (inject_Z tick) == inject_Z tick)%Q) by (apply rne_Z_exact; lia).
  assert (W0 : (0 < inject_Z w)%Q).
  { change 0%Q with (inject_Z 0). rewrite <- Zlt_Qlt. lia. }
  assert (Ex : (rne (rne (inject_Z tick) / rne (rne (inject_Z (12 * w)) / 12))
                == rne (inject_Z tick / inject_Z w))%Q).
  { apply rne_comp. rewrite E2, E3. reflexivity. }
  rewrite (Qceiling_comp _ _ Ex).
  set (n := tick / w).
  assert (Dv := Z.div_mod tick w ltac:(lia)).
  assert (Md := Z.mod_pos_bound tick w ltac:(lia)). fold n in Dv.
  assert (Hn : 0 <= n) by (apply Z.div_pos; lia).
  destruct (Z.eq_dec (tick mod w) 0) as [Ez|Nz].
  - (* tick is a multiple of the slot width *)
    assert (Et : tick = w * n) by lia.
    assert (R : (tick + w - 1) / w = n).
    { symmetry. apply (Z.div_unique _ _ _ (w - 1)); lia. }
    rewrite R.
    assert (Eq : (rne (inject_Z tick / inject_Z w) == inject_Z n)%Q).
    { rewrite <- (rne_Z_exact n) by nia. apply rne_comp.
      rewrite Et, inject_Z_mult. field. lra. }
    rewrite (Qceiling_comp _ _ Eq). apply Qceiling_Z.
  - assert (R : (tick + w - 1) / w = n + 1).
    { symmetry. apply (Z.div_unique _ _ _ (tick mod w - 1)); lia. }
    rewrite R. apply Qceiling_between.
    + apply rne_quotient_above; [lia | exact Hn | lia | exact Ht1].
    + rewrite <- (rne_Z_exact (n + 1)) by nia. apply rne_le.
      apply Qle_shift_div_r; [exact W0|].
      rewrite <- inject_Z_mult, <- Zle_Qle. nia.
Qed.

(** X15.  At a resolution that is a multiple of 12, with ticks below
    [2^53], rounding plays no part: [get_tubs_placement] returns the exact
    ceiling of the tick divided by the slot width. *)
Theorem get_tubs_placement_exact self w tick :
  ticks_per_beat self = 12 * w ->
  1 <= w -> 12 * w <= max_exact_int ->
  0 <= tick < max_exact_int ->
  get_tubs_placement self tick = Ok ((tick + w - 1) / w).
Proof.
  intros E Hw Hb Ht.
  assert (F : max_exact_int <= tick_bound) by (vm_compute; discriminate).
  rewrite get_tubs_placement_spec; [| rewrite E; lia | lia].
  rewrite E. f_equal. apply spec_quantize_exact; assumption.
Qed.

Lemma get_tubs_placement_exact_witness :
  get_tubs_placement scenario_A 481 = Ok 13.
Proof.
  apply (get_tubs_placement_exact scenario_A 40 481).
  - reflexivity.
  - lia.
  - vm_compute. discriminate.
  - split; [lia | vm_compute; reflexivity].
Defined.

(** ** Quantization against the exact ceiling *)










(** ** Scanning twice *)

Lemma process_message_covered p m p' :
  process_message p m = Ok p' ->
  (forall t e, In (t, e) (track_attacks (abs_time_counter p) [m]) ->
     exists events e', PyDict.get Z.eqb t (beats p) = Some events /\
                       In e' events /\ note e' = note e) ->
  beats p' = beats p.
Proof.
  intros H Cov. unfold process_message in H. cbv zeta in H.
  cbn [abs_time_counter with_abs_time_counter beats] in H.
  destruct m as [e|t d|nu de d|d]; cbn [track_attacks time] in *.
  - destruct ((velocity e >? 0) && (channel e =? 9)) eqn:Q.
    + destruct (Cov _ e (or_introl eq_refl)) as (events & e' & G & Ie & Ne).
      rewrite G in H.
      assert (F : (len (filter (fun b => note b =? note e) events) =? 0) = false).
      { assert (I : In e' (filter (fun b => note b =? note e) events)).
        { apply filter_In. split; [exact Ie | apply Z.eqb_eq, Ne]. }
        unfold len. destruct (filter _ events); [destruct I | reflexivity]. }
      rewrite F in H. injection H as <-. reflexivity.
    + injection H as <-. reflexivity.
  - destruct (py_int_truediv 1000000 t) as [x|]; [|discriminate H]. cbn [bind] in H.
    destruct (py_float 60) as [sixty|]; [|discriminate H]. cbn [bind] in H.
    injection H as <-. reflexivity.
  - injection H as <-. reflexivity.
  - injection H as <-. reflexivity.
Qed.

Lemma process_messages_covered t : forall p p',
  foldM process_message t p = Ok p' ->
  (forall t0 e, In (t0, e) (track_attacks (abs_time_counter p) t) ->
     exists events e', PyDict.get Z.eqb t0 (beats p) = Some events /\
                       In e' events /\ note e' = note e) ->
  beats p' = beats p.
Proof.
  induction t as [|m t IH]; intros p p'; simpl foldM.
  - intros [= <-] _. reflexivity.
  - destruct (process_message p m) as [p1|] eqn:E; cbn [bind]; [|discriminate].
    intros H Cov. rewrite track_attacks_cons in Cov.
    assert (B1 : beats p1 = beats p).
    { apply (process_message_covered p m p1 E).
      intros t0 e Hin. apply Cov, in_or_app. left. exact Hin. }
    destruct (process_message_counters p m p1 E) as [C _].
    rewrite <- B1. apply (IH p1 p' H). rewrite B1, C.
    intros t0 e Hin. apply Cov, in_or_app. right. exact Hin.
Qed.

Lemma process_track_covered p t p' :
  process_track p t = Ok p' ->
  (forall t0 e, In (t0, e) (track_attacks 0 t) ->
     exists events e', PyDict.get Z.eqb t0 (beats p) = Some events /\
                       In e' events /\ note e' = note e) ->
  beats p' = beats p.
Proof.
  unfold process_track. intros H Cov.
  destruct (foldM process_message t (with_abs_time_counter 0 p)) as [p1|] eqn:E;
    cbn [bind] in H; [|discriminate].
  assert (B1 := process_messages_covered t _ _ E Cov).
  destruct (_ >? _); injection H as <-; exact B1.
Qed.

Lemma process_tracks_covered ts : forall p p',
  foldM process_track ts p = Ok p' ->
  (forall t0 e, In (t0, e) (file_attacks ts) ->
     exists events e', PyDict.get Z.eqb t0 (beats p) = Some events /\
                       In e' events /\ note e' = note e) ->
  beats p' = beats p.
Proof.
  unfold file_attacks.
  induction ts as [|t ts IH]; intros p p'; simpl foldM.
  - intros [= <-] _. reflexivity.
  - destruct (process_track p t) as [p1|] eqn:E; cbn [bind]; [|discriminate].
    intros H Cov. cbn [flat_map] in Cov.
    assert (B1 : beats p1 = beats p).
    { apply (process_track_covered p t p1 E).
      intros t0 e Hin. apply Cov, in_or_app. left. exact Hin. }
    rewrite <- B1. apply (IH p1 p' H). rewrite B1.
    intros t0 e Hin. apply Cov, in_or_app. right. exact Hin.
Qed.

Lemma process_tracks_ok_tempo p p' :
  process_tracks p = Ok p' -> Forall (Forall tempo_ok) (mid_tracks (mid p)).
Proof.
  intros E. apply Forall_forall. intros t Ht. apply Forall_forall. intros m Hm.
  destruct m as [e|tp d|nu de d|d]; cbn [tempo_ok]; try exact I.
  intros ->. unfold process_tracks in E.
  rewrite (foldM_raise process_track _ t ZeroDivisionError Ht) in E; [discriminate | |].
  - intros s. apply process_track_zero_tempo.
    apply Exists_exists. exists (MSetTempo 0 d). split; [exact Hm | reflexivity].
  - intros s y e' _ Ey. apply (process_track_raise_inv _ _ _ Ey).
Qed.

(** X16.  A second [process_tracks] on the same processor succeeds and
    changes neither [beats], every attack now being a duplicate, nor
    [max_track_len]. *)
Theorem process_tracks_twice m path rt p1 :
  process_tracks (init m path rt) = Ok p1 ->
  exists p2, process_tracks p1 = Ok p2 /\
    beats p2 = beats p1 /\ max_track_len p2 = max_track_len p1.
Proof.
  intros E.
  destruct (process_tracks_same_file _ _ E) as (Em & _).
  cbn [mid init] in Em.
  assert (T := process_tracks_ok_tempo _ _ E). cbn [mid init] in T.
  destruct (process_tracks_total p1) as [p2 E2]; [rewrite Em; exact T|].
  exists p2. split; [exact E2|].
  assert (E' := E). unfold process_tracks in E'. cbn [mid init] in E'.
  unfold process_tracks in E2. rewrite Em in E2. split.
  - apply (process_tracks_covered _ _ _ E2).
    destruct (process_tracks_represents _ _ _ [] E') as [Cpl _].
    { split; [intros t e []|]. intros t events e G. discriminate G. }
    exact Cpl.
  - assert (Z0 : 0 <= max_track_len (init m path rt)) by (cbn; lia).
    assert (M1 := process_tracks_max _ _ _ Z0 E'). cbn [max_track_len init] in M1.
    assert (Z1 : 0 <= max_track_len p1) by lia.
    rewrite (process_tracks_max _ _ _ Z1 E2). lia.
Qed.

Lemma process_tracks_twice_witness :
  exists p1, process_tracks (init two_tracks "song.mid" "") = Ok p1 /\
    exists p2, process_tracks p1 = Ok p2 /\
      beats p2 = beats p1 /\ max_track_len p2 = max_track_len p1.
Proof.
  eexists. split; [vm_compute; reflexivity|].
  apply (process_tracks_twice two_tracks "song.mid" "").
  vm_compute. reflexivity.
Defined.

(** ** The file name *)

Lemma py_split_nonempty c s : py_split c s <> [].
Proof.
  destruct s as [|a s]; simpl; [discriminate|].
  destruct (Ascii.eqb a c); [discriminate|].
  destruct (py_split c s); discriminate.
Qed.

Lemma concat_cons_nonempty sep x (l : list string) :
  l <> [] -> String.concat sep (x :: l) = x ++ sep ++ String.concat sep l.
Proof. destruct l; [congruence | reflexivity]. Qed.

Lemma py_split_join c s :
  String.concat (String c EmptyString) (py_split c s) = s.
Proof.
  induction s as [|a s IH]; [reflexivity|]. cbn [py_split].
  destruct (Ascii.eqb_spec a c) as [->|N].
  - rewrite concat_cons_nonempty by apply py_split_nonempty.
    rewrite IH. reflexivity.
  - destruct (py_split c s) as [|h t] eqn:E; [exfalso; exact (py_split_nonempty c s E)|].
    rewrite <- IH. destruct t as [|h' t]; reflexivity.
Qed.

Lemma py_split_pieces c s : Forall (fun piece => count_char c piece = 0%nat) (py_split c s).
Proof.
  induction s as [|a s IH]; cbn [py_split]; [repeat constructor|].
  destruct (Ascii.eqb_spec a c) as [->|N].
  - constructor; [reflexivity | exact IH].
  - destruct (py_split c s) as [|h t]; [repeat constructor|].
    + cbn [count_char]. destruct (Ascii.eqb_spec a c); [contradiction | reflexivity].
    + inversion IH as [|? ? Hh Ht]; subst. constructor; [|exact Ht].
      cbn [count_char]. destruct (Ascii.eqb_spec a c); [contradiction | exact Hh].
Qed.

Lemma concat_last sep (l : list string) :
  l <> [] ->
  exists dir, String.concat sep l = dir ++ last l EmptyString /\
              (dir = EmptyString \/ exists d, dir = d ++ sep).
Proof.
  induction l as [|x l IH]; [congruence|]. intros _.
  destruct l as [|y l].
  - exists EmptyString. split; [reflexivity | left; reflexivity].
  - destruct (IH ltac:(discriminate)) as (dir' & E & Hd).
    exists (x ++ sep ++ dir'). split.
    + rewrite concat_cons_nonempty by discriminate. rewrite E.
      change (last (x :: y :: l) EmptyString) with (last (y :: l) EmptyString).
      rewrite !string_app_assoc. reflexivity.
    + right. destruct Hd as [->|[d ->]].
      * exists x. rewrite string_app_nil_r. reflexivity.
      * exists (x ++ sep ++ d). rewrite !string_app_assoc. reflexivity.
Qed.

(** X17.  [__init__] keeps as [filename] what follows the last ["/"] of
    the path: the pieces of [split('/')] joined by ["/"] give the path
    back, [filename] is the last piece, holds no ["/"], and the path is a
    directory part, empty or ending in ["/"], followed by it. *)
Theorem init_filename m path rt :
  String.concat "/" (py_split "/"%char path) = path /\
  count_char "/"%char (filename (init m path rt)) = 0%nat /\
  exists dir, path = dir ++ filename (init m path rt) /\
              (dir = EmptyString \/ exists d, dir = d ++ "/").
Proof.
  split; [apply py_split_join|]. cbn [filename init]. split.
  - assert (F := py_split_pieces "/"%char path). rewrite Forall_forall in F.
    apply F. destruct (exists_last (py_split_nonempty "/"%char path)) as (l' & x & ->).
    rewrite last_last. apply in_or_app. right. left. reflexivity.
  - destruct (concat_last "/" (py_split "/"%char path) (py_split_nonempty _ _))
      as (dir & E & Hd).
    rewrite py_split_join in E. exists dir. split; assumption.
Qed.

(** ** Last write wins *)

Lemma process_message_last p m p' :
  process_message p m = Ok p' ->
  tempo p' = match m with MSetTempo t _ => t | _ => tempo p end /\
  (numerator p', denominator p')
  = match m with
    | MTimeSignature n d _ => (n, d)
    | _ => (numerator p, denominator p)
    end /\
  (match m with
   | MSetTempo t _ => bpm_of t = Ok (bpm p')
   | _ => bpm p' = bpm p
   end).
Proof.
  intros H. unfold process_message in H. cbv zeta in H.
  destruct m as [e|t d|nu de d|d].
  - destruct ((velocity e >? 0) && (channel e =? 9)).
    + destruct (PyDict.get Z.eqb _ _).
      * destruct (len _ =? 0); injection H as <-; repeat split.
      * injection H as <-. repeat split.
    + injection H as <-. repeat split.
  - unfold bpm_of.
    destruct (py_int_truediv 1000000 t) as [x|]; [|discriminate H]. cbn [bind] in *.
    destruct (py_float 60) as [sixty|]; [|discriminate H]. cbn [bind] in *.
    injection H as <-. repeat split.
  - injection H as <-. repeat split.
  - injection H as <-. repeat split.
Qed.


Section Projection.
Context {X : Type}.
Variable proj : MidiProcessor -> X.
Variable g : X -> message -> X.
Hypothesis proj_message :
  forall p m p', process_message p m = Ok p' -> proj p' = g (proj p) m.
Hypothesis proj_counter : forall c p, proj (with_abs_time_counter c p) = proj p.
Hypothesis proj_max : forall c p, proj (with_max_track_len c p) = proj p.

Lemma process_messages_fold (t : track) :
  forall p p', foldM process_message t p = Ok p' -> proj p' = fold_left g t (proj p).
Proof.
  induction t as [|m t IH]; intros p p'; simpl.
  - intros [= <-]. reflexivity.
  - destruct (process_message p m) as [p1|] eqn:E; simpl; [|discriminate].
    intros H. rewrite (IH _ _ H), (proj_message _ _ _ E). reflexivity.
Qed.

Lemma process_track_fold (t : track) p p' :
  process_track p t = Ok p' -> proj p' = fold_left g t (proj p).
Proof.
  unfold process_track.
  destruct (foldM process_message t (with_abs_time_counter 0 p)) as [p1|] eqn:E;
    cbn [bind]; [|discriminate].
  apply process_messages_fold in E. rewrite proj_counter in E.
  destruct (abs_time_counter p1 >? max_track_len p1); intros [= <-].
  - rewrite proj_max. exact E.
  - exact E.
Qed.

Lemma process_tracks_fold (ts : list track) :
  forall p p', foldM process_track ts p = Ok p' ->
               proj p' = fold_left g (List.concat ts) (proj p).
Proof.
  induction ts as [|t ts IH]; intros p p'; simpl.
  - intros [= <-]. reflexivity.
  - destruct (process_track p t) as [p1|] eqn:E; simpl; [|discriminate].
    intros H. rewrite fold_left_app, (IH _ _ H), (process_track_fold _ _ _ E).
    reflexivity.
Qed.
End Projection.

Lemma process_message_tempo_and_bpm p m p' :
  process_message p m = Ok p' -> tempo_and_bpm p -> tempo_and_bpm p'.
Proof.
  intros H J. destruct (process_message_last _ _ _ H) as (T & _ & B).
  unfold tempo_and_bpm in *.
  destruct m; try (rewrite T, B; exact J).
  right. rewrite T. exact B.
Qed.

Lemma process_tracks_tempo_and_bpm p p' :
  process_tracks p = Ok p' -> tempo_and_bpm p -> tempo_and_bpm p'.
Proof.
  intros E J. revert E. unfold process_tracks.
  apply (foldM_invariant tempo_and_bpm); [|exact J].
  intros s t s' _ Js. unfold process_track.
  destruct (foldM process_message t (with_abs_time_counter 0 s)) as [p1|] eqn:E;
    cbn [bind]; [|discriminate].
  assert (J1 : tempo_and_bpm p1).
  { revert E. apply (foldM_invariant tempo_and_bpm); [|exact Js].
    intros q m q' _. intros Jq Hq. exact (process_message_tempo_and_bpm _ _ _ Hq Jq). }
  destruct (abs_time_counter p1 >? max_track_len p1); intros [= <-]; exact J1.
Qed.

(** X18.  Among the events that set the tempo, and among those that set
    the time signature, the last one over the tracks in file order wins,
    whichever track it is on; without one the defaults 0 and 4/4 stay.
    [bpm] is [(1000000 / tempo) * 60] for that last tempo, and still 0
    when the tempo is. *)
Theorem process_tracks_last_write_wins m path rt p' :
  process_tracks (init m path rt) = Ok p' ->
  tempo p' = last_tempo (mid_tracks m) 0 /\
  (numerator p', denominator p') = last_signature (mid_tracks m) (4, 4) /\
  tempo_and_bpm p'.
Proof.
  intros H. split; [|split].
  - unfold process_tracks in H.
    apply (process_tracks_fold tempo
             (fun acc m => match m with MSetTempo t _ => t | _ => acc end)) in H.
    + exact H.
    + intros p m0 q Hq. apply (process_message_last _ _ _ Hq).
    + reflexivity.
    + reflexivity.
  - unfold process_tracks in H.
    apply (process_tracks_fold (fun p => (numerator p, denominator p))
             (fun acc m => match m with MTimeSignature n d _ => (n, d) | _ => acc end))
      in H.
    + exact H.
    + intros p m0 q Hq. destruct (process_message_last _ _ _ Hq) as (_ & S & _).
      rewrite S. destruct m0; reflexivity.
    + reflexivity.
    + reflexivity.
  - apply (process_tracks_tempo_and_bpm _ _ H). left. split; reflexivity.
Qed.

Lemma process_tracks_last_write_wins_witness :
  exists p', process_tracks (init tempo_file "song.mid" "") = Ok p' /\
    tempo p' = 400000 /\ (numerator p', denominator p') = (6, 8) /\
    tempo_and_bpm p'.
Proof.
  eexists. split; [vm_compute; reflexivity|].
  apply (process_tracks_last_write_wins tempo_file "song.mid" "").
  vm_compute. reflexivity.
Defined.
